(** * fenced: a shallow embedding of the agentic chat runtime

    The development follows the TypeScript sources:

    - [packages/parser/src/index.ts]            the incremental fence parser,
    - [packages/executor/src/streaming-vm-executor.ts]
                                                the streaming interpreter and
                                                the module-based [VmExecutor],
    - [packages/executor/src/execution-manager.ts]
    - [packages/executor/src/data-manager.ts]   reactive records ([Data])
                                                and [StreamedData],
    - [packages/channel/src/websocket-channel.ts]
    - [apps/server/runtime.ts]                  the interaction loop.

    Part I holds the definitions, Part II the theorems.

    JavaScript strings are sequences of UTF-16 code units; they are modelled
    as [list N].  Objects used as dictionaries are [gmap]s. *)

From Stdlib Require Import NArith ZArith Ascii String DecimalString.
From stdpp Require Import base option list gmap.

Open Scope N_scope.
Open Scope nat_scope.
Open Scope list_scope.

(* ===================================================================== *)
(** * Part I: definitions                                                  *)
(* ===================================================================== *)

(** ** JavaScript strings *)

Module Js.

Abbreviation jsstring := (list N).

(** The code units of an ASCII literal. *)
Definition js (s : string) : jsstring :=
  List.map N_of_ascii (list_ascii_of_string s).

Definition ch (a : ascii) : N := N_of_ascii a.

Definition LF : N := 10%N.
Definition CR : N := 13%N.
Definition TAB : N := 9%N.
Definition SPACE : N := 32%N.
Definition DQUOTE : N := 34%N.
Definition SQUOTE : N := 39%N.
Definition ZWSP : N := 8203%N.          (* U+200B *)

Definition isEmpty (s : jsstring) : bool :=
  match s with [] => true | _ => false end.

Fixpoint eqb (s t : jsstring) : bool :=
  match s, t with
  | [], [] => true
  | a :: s', b :: t' => (a =? b)%N && eqb s' t'
  | _, _ => false
  end.

(** [s.startsWith(p)] *)
Fixpoint startsWith (s p : jsstring) : bool :=
  match p, s with
  | [], _ => true
  | a :: p', b :: s' => (a =? b)%N && startsWith s' p'
  | _ :: _, [] => false
  end.

(** [s.endsWith(p)] *)
Definition endsWith (s p : jsstring) : bool :=
  startsWith (rev s) (rev p).

(** Search for [pat] in [s], whose first code unit has absolute index [i]. *)
Fixpoint indexOfFrom (pat s : jsstring) (i : nat) : option nat :=
  if startsWith s pat then Some i
  else match s with
       | [] => None
       | _ :: s' => indexOfFrom pat s' (S i)
       end.

(** [s.indexOf(pat, from)]; [None] stands for [-1]. *)
Definition indexOf (s pat : jsstring) (from : nat) : option nat :=
  indexOfFrom pat (drop from s) from.

(** [s.slice(a, b)] for non-negative [a], [b] (both are clamped to the
    length, as in JavaScript). *)
Definition slice (s : jsstring) (a b : nat) : jsstring :=
  take (b - a) (drop a s).

(** [s.slice(a)] for non-negative [a]. *)
Definition sliceFrom (s : jsstring) (a : nat) : jsstring := drop a s.

(** [s.slice(a, -1)] for non-negative [a]. *)
Definition sliceButLast (s : jsstring) (a : nat) : jsstring :=
  take (length s - 1 - a) (drop a s).

(** White space in the sense of [String.prototype.trim] and of the regular
    expression class [\s]: WhiteSpace and LineTerminator code points. *)
Definition isWhiteSpace (c : N) : bool :=
  ((9 <=? c) && (c <=? 13) || (c =? 32) || (c =? 160) || (c =? 5760)
   || (8192 <=? c) && (c <=? 8202) || (c =? 8232) || (c =? 8233)
   || (c =? 8239) || (c =? 8287) || (c =? 12288) || (c =? 65279))%N.

Fixpoint trimStart (s : jsstring) : jsstring :=
  match s with
  | c :: s' => if isWhiteSpace c then trimStart s' else s
  | [] => []
  end.

Definition trimEnd (s : jsstring) : jsstring := rev (trimStart (rev s)).

(** [s.trim()] *)
Definition trim (s : jsstring) : jsstring := trimEnd (trimStart s).

(** Lower-casing of the ASCII letters.  The sources only compare the
    lower-cased text with ASCII literals, and no code unit outside ASCII
    lower-cases to a letter of these literals. *)
Definition lowerUnit (c : N) : N :=
  if ((65 <=? c) && (c <=? 90))%N then (c + 32)%N else c.

Definition toLowerCase (s : jsstring) : jsstring := List.map lowerUnit s.

(** [parts.join(sep)] *)
Fixpoint join (sep : jsstring) (parts : list jsstring) : jsstring :=
  match parts with
  | [] => []
  | [p] => p
  | p :: rest => p ++ sep ++ join sep rest
  end.

(** A run of white space at the start of [s]; returns what follows and
    how many code units were skipped. *)
Fixpoint skipWs (s : jsstring) : nat * jsstring :=
  match s with
  | c :: s' => if isWhiteSpace c
               then let '(n, r) := skipWs s' in (S n, r)
               else (0, s)
  | [] => (0, [])
  end.

(** Case-insensitive prefix match against an ASCII literal, as the [i] flag
    does without the [u] flag (a code unit outside ASCII never matches an
    ASCII one).  Returns the rest of the input. *)
Fixpoint stripPrefixCI (lit s : jsstring) : option jsstring :=
  match lit, s with
  | [], _ => Some s
  | a :: lit', b :: s' =>
      if (lowerUnit a =? lowerUnit b)%N then stripPrefixCI lit' s' else None
  | _ :: _, [] => None
  end.

(** Case-sensitive prefix match. *)
Fixpoint stripPrefix (lit s : jsstring) : option jsstring :=
  match lit, s with
  | [], _ => Some s
  | a :: lit', b :: s' =>
      if (a =? b)%N then stripPrefix lit' s' else None
  | _ :: _, [] => None
  end.

(** The character class [[a-zA-Z_$]] and [[a-zA-Z0-9_$]]. *)
Definition isIdentStart (c : N) : bool :=
  ((97 <=? c) && (c <=? 122) || (65 <=? c) && (c <=? 90)
   || (c =? 95) || (c =? 36))%N.

Definition isIdentPart (c : N) : bool :=
  (isIdentStart c || (48 <=? c) && (c <=? 57))%N.

(** [/^[a-zA-Z_$][a-zA-Z0-9_$]*$/.test(s)] *)
Definition isIdentifier (s : jsstring) : bool :=
  match s with
  | c :: s' => isIdentStart c && forallb isIdentPart s'
  | [] => false
  end.

End Js.

(** ** The fence parser ([packages/parser/src/index.ts]) *)

Module Parser.
Import Js.

Definition FENCE : jsstring := js "```".
Definition MAX_TAIL : nat := length FENCE - 1.

(** A [TokenStream]: the tokens pushed so far (in push order, which is the
    order in which the consumer of [iterator] receives them) and the
    [closed] flag. *)
Record TokenStream := mkTokenStream {
  queue : list jsstring;
  closed : bool;
}.

(** Token streams are shared objects: the parser keeps the stream it pushes
    to, the segment it yielded keeps the same stream's iterator.  They live
    in a store and are named by their position in it. *)
Abbreviation StreamRef := nat.

Inductive ParserSegment :=
| MarkdownSegment (tokens : StreamRef)
| AgentRunSegment (index : nat) (sourceTokens : StreamRef)
| AgentDataSegment (index : nat) (streamedDataId : jsstring)
                   (jsonTokens : StreamRef).

Inductive BlockInfo :=
| InfoAgentRun (headerSource : jsstring)
| InfoAgentData (streamedDataId : jsstring).

Inductive ActiveBlock :=
| ActiveAgentRun (index : nat) (stream : StreamRef) (headerSource : jsstring)
                 (lastNonWhitespaceChar : option N)
| ActiveAgentData (stream : StreamRef)
| ActivePassthrough (stream : StreamRef).

Record SegmentParser := mkParser {
  buffer : jsstring;
  blockIndex : nat;
  markdownStream : option StreamRef;
  activeBlock : option ActiveBlock;
  store : list TokenStream;
}.

Definition newParser : SegmentParser :=
  {| buffer := []; blockIndex := 0; markdownStream := None;
     activeBlock := None; store := [] |}.

Definition setBuffer (b : jsstring) (p : SegmentParser) : SegmentParser :=
  {| buffer := b; blockIndex := blockIndex p;
     markdownStream := markdownStream p; activeBlock := activeBlock p;
     store := store p |}.

Definition setActiveBlock (a : option ActiveBlock) (p : SegmentParser)
  : SegmentParser :=
  {| buffer := buffer p; blockIndex := blockIndex p;
     markdownStream := markdownStream p; activeBlock := a;
     store := store p |}.

Definition setMarkdownStream (m : option StreamRef) (p : SegmentParser)
  : SegmentParser :=
  {| buffer := buffer p; blockIndex := blockIndex p;
     markdownStream := m; activeBlock := activeBlock p;
     store := store p |}.

Definition setStore (h : list TokenStream) (p : SegmentParser)
  : SegmentParser :=
  {| buffer := buffer p; blockIndex := blockIndex p;
     markdownStream := markdownStream p; activeBlock := activeBlock p;
     store := h |}.

Definition setBlockIndex (n : nat) (p : SegmentParser) : SegmentParser :=
  {| buffer := buffer p; blockIndex := n;
     markdownStream := markdownStream p; activeBlock := activeBlock p;
     store := store p |}.

(** *** Token streams *)

(** [push(chunk)]: ignored when the chunk is empty or the stream closed. *)
Definition tsPush (chunk : jsstring) (ts : TokenStream) : TokenStream :=
  if isEmpty chunk || closed ts then ts
  else {| queue := queue ts ++ [chunk]; closed := closed ts |}.

(** [close()] *)
Definition tsClose (ts : TokenStream) : TokenStream :=
  if closed ts then ts else {| queue := queue ts; closed := true |}.

(** What a consumer reads from the stream's iterator: all tokens, joined. *)
Definition body (ts : TokenStream) : jsstring := concat (queue ts).

(** *** The generator monad

    The parser's methods are generators over the mutable parser object:
    they change the parser (and the streams) and yield segments. *)

Definition Gen (A : Type) : Type :=
  SegmentParser -> A * SegmentParser * list ParserSegment.

Definition ret {A} (a : A) : Gen A := fun p => (a, p, []).

Definition bind {A B} (m : Gen A) (k : A -> Gen B) : Gen B :=
  fun p => let '(a, p1, out1) := m p in
           let '(b, p2, out2) := k a p1 in
           (b, p2, out1 ++ out2).

Notation "x <- m ;; k" := (bind m (fun x => k))
  (at level 100, m at next level, right associativity).
Notation "m ;;; k" := (bind m (fun _ => k))
  (at level 100, right associativity).

Definition yield (s : ParserSegment) : Gen unit := fun p => (tt, p, [s]).
Definition yieldOpt (s : option ParserSegment) : Gen unit :=
  match s with Some s => yield s | None => ret tt end.
Definition get : Gen SegmentParser := fun p => (p, p, []).
Definition modify (f : SegmentParser -> SegmentParser) : Gen unit :=
  fun p => (tt, f p, []).

(** [createTokenStream()] *)
Definition createTokenStream : Gen StreamRef :=
  fun p => (length (store p),
            setStore (store p ++ [{| queue := []; closed := false |}]) p,
            []).

(** [stream.push(chunk)] and [stream.close()] on the shared stream. *)
Definition streamPush (r : StreamRef) (chunk : jsstring) : Gen unit :=
  modify (fun p => setStore (alter (tsPush chunk) r (store p)) p).

Definition streamClose (r : StreamRef) : Gen unit :=
  modify (fun p => setStore (alter tsClose r (store p)) p).

(** *** Helpers at the end of the source file *)

Definition isAgentRunHeader (header : jsstring) : bool :=
  eqb (toLowerCase header) (js "tsx agent.run").

Definition isQuote (c : N) : bool := ((c =? DQUOTE) || (c =? SQUOTE))%N.

(** [header.match(/^json\s+agent\.data\s*=>\s*[Q]([^Q]+)[Q]$/i)?.[1]], where
    the class [Q] holds the double and the single quote. *)
Definition matchAgentDataHeader (header : jsstring) : option jsstring :=
  match stripPrefixCI (js "json") header with
  | None => None
  | Some r1 =>
      let '(n1, r2) := skipWs r1 in
      if n1 =? 0 then None else
      match stripPrefixCI (js "agent.data") r2 with
      | None => None
      | Some r3 =>
          match stripPrefix (js "=>") (snd (skipWs r3)) with
          | None => None
          | Some r4 =>
              match snd (skipWs r4) with
              | q :: r5 =>
                  if isQuote q then
                    match rev r5 with
                    | q' :: revId =>
                        if isQuote q' && negb (isEmpty revId)
                           && forallb (fun c => negb (isQuote c)) revId
                        then Some (rev revId) else None
                    | [] => None
                    end
                  else None
              | [] => None
              end
          end
      end
  end.

Definition stripCarriageReturn (value : jsstring) : jsstring :=
  if endsWith value [CR] then sliceButLast value 0 else value.

Definition BACKTICK : N := 96%N.

(** The loop of [countTrailingBackticks], from the last code unit down. *)
Fixpoint countBackticksRev (revValue : jsstring) (count : nat) : nat :=
  match revValue with
  | c :: rest =>
      if count <? MAX_TAIL then
        if (c =? BACKTICK)%N then countBackticksRev rest (count + 1)
        else count
      else count
  | [] => count
  end.

Definition countTrailingBackticks (value : jsstring) : nat :=
  countBackticksRev (rev value) 0.

Definition isBlockSpace (c : N) : bool :=
  ((c =? SPACE) || (c =? TAB) || (c =? LF) || (c =? CR))%N.

(** The last code unit of [chunk] that is none of space, tab, LF, CR. *)
Fixpoint lastNonWsRev (revChunk : jsstring) : option N :=
  match revChunk with
  | c :: rest => if isBlockSpace c then lastNonWsRev rest else Some c
  | [] => None
  end.

Definition lastNonWs (chunk : jsstring) : option N :=
  lastNonWsRev (rev chunk).

(** [updateLastNonWhitespace(block, chunk)]: the new value of
    [block.lastNonWhitespaceChar]; an all-white-space chunk keeps the
    previous value. *)
Definition updateLastNonWhitespace (prev : option N) (chunk : jsstring)
  : option N :=
  match lastNonWs chunk with
  | Some c => Some c
  | None => prev
  end.

Definition isWhitespaceOnly (text : jsstring) : bool :=
  forallb (fun c => isBlockSpace c || (c =? ZWSP)%N) text.

(** *** The methods of [SegmentParser] *)

(** [append(text)] *)
Definition append (text : jsstring) (p : SegmentParser) : SegmentParser :=
  if isEmpty text then p else setBuffer (buffer p ++ text) p.

Definition ensureMarkdownStream : Gen (StreamRef * option ParserSegment) :=
  p <- get ;;
  match markdownStream p with
  | Some r => ret (r, None)
  | None =>
      r <- createTokenStream ;;
      modify (setMarkdownStream (Some r)) ;;;
      ret (r, Some (MarkdownSegment r))
  end.

Definition closeMarkdownStream : Gen unit :=
  p <- get ;;
  match markdownStream p with
  | None => ret tt
  | Some r => streamClose r ;;; modify (setMarkdownStream None)
  end.

Definition pushMarkdown (text : jsstring) : Gen unit :=
  if isEmpty text then ret tt else
  p <- get ;;
  match markdownStream p with
  | None =>
      (* no active markdown stream: white-space-only text is skipped *)
      if isWhitespaceOnly text then ret tt else
      sr <- ensureMarkdownStream ;;
      yieldOpt (snd sr) ;;;
      streamPush (fst sr) text
  | Some _ =>
      sr <- ensureMarkdownStream ;;
      yieldOpt (snd sr) ;;;
      streamPush (fst sr) text
  end.

Definition flushMarkdown (final : bool) : Gen unit :=
  p <- get ;;
  if isEmpty (buffer p) then
    (if final then closeMarkdownStream else ret tt)
  else
    let keep := if final then 0
                else min (countTrailingBackticks (buffer p)) MAX_TAIL in
    let emitLength := length (buffer p) - keep in
    (if 0 <? emitLength then
       modify (setBuffer (sliceFrom (buffer p) emitLength)) ;;;
       pushMarkdown (slice (buffer p) 0 emitLength)
     else ret tt) ;;;
    if final then
      p' <- get ;;
      (if negb (isEmpty (buffer p')) then
         pushMarkdown (buffer p') ;;; modify (setBuffer [])
       else ret tt) ;;;
      closeMarkdownStream
    else ret tt.

Definition parseHeader (header rawHeader : jsstring) : option BlockInfo :=
  if isAgentRunHeader header then
    Some (InfoAgentRun (FENCE ++ rawHeader ++ [LF]))
  else match matchAgentDataHeader header with
       | Some dataMatch => Some (InfoAgentData dataMatch)
       | None => None
       end.

Definition openBlock (info : BlockInfo) : Gen ParserSegment :=
  match info with
  | InfoAgentRun headerSource =>
      stream <- createTokenStream ;;
      p <- get ;;
      let index := blockIndex p in
      modify (setBlockIndex (index + 1)) ;;;
      modify (setActiveBlock
                (Some (ActiveAgentRun index stream headerSource None))) ;;;
      ret (AgentRunSegment index stream)
  | InfoAgentData streamedDataId =>
      stream <- createTokenStream ;;
      modify (setActiveBlock (Some (ActiveAgentData stream))) ;;;
      p <- get ;;
      let index := blockIndex p in
      modify (setBlockIndex (index + 1)) ;;;
      ret (AgentDataSegment index streamedDataId stream)
  end.

Definition SEMI : N := 59%N.

(** [closeAgentRunBlock(block)], with the block's stream and its
    [lastNonWhitespaceChar]. *)
Definition closeAgentRunBlock (stream : StreamRef) (lastNonWs : option N)
  : Gen unit :=
  (match lastNonWs with
   | Some c => if negb (c =? SEMI)%N then streamPush stream [SEMI]
               else ret tt
   | None => ret tt
   end) ;;;
  streamClose stream ;;;
  modify (setActiveBlock None).

(** [consumeAgentRunBlock(block, final)]; the result is [progressed].  The
    block is the object stored in [this.activeBlock]: the updates of its
    [lastNonWhitespaceChar] are written back to the parser. *)
Definition consumeAgentRunBlock (index : nat) (stream : StreamRef)
    (headerSource : jsstring) (lnw : option N) (final : bool) : Gen bool :=
  p <- get ;;
  match indexOf (buffer p) FENCE 0 with
  | None =>
      let emitLength := if final then length (buffer p)
                        else length (buffer p) - MAX_TAIL in
      lnw1 <- (if 0 <? emitLength then
                 let chunk := slice (buffer p) 0 emitLength in
                 streamPush stream chunk ;;;
                 modify (setBuffer (sliceFrom (buffer p) emitLength)) ;;;
                 ret (updateLastNonWhitespace lnw chunk)
               else ret lnw) ;;
      modify (setActiveBlock
                (Some (ActiveAgentRun index stream headerSource lnw1))) ;;;
      if final then
        p' <- get ;;
        lnw2 <- (if negb (isEmpty (buffer p')) then
                   streamPush stream (buffer p') ;;;
                   modify (setBuffer []) ;;;
                   ret (updateLastNonWhitespace lnw1 (buffer p'))
                 else ret lnw1) ;;
        closeAgentRunBlock stream lnw2 ;;;
        ret true
      else ret (0 <? emitLength)
  | Some closeIdx =>
      lnw1 <- (if 0 <? closeIdx then
                 let chunk := slice (buffer p) 0 closeIdx in
                 streamPush stream chunk ;;;
                 ret (updateLastNonWhitespace lnw chunk)
               else ret lnw) ;;
      modify (setBuffer (sliceFrom (buffer p) (closeIdx + length FENCE))) ;;;
      closeAgentRunBlock stream lnw1 ;;;
      ret true
  end.

Definition consumeAgentDataBlock (stream : StreamRef) (final : bool)
  : Gen bool :=
  p <- get ;;
  match indexOf (buffer p) FENCE 0 with
  | None =>
      let emitLength := if final then length (buffer p)
                        else length (buffer p) - MAX_TAIL in
      (if 0 <? emitLength then
         streamPush stream (slice (buffer p) 0 emitLength) ;;;
         modify (setBuffer (sliceFrom (buffer p) emitLength))
       else ret tt) ;;;
      if final then
        p' <- get ;;
        (if negb (isEmpty (buffer p')) then
           streamPush stream (buffer p') ;;; modify (setBuffer [])
         else ret tt) ;;;
        streamClose stream ;;;
        modify (setActiveBlock None) ;;;
        ret true
      else ret (0 <? emitLength)
  | Some closeIdx =>
      (if 0 <? closeIdx then
         streamPush stream (slice (buffer p) 0 closeIdx)
       else ret tt) ;;;
      modify (setBuffer (sliceFrom (buffer p) (closeIdx + length FENCE))) ;;;
      streamClose stream ;;;
      modify (setActiveBlock None) ;;;
      ret true
  end.

Definition consumePassthroughBlock (stream : StreamRef) (final : bool)
  : Gen bool :=
  p <- get ;;
  match indexOf (buffer p) FENCE 0 with
  | None =>
      if negb final then
        let keep := min (countTrailingBackticks (buffer p)) MAX_TAIL in
        let emitLength := length (buffer p) - keep in
        if emitLength <=? 0 then ret false
        else
          streamPush stream (slice (buffer p) 0 emitLength) ;;;
          modify (setBuffer (sliceFrom (buffer p) emitLength)) ;;;
          ret true
      else
        streamPush stream (buffer p) ;;;
        modify (setBuffer []) ;;;
        modify (setActiveBlock None) ;;;
        ret true
  | Some closeIdx =>
      (if 0 <? closeIdx then
         streamPush stream (slice (buffer p) 0 closeIdx)
       else ret tt) ;;;
      modify (setBuffer (sliceFrom (buffer p) (closeIdx + length FENCE))) ;;;
      streamPush stream FENCE ;;;
      modify (setActiveBlock None) ;;;
      ret true
  end.

Definition consumeActiveBlock (block : ActiveBlock) (final : bool)
  : Gen bool :=
  match block with
  | ActiveAgentRun index stream headerSource lnw =>
      consumeAgentRunBlock index stream headerSource lnw final
  | ActiveAgentData stream => consumeAgentDataBlock stream final
  | ActivePassthrough stream => consumePassthroughBlock stream final
  end.

(** One turn of the [while (true)] loop of [drain(final)]; the result says
    whether the loop goes on ([continue]) or ends ([break]). *)
Definition drainStep (final : bool) : Gen bool :=
  p <- get ;;
  match activeBlock p with
  | Some block => consumeActiveBlock block final
  | None =>
      match indexOf (buffer p) FENCE 0 with
      | None => flushMarkdown final ;;; ret false
      | Some fenceIdx =>
          if 0 <? fenceIdx then
            modify (setBuffer (sliceFrom (buffer p) fenceIdx)) ;;;
            pushMarkdown (slice (buffer p) 0 fenceIdx) ;;;
            ret true
          else if negb (startsWith (buffer p) FENCE) then
            pushMarkdown (take 1 (buffer p)) ;;;
            modify (setBuffer (sliceFrom (buffer p) 1)) ;;;
            ret true
          else
            match indexOf (buffer p) [LF] (length FENCE) with
            | None =>
                (if final then
                   pushMarkdown (buffer p) ;;;
                   modify (setBuffer []) ;;;
                   closeMarkdownStream
                 else ret tt) ;;;
                ret false
            | Some headerEnd =>
                let rawHeader :=
                  stripCarriageReturn
                    (slice (buffer p) (length FENCE) headerEnd) in
                let header := trim rawHeader in
                let blockInfo := parseHeader header rawHeader in
                modify (setBuffer (sliceFrom (buffer p) (headerEnd + 1))) ;;;
                match blockInfo with
                | None =>
                    sr <- ensureMarkdownStream ;;
                    yieldOpt (snd sr) ;;;
                    streamPush (fst sr) (FENCE ++ rawHeader ++ [LF]) ;;;
                    modify (setActiveBlock
                              (Some (ActivePassthrough (fst sr)))) ;;;
                    ret true
                | Some info =>
                    closeMarkdownStream ;;;
                    segment <- openBlock info ;;
                    yield segment ;;;
                    ret true
                end
            end
      end
  end.

(** The loop of [drain].  Every turn that continues shortens the buffer or
    closes the active block, so [drainFuel] turns are enough
    (see [ParserFacts.drain_spec]); the result is [false] only if the
    fuel ran out. *)
Fixpoint drainLoop (fuel : nat) (final : bool) : Gen bool :=
  match fuel with
  | 0 => ret false
  | S fuel' =>
      continue <- drainStep final ;;
      if continue then drainLoop fuel' final else ret true
  end.

Definition drainFuel (p : SegmentParser) : nat := 2 * length (buffer p) + 2.

Definition drain (final : bool) : Gen bool :=
  p <- get ;; drainLoop (drainFuel p) final.

(** [parse(chunks)] over the parser object, for a model stream that ends. *)
Fixpoint parseChunks (chunks : list jsstring) : Gen bool :=
  match chunks with
  | [] => drain true
  | text :: rest =>
      modify (append text) ;;;
      ok <- drain false ;;
      if ok then parseChunks rest else ret false
  end.

(** The segments [parse] yields, with the final state of the streams. *)
Definition parse (chunks : list jsstring)
  : option (list ParserSegment * list TokenStream) :=
  let '(ok, p, out) := parseChunks chunks newParser in
  if ok then Some (out, store p) else None.

(** What the consumer of [parse] observes: each segment with the body read
    from its stream (the concatenation of its tokens). *)
Inductive Observed :=
| ObsMarkdown (text : jsstring)
| ObsAgentRun (index : nat) (source : jsstring)
| ObsAgentData (index : nat) (streamedDataId : jsstring) (json : jsstring).

Definition readBody (h : list TokenStream) (r : StreamRef) : jsstring :=
  match h !! r with
  | Some ts => body ts
  | None => []
  end.

Definition observe (h : list TokenStream) (s : ParserSegment) : Observed :=
  match s with
  | MarkdownSegment r => ObsMarkdown (readBody h r)
  | AgentRunSegment i r => ObsAgentRun i (readBody h r)
  | AgentDataSegment i id r => ObsAgentData i id (readBody h r)
  end.

(** The block indices of the code and data segments, in emission order. *)
Definition blocksOf (segs : list ParserSegment) : list nat :=
  omap (fun s => match s with
                 | MarkdownSegment _ => None
                 | AgentRunSegment i _ => Some i
                 | AgentDataSegment i _ _ => Some i
                 end) segs.

Definition parseObserved (chunks : list jsstring) : option (list Observed) :=
  match parse chunks with
  | Some (segs, h) => Some (List.map (observe h) segs)
  | None => None
  end.

End Parser.

(** ** The streaming interpreter
       ([packages/executor/src/streaming-vm-executor.ts]) *)

Module Executor.
Import Js.

(** *** The environment: transpiler and [node:vm]

    Thrown values, as [formatError] and [tryTranspile] look at them. *)
Inductive Thrown :=
| ThrownError (message : jsstring)
    (* [error instanceof Error] *)
| ThrownOther (message : option jsstring) (asString : jsstring).
    (* any other value: its [message] property when that is a string,
       and [String(error)] *)

(** How the promise of a script settles: the value or the exception, the
    context as the script left it, and the texts the script wrote to the
    console sink meanwhile.  [Pending] is a promise that never settles. *)
Inductive ScriptOutcome (Value : Type) :=
| Fulfilled (result : Value) (ctx : gmap jsstring Value)
            (written : list jsstring)
| Rejected (e : Thrown) (ctx : gmap jsstring Value)
           (written : list jsstring)
| Pending.
Arguments Fulfilled {Value}.
Arguments Rejected {Value}.
Arguments Pending {Value}.

(** The collaborators of the executor, which are not part of the
    repository: [Bun.Transpiler.transformSync(source, "tsx")],
    [await new vm.Script(wrapped).runInContext(context)], the property
    read [result[name]], and the [console] object bound into the context. *)
Record Vm (Value : Type) := {
  transformSync : jsstring -> jsstring + Thrown;
  runInContext : jsstring -> gmap jsstring Value -> ScriptOutcome Value;
  getField : Value -> jsstring -> Value;
  consoleValue : Value;
}.
Arguments transformSync {Value}.
Arguments runInContext {Value}.
Arguments getField {Value}.
Arguments consoleValue {Value}.

Record ExecutionEvent := {
  ev_statement : jsstring;
  ev_logs : jsstring;
  ev_error : option jsstring;
}.

Record StreamingVmRunResult := {
  res_logs : jsstring;
  res_error : jsstring;
}.

(** Truthiness of an optional string: defined and not empty. *)
Definition truthy (s : option jsstring) : bool :=
  match s with
  | Some (_ :: _) => true
  | _ => false
  end.

Definition formatError (e : Thrown) : jsstring :=
  match e with
  | ThrownError message => message
  | ThrownOther (Some (c :: m)) _ => c :: m
  | ThrownOther _ asString => asString
  end.

(** *** Finding the names a statement binds *)

Definition isOpen (c : N) : bool :=
  ((c =? ch "{"%char) || (c =? ch "["%char) || (c =? ch "("%char))%N.
Definition isClose (c : N) : bool :=
  ((c =? ch "}"%char) || (c =? ch "]"%char) || (c =? ch ")"%char))%N.

(** The loop of [splitAtTopLevel]: the parts pushed so far, [current] and
    [depth]. *)
Fixpoint splitLoop (s : jsstring) (delimiter : N)
    (parts : list jsstring) (current : jsstring) (depth : Z)
  : list jsstring * jsstring :=
  match s with
  | [] => (parts, current)
  | c :: s' =>
      let depth' := if isOpen c then (depth + 1)%Z
                    else if isClose c then (depth - 1)%Z else depth in
      if (c =? delimiter)%N && (depth' =? 0)%Z
      then splitLoop s' delimiter (parts ++ [current]) [] depth'
      else splitLoop s' delimiter parts (current ++ [c]) depth'
  end.

Definition splitAtTopLevel (s : jsstring) (delimiter : N) : list jsstring :=
  let '(parts, current) := splitLoop s delimiter [] [] 0%Z in
  if isEmpty current then parts else parts ++ [current].

(** The loop of [findTopLevelIndex], at index [i]. *)
Fixpoint findLoop (s : jsstring) (char : N) (i : nat) (depth : Z)
  : option nat :=
  match s with
  | [] => None
  | c :: s' =>
      if isOpen c then findLoop s' char (S i) (depth + 1)%Z
      else if isClose c then findLoop s' char (S i) (depth - 1)%Z
      else if (c =? char)%N && (depth =? 0)%Z then
        (* for [=], make sure it is not [=>] *)
        if (char =? ch "="%char)%N &&
           match s' with n :: _ => (n =? ch ">"%char)%N | [] => false end
        then findLoop s' char (S i) depth
        else Some i
      else findLoop s' char (S i) depth
  end.

Definition findTopLevelIndex (s : jsstring) (char : N) : option nat :=
  findLoop s char 0 0%Z.

Definition stripDefault (s : jsstring) : jsstring :=
  match findTopLevelIndex s (ch "="%char) with
  | None => s
  | Some eqIdx => trim (slice s 0 eqIdx)
  end.

Definition stripTypeAnnotation (pattern : jsstring) : jsstring :=
  if negb (startsWith pattern (js "{")) && negb (startsWith pattern (js "["))
  then match indexOf pattern (js ":") 0 with
       | Some colonIdx => trim (slice pattern 0 colonIdx)
       | None => pattern
       end
  else pattern.

(** [parseDestructure(inner, type)], over the [parsePattern] it calls. *)
Definition parseDestructureWith (parsePattern : jsstring -> list jsstring)
    (inner : jsstring) (isObject : bool) : list jsstring :=
  concat
    (List.map
       (fun part =>
          let trimmed := trim part in
          if isEmpty trimmed then []
          else if startsWith trimmed (js "...") then
            let rest := trim (sliceFrom trimmed 3) in
            if isIdentifier rest then [rest] else []
          else
            match (if isObject then findTopLevelIndex trimmed (ch ":"%char)
                   else None) with
            | Some colonIdx =>
                parsePattern
                  (stripDefault (trim (sliceFrom trimmed (colonIdx + 1))))
            | None => parsePattern (stripDefault trimmed)
            end)
       (splitAtTopLevel inner (ch ","%char))).

(** [parsePattern] calls itself on strictly shorter strings (through
    [parseDestructure]); [fuel] bounds the nesting depth. *)
Fixpoint parsePatternF (fuel : nat) (pattern : jsstring) : list jsstring :=
  match fuel with
  | 0 => []
  | S fuel' =>
      let trimmed := trim pattern in
      if isIdentifier trimmed then [trimmed]
      else if startsWith trimmed (js "{") && endsWith trimmed (js "}") then
        parseDestructureWith (parsePatternF fuel') (sliceButLast trimmed 1)
                             true
      else if startsWith trimmed (js "[") && endsWith trimmed (js "]") then
        parseDestructureWith (parsePatternF fuel') (sliceButLast trimmed 1)
                             false
      else []
  end.

Definition parsePattern (pattern : jsstring) : list jsstring :=
  parsePatternF (S (length pattern)) pattern.

(** [trimmed.match(/^(const|let)\s+/)]: the length of [match[0]]. *)
Definition matchDeclaration (s : jsstring) : option nat :=
  match stripPrefix (js "const") s with
  | Some r => let n := fst (skipWs r) in
              if n =? 0 then None else Some (5 + n)
  | None =>
      match stripPrefix (js "let") s with
      | Some r => let n := fst (skipWs r) in
                  if n =? 0 then None else Some (3 + n)
      | None => None
      end
  end.

Definition extractVariableNames (source : jsstring) : list jsstring :=
  let trimmed := trim source in
  match matchDeclaration trimmed with
  | None => []
  | Some len =>
      let afterKeyword := sliceFrom trimmed len in
      match findTopLevelIndex afterKeyword (ch "="%char) with
      | None => []
      | Some eqIndex =>
          let pattern := trim (slice afterKeyword 0 eqIndex) in
          parsePattern (stripTypeAnnotation pattern)
      end
  end.

(** The longest prefix of identifier characters. *)
Fixpoint takeIdentPart (s : jsstring) : jsstring :=
  match s with
  | c :: s' => if isIdentPart c then c :: takeIdentPart s' else []
  | [] => []
  end.

(** The part [function\s+(IDENT)] of the expression below, at the start of
    [s]; IDENT is [[a-zA-Z_$]] followed by any number of [[a-zA-Z0-9_$]]. *)
Definition matchFunctionHead (s : jsstring) : option jsstring :=
  match stripPrefix (js "function") s with
  | None => None
  | Some r =>
      let '(n, r') := skipWs r in
      if n =? 0 then None else
      match r' with
      | c :: r'' => if isIdentStart c then Some (c :: takeIdentPart r'')
                    else None
      | [] => None
      end
  end.

(** [trimmed.match(/^(async\s+)?function\s+(IDENT)/)]: the name,
    [match[2]]. *)
Definition extractFunctionName (source : jsstring) : option jsstring :=
  let trimmed := trim source in
  let withAsync :=
    match stripPrefix (js "async") trimmed with
    | Some r => let '(n, r') := skipWs r in
                if n =? 0 then None else matchFunctionHead r'
    | None => None
    end in
  match withAsync with
  | Some name => Some name
  | None => matchFunctionHead trimmed
  end.

(** *** [StreamingVmExecutor] *)

Section Streaming.
Context {Value : Type} (vm : Vm Value).

(** The fields of the executor object.  The vm context is the global
    object of the scripts: a dictionary from global names to values. *)
Record StreamingVmExecutor := {
  context : gmap jsstring Value;
  logBuffer : list jsstring;
  running : bool;
}.

Definition setContext (c : gmap jsstring Value) (ex : StreamingVmExecutor) :=
  {| context := c; logBuffer := logBuffer ex; running := running ex |}.
Definition setLogBuffer (l : list jsstring) (ex : StreamingVmExecutor) :=
  {| context := context ex; logBuffer := l; running := running ex |}.
Definition setRunning (r : bool) (ex : StreamingVmExecutor) :=
  {| context := context ex; logBuffer := logBuffer ex; running := r |}.

(** [ensureConsoleBinding()]: [ctx.console = this.console] (the context is
    its own [globalThis]). *)
Definition ensureConsoleBinding (ex : StreamingVmExecutor)
  : StreamingVmExecutor :=
  setContext (<[js "console" := consoleValue vm]> (context ex)) ex.

Definition tryTranspile (source : jsstring) : jsstring + jsstring :=
  match transformSync vm source with
  | inl code => inl code
  | inr (ThrownError message) => inr message
  | inr (ThrownOther _ asString) => inr asString
  end.

(** The three wrappers of [executeStatement]. *)
Definition wrapDeclaration (transpiled : jsstring) (varNames : list jsstring)
  : jsstring :=
  js "(async () => { " ++ transpiled ++ js "; return { "
     ++ join (js ", ") varNames ++ js " }; })()".

Definition wrapFunction (transpiled funcName : jsstring) : jsstring :=
  js "(async () => { " ++ transpiled ++ js "; return "
     ++ funcName ++ js "; })()".

Definition wrapPlain (transpiled : jsstring) : jsstring :=
  js "(async () => { " ++ transpiled ++ js "; })()".

(** [context[name] = result[name]] for each name. *)
Definition hoist (result : Value) (varNames : list jsstring)
    (ctx : gmap jsstring Value) : gmap jsstring Value :=
  foldl (fun c name => <[name := getField vm result name]> c) ctx varNames.

(** How [await executeStatement(...)] ends: with [{}] or [{ error }], or
    never. *)
Inductive Executed :=
| Returned (error : option jsstring) (ex : StreamingVmExecutor)
| Never.

(** The script runs in the shared context and writes to the log buffer;
    what the executor does next depends on how its promise settles. *)
Definition afterScript (ex : StreamingVmExecutor)
    (o : ScriptOutcome Value)
    (onFulfilled : Value -> gmap jsstring Value -> gmap jsstring Value)
  : Executed :=
  match o with
  | Fulfilled result ctx written =>
      Returned None
        (setContext (onFulfilled result ctx)
           (setLogBuffer (logBuffer ex ++ written) ex))
  | Rejected e ctx written =>
      Returned (Some (formatError e))
        (setContext ctx (setLogBuffer (logBuffer ex ++ written) ex))
  | Pending => Never
  end.

Definition executeStatement (source transpiled : jsstring)
    (ex : StreamingVmExecutor) : Executed :=
  let varNames := extractVariableNames source in
  let funcName := extractFunctionName source in
  if 0 <? length varNames then
    (* variable declaration: wrap, execute, and hoist *)
    afterScript ex
      (runInContext vm (wrapDeclaration transpiled varNames) (context ex))
      (fun result ctx => hoist result varNames ctx)
  else
    match funcName with
    | Some (c :: name) =>
        (* function declaration: execute and hoist *)
        afterScript ex
          (runInContext vm (wrapFunction transpiled (c :: name)) (context ex))
          (fun fn ctx => <[c :: name := fn]> ctx)
    | _ =>
        (* regular statement: just execute *)
        afterScript ex
          (runInContext vm (wrapPlain transpiled) (context ex))
          (fun _ ctx => ctx)
    end.

(** The local variables of the generator in [run]. *)
Record Locals := {
  buffer : jsstring;
  prevChar : option N;
  inLineComment : bool;
  allLogs : jsstring;
}.

(** Where the generator is after a piece of its body. *)
Inductive Flow :=
| Next (l : Locals) (ex : StreamingVmExecutor)
    (* the loop goes on *)
| Return (allLogs finalError : jsstring) (ex : StreamingVmExecutor)
    (* [return] inside the [try]: the [finally] block comes next *)
| Stuck.
    (* an [await] that never returns *)

(** The body of [for (const char of chunk)].  Iterating by code unit or
    by code point builds the same [buffer], and [prevChar] is only ever
    compared with [/]. *)
Definition stepChar (char : N) (l : Locals) (ex : StreamingVmExecutor)
  : list ExecutionEvent * Flow :=
  let buffer := buffer l ++ [char] in
  let inLineComment :=
    if (char =? ch "/"%char)%N &&
       match prevChar l with Some c => (c =? ch "/"%char)%N | None => false end
    then true else inLineComment l in
  let inLineComment := if (char =? LF)%N then false else inLineComment in
  let next b logs :=
    Next {| buffer := b; prevChar := Some char;
            inLineComment := inLineComment; allLogs := logs |} in
  if (char =? ch ";"%char)%N && negb inLineComment then
    let trimmed := trim buffer in
    if negb (isEmpty trimmed) then
      match tryTranspile trimmed with
      | inl code =>
          match executeStatement trimmed code (setLogBuffer [] ex) with
          | Returned error ex' =>
              let logs := concat (logBuffer ex') in
              let allLogs := allLogs l ++ logs in
              ([{| ev_statement := trimmed; ev_logs := logs;
                   ev_error := error |}],
               if truthy error
               then Return allLogs (default [] error) ex'
               else next [] allLogs ex')
          | Never => ([], Stuck)
          end
      | inr _ =>
          (* keep buffering *)
          ([], next buffer (allLogs l) ex)
      end
    else ([], next buffer (allLogs l) ex)
  else ([], next buffer (allLogs l) ex).

Fixpoint stepChars (chars : jsstring) (l : Locals) (ex : StreamingVmExecutor)
  : list ExecutionEvent * Flow :=
  match chars with
  | [] => ([], Next l ex)
  | char :: rest =>
      match stepChar char l ex with
      | (evs, Next l' ex') =>
          let '(evs', f) := stepChars rest l' ex' in (evs ++ evs', f)
      | r => r
      end
  end.

(** [for await (const chunk of chunks)], for a stream that ends. *)
Fixpoint stepChunks (chunks : list jsstring) (l : Locals)
    (ex : StreamingVmExecutor) : list ExecutionEvent * Flow :=
  match chunks with
  | [] => ([], Next l ex)
  | chunk :: rest =>
      match stepChars chunk l ex with
      | (evs, Next l' ex') =>
          let '(evs', f) := stepChunks rest l' ex' in (evs ++ evs', f)
      | r => r
      end
  end.

(** The remaining buffer after the stream ends. *)
Definition flushTail (l : Locals) (ex : StreamingVmExecutor)
  : list ExecutionEvent * Flow :=
  let trimmed := trim (buffer l) in
  if negb (isEmpty trimmed) then
    match tryTranspile trimmed with
    | inl code =>
        match executeStatement trimmed code (setLogBuffer [] ex) with
        | Returned error ex' =>
            let logs := concat (logBuffer ex') in
            ([{| ev_statement := trimmed; ev_logs := logs;
                 ev_error := error |}],
             Return (allLogs l ++ logs)
                    (if truthy error then default [] error else []) ex')
        | Never => ([], Stuck)
        end
    | inr error =>
        let finalError := js "Incomplete statement: " ++ error in
        ([{| ev_statement := trimmed; ev_logs := [];
             ev_error := Some finalError |}],
         Return (allLogs l) finalError ex)
    end
  else ([], Return (allLogs l) [] ex).

(** What a caller that consumes all [events] sees of a run: the events,
    the value of the [result] promise if it resolves, and the executor
    afterwards. *)
Record RunOutcome := {
  events : list ExecutionEvent;
  result : option StreamingVmRunResult;
  after : option StreamingVmExecutor;
}.

(** The [finally] block. *)
Definition finish (evs : list ExecutionEvent) (f : Flow) : RunOutcome :=
  match f with
  | Return allLogs finalError ex =>
      {| events := evs;
         result := Some {| res_logs := allLogs; res_error := finalError |};
         after := Some (setLogBuffer [] (setRunning false ex)) |}
  | Next l ex =>
      (* not reached: the body of the generator ends in [flushTail] *)
      {| events := evs; result := None; after := Some ex |}
  | Stuck => {| events := evs; result := None; after := None |}
  end.

Definition initialLocals : Locals :=
  {| buffer := []; prevChar := None; inLineComment := false; allLogs := [] |}.

(** The start of [run]: the guard and the three assignments. *)
Definition startRun (ex : StreamingVmExecutor)
  : jsstring + StreamingVmExecutor :=
  if running ex then inl (js "A run is already in progress.")
  else inr (ensureConsoleBinding (setLogBuffer [] (setRunning true ex))).

(** The generator body, from the first chunk to the [finally] block. *)
Definition runBody (chunks : list jsstring) (ex : StreamingVmExecutor)
  : RunOutcome :=
  match stepChunks chunks initialLocals ex with
  | (evs, Next l ex') =>
      let '(evs', f) := flushTail l ex' in finish (evs ++ evs') f
  | (evs, f) => finish evs f
  end.

(** [run(chunks)]: [inl] is the exception of the guard. *)
Definition run (chunks : list jsstring) (ex : StreamingVmExecutor)
  : jsstring + RunOutcome :=
  match startRun ex with
  | inl e => inl e
  | inr ex' => inr (runBody chunks ex')
  end.

End Streaming.

End Executor.

(** ** Two instances of the environment

    The transpiler and [node:vm] are not part of the repository.  The
    theorems of Part II hold for every [Vm]; the instances below are used
    where a statement needs a concrete run. *)

Module SampleVm.
Import Js Executor.

Inductive SampleValue :=
| SUndefined
| SNumber (z : Z)
| SObject (fields : list (jsstring * Z))
| SConsole.

Definition sampleField (v : SampleValue) (name : jsstring) : SampleValue :=
  match v with
  | SObject fields =>
      match List.find (fun f => eqb (fst f) name) fields with
      | Some f => SNumber (snd f)
      | None => SUndefined
      end
  | _ => SUndefined
  end.

(** [wrapped] is the plain wrapper around the statement [NAME;], which
    reads the global [NAME]. *)
Definition readsGlobal (wrapped : jsstring) : option jsstring :=
  match stripPrefix (js "(async () => { ") wrapped with
  | None => None
  | Some rest =>
      match stripPrefix (rev (js ";; })()")) (rev rest) with
      | None => None
      | Some revName =>
          if isIdentifier (rev revName) then Some (rev revName) else None
      end
  end.

Definition referenceError (name : jsstring) : Thrown :=
  ThrownOther (Some (name ++ js " is not defined"))
              (js "ReferenceError: " ++ name ++ js " is not defined").

(** The scripts this vm knows, with what [node:vm] does on them: a
    declaration inside the wrapper's function is local to it, whatever its
    keyword; the object the declaration wrapper returns holds the hoisted
    names; reading a global that does not exist throws a [ReferenceError]. *)
Definition sampleScript (wrapped : jsstring) (ctx : gmap jsstring SampleValue)
  : ScriptOutcome SampleValue :=
  match readsGlobal wrapped with
  | Some name =>
      match ctx !! name with
      | Some _ => Fulfilled SUndefined ctx []
      | None => Rejected (referenceError name) ctx []
      end
  | None =>
      if eqb wrapped (js "(async () => { var x = 1;; })()") then
        Fulfilled SUndefined ctx []
      else if eqb wrapped (js "(async () => { let x;; })()") then
        Fulfilled SUndefined ctx []
      else if eqb wrapped (js "(async () => { const x = 1;; return { x }; })()")
      then Fulfilled (SObject [(js "x", 1%Z)]) ctx []
      else if eqb wrapped
                (js "(async () => { const a = 1, b = 2;; return { a }; })()")
      then Fulfilled (SObject [(js "a", 1%Z)]) ctx []
      else Rejected (ThrownOther (Some (js "Unexpected token"))
                                 (js "SyntaxError: Unexpected token")) ctx []
  end.

(** The transpiler leaves these statements as they are. *)
Definition sampleVm : Vm SampleValue :=
  {| transformSync := fun source => inl source;
     runInContext := sampleScript;
     getField := sampleField;
     consoleValue := SConsole |}.


Definition freshExecutor : StreamingVmExecutor (Value := SampleValue) :=
  {| context := ∅; logBuffer := []; running := false |}.


End SampleVm.

(** ** [ExecutionManager] ([packages/executor/src/execution-manager.ts]) *)

Module ExecutionManager.
Import Js Executor.

Section Manager.
Context {Value : Type} (vm : Vm Value).

(** The manager owns the streaming executor (the mount manager plays no
    part in what follows). *)
Record ExecutionManager := {
  executor : StreamingVmExecutor (Value := Value);
}.

(** [run(lines)] *)
Definition run (lines : list jsstring) (m : ExecutionManager)
  : jsstring + RunOutcome :=
  Executor.run vm lines (executor m).

(** [stop()]: the body is empty. *)
Definition stop (m : ExecutionManager) : ExecutionManager := m.

(** While a run consumes its source stream, [stop()] may be called
    between the arrivals of two chunks. *)
Inductive Arrival :=
| Chunk (text : jsstring)
| StopCalled.

Definition chunksOf (arrivals : list Arrival) : list jsstring :=
  omap (fun a => match a with Chunk t => Some t | StopCalled => None end)
       arrivals.

(** The loop over the source stream of a run in progress, with the calls
    of [stop()] that happen meanwhile. *)
Fixpoint stepArrivals (arrivals : list Arrival) (l : Locals)
    (m : ExecutionManager) : list ExecutionEvent * Flow (Value := Value) :=
  match arrivals with
  | [] => ([], Next l (executor m))
  | StopCalled :: rest => stepArrivals rest l (stop m)
  | Chunk text :: rest =>
      match stepChars vm text l (executor m) with
      | (evs, Next l' ex') =>
          let '(evs', f) := stepArrivals rest l' {| executor := ex' |} in
          (evs ++ evs', f)
      | r => r
      end
  end.

Definition runBodyWithStops (arrivals : list Arrival) (m : ExecutionManager)
  : RunOutcome :=
  match stepArrivals arrivals initialLocals m with
  | (evs, Next l ex') =>
      let '(evs', f) := flushTail vm l ex' in finish (evs ++ evs') f
  | (evs, f) => finish evs f
  end.

End Manager.
End ExecutionManager.

(** ** [VmExecutor] (the second half of the executor sources) *)

Module VmExecutor.
Import Js Executor.

Record VmExecutor := {
  logBuffer : option (list jsstring);
  running : bool;
  hasStopReject : bool;          (* [this.stopReject !== undefined] *)
}.

Definition idle : VmExecutor :=
  {| logBuffer := None; running := false; hasStopReject := false |}.

Record VmRunResult := {
  logs : jsstring;
  error : jsstring;
}.

(** [options.timeoutMs], a whole number of milliseconds when given. *)
Record VmRunOptions := { timeoutMs : option Z }.

Definition decimal (z : Z) : jsstring :=
  js (DecimalString.NilZero.string_of_int (Z.to_int z)).

Definition VmExecutionStoppedError : Thrown :=
  ThrownError (js "Execution stopped").

Definition VmExecutionTimeoutError (timeoutMs : Z) : Thrown :=
  ThrownError (js "Execution timed out after " ++ decimal timeoutMs
                 ++ js "ms").

(** Whether [run] arms the timer:
    [Number.isFinite(timeoutMs) && timeoutMs && timeoutMs > 0]. *)
Definition timerArmed (options : VmRunOptions) : option Z :=
  match timeoutMs options with
  | Some ms => if (0 <? ms)%Z then Some ms else None
  | None => None
  end.

(** What happens while [run] awaits [Promise.race([execution,
    stopPromise])], in the order in which it happens. *)
Inductive Event :=
| Written (text : jsstring)           (* the script writes to the console *)
| Settled (e : option Thrown)         (* [execution] fulfils or rejects *)
| TimerFired                          (* the timeout callback runs *)
| StopCalled (reason : option Thrown). (* someone calls [stop(reason)] *)

(** A run that is awaiting the race. *)
Record InFlight := {
  ex : VmExecutor;
  timer : option Z;
}.

Definition write (text : jsstring) (v : VmExecutor) : VmExecutor :=
  match logBuffer v with
  | Some l => {| logBuffer := Some (l ++ [text]); running := running v;
                 hasStopReject := hasStopReject v |}
  | None => v
  end.

(** The [finally] block and the [return] of [run], once the race has
    settled with [capturedError]. *)
Definition complete (error : jsstring) (capturedError : option Thrown)
    (v : VmExecutor) : VmRunResult * VmExecutor :=
  let logsSnapshot := default [] (logBuffer v) in
  let finalError :=
    if negb (isEmpty error) then error
    else match capturedError with
         | Some e => formatError e
         | None => []
         end in
  ({| logs := concat logsSnapshot; error := finalError |},
   {| logBuffer := None; running := false; hasStopReject := false |}).

(** [stop(reason)] on the executor object. *)
Definition stop (reason : option Thrown) (v : VmExecutor)
  : option Thrown * VmExecutor :=
  if negb (hasStopReject v) then (None, v)
  else (Some (default VmExecutionStoppedError reason),
        {| logBuffer := logBuffer v; running := running v;
           hasStopReject := false |}).

(** The race: the first of [execution] and [stopPromise] to settle ends
    the [await].  [None] when the events run out before that: the run is
    still pending. *)
Fixpoint race (events : list Event) (f : InFlight)
  : option (VmRunResult * VmExecutor) :=
  match events with
  | [] => None
  | Written text :: rest =>
      race rest {| ex := write text (ex f); timer := timer f |}
  | Settled e :: _ => Some (complete [] e (ex f))
  | TimerFired :: rest =>
      match timer f with
      | Some ms => Some (complete [] (Some (VmExecutionTimeoutError ms)) (ex f))
      | None => race rest f
      end
  | StopCalled reason :: rest =>
      match stop reason (ex f) with
      | (Some e, v) => Some (complete [] (Some e) v)
      | (None, v) => race rest {| ex := v; timer := timer f |}
      end
  end.

(** [run(source, options)].  [compiled] says whether transpiling, linking
    and evaluating the module went through ([None]) or threw. *)
Definition run (compiled : option Thrown) (options : VmRunOptions)
    (events : list Event) (v : VmExecutor)
  : jsstring + option (VmRunResult * VmExecutor) :=
  if running v then inl (js "A run is already in progress.")
  else
    let v1 := {| logBuffer := Some []; running := true;
                 hasStopReject := true |} in
    match compiled with
    | Some err => inr (Some (complete (formatError err) None v1))
    | None => inr (race events {| ex := v1; timer := timerArmed options |})
    end.

(** The console output among the events. *)
Definition isWritten (e : Event) : bool :=
  match e with Written _ => true | _ => false end.

Definition writtenTexts (events : list Event) : list jsstring :=
  omap (fun e => match e with Written text => Some text | _ => None end)
       events.

End VmExecutor.

(** ** Reactive records ([packages/executor/src/data-manager.ts]) *)

Module DataManager.
Import Js.

(** Property keys: strings and registered symbols ([Symbol.for(key)]). *)
Inductive PropertyKey :=
| KeyString (s : jsstring)
| KeySymbol (key : jsstring).

#[global] Instance PropertyKey_eq_dec : EqDecision PropertyKey.
Proof. solve_decision. Defined.

#[global] Instance PropertyKey_countable : Countable PropertyKey.
Proof.
  refine (inj_countable'
            (fun k => match k with KeyString s => inl s | KeySymbol s => inr s end)
            (fun x => match x with inl s => KeyString s | inr s => KeySymbol s end)
            _).
  by intros [].
Defined.

(** Property values; nested objects are held by reference. *)
Inductive Value :=
| VUndefined
| VNull
| VBool (b : bool)
| VNumber (z : Z)
| VString (s : jsstring)
| VRef (address : nat).

#[global] Instance Value_eq_dec : EqDecision Value.
Proof. solve_decision. Defined.

(** A data property with its attributes. *)
Record PropertyDescriptor := {
  value : Value;
  enumerable : bool;
  writable : bool;
  configurable : bool;
}.

#[global] Instance PropertyDescriptor_eq_dec : EqDecision PropertyDescriptor.
Proof. solve_decision. Defined.

(** An ordinary object: its own data properties and [[Extensible]]. *)
Record Obj := {
  props : gmap PropertyKey PropertyDescriptor;
  extensible : bool;
}.






(** [o[key]] *)
Definition getProperty (o : Obj) (key : PropertyKey) : Value :=
  match props o !! key with
  | Some d => value d
  | None => VUndefined
  end.

Definition DATA_ID : PropertyKey := KeySymbol (js "fenced.data.id").

Section Valtio.
(** [proxy] and [snapshot] of [valtio/vanilla], and [randomUUID()]. *)
Context (proxy : Obj -> Obj) (snapshot : Obj -> Obj).


(** [Data.getId(data)]; [None] is the thrown [Error]. *)
Definition getId (data : Obj) : option jsstring :=
  match getProperty data DATA_ID with
  | VString id => Some id
  | _ => None
  end.


End Valtio.






End DataManager.

(** ** [StreamedData] ([packages/executor/src/data-manager.ts]) *)

Module StreamedData.
Import Js DataManager.

(** A plain object with string keys, as [JSON.parse] makes them. *)
Abbreviation DataObject := (gmap jsstring Value).

(** The target of the proxy: the identifier, and the reference to the
    object that holds the data ([STREAMED_DATA_VALUE] is writable, the
    identifier is not). *)
Record Instance := {
  sdId : jsstring;
  sdValue : nat;
}.

(** The objects of the heap, the instances made so far, and the static
    [registry]. *)
Record World := {
  objects : list DataObject;
  instances : list Instance;
  registry : gmap jsstring nat;
}.

Definition emptyWorld : World :=
  {| objects := []; instances := []; registry := ∅ |}.

(** [new StreamedData(id)]: the value starts as a new empty object, and the
    proxy is registered under [id]. *)
Definition construct (id : jsstring) (w : World) : nat * World :=
  (length (instances w),
   {| objects := objects w ++ [∅];
      instances := instances w ++ [{| sdId := id;
                                      sdValue := length (objects w) |}];
      registry := <[id := length (instances w)]> (registry w) |}).

(** A new plain object on the heap (the result of [JSON.parse]). *)
Definition allocate (fields : DataObject) (w : World) : nat * World :=
  (length (objects w),
   {| objects := objects w ++ [fields]; instances := instances w;
      registry := registry w |}).

Definition dataOf (w : World) (streamed : nat) : option DataObject :=
  inst ← instances w !! streamed; objects w !! sdValue inst.

Section Prototype.
(** What a plain object inherits: the value read for a key that
    [Object.prototype] has ([toString], [constructor], ...). *)
Context (inherited : jsstring -> option Value).

(** [data[prop]] on a plain object: own properties first, then the
    inherited ones. *)
Definition readProperty (data : DataObject) (prop : jsstring) : Value :=
  match data !! prop with
  | Some v => v
  | None => default VUndefined (inherited prop)
  end.

(** The [get] trap, for a string key: [streamed[prop]]. *)
Definition getTrap (w : World) (streamed : nat) (prop : jsstring)
  : option Value :=
  inst ← instances w !! streamed;
  if bool_decide (prop = js "id") then Some (VString (sdId inst))
  else data ← objects w !! sdValue inst;
       Some (readProperty data prop).

(** The [has] trap, for a string key: [prop in streamed]. *)
Definition hasTrap (w : World) (streamed : nat) (prop : jsstring) : bool :=
  match dataOf w streamed with
  | Some data =>
      bool_decide (prop = js "id") || bool_decide (is_Some (data !! prop))
      || bool_decide (is_Some (inherited prop))
  | None => false
  end.

End Prototype.

(** The [set] trap, for a string key other than [__proto__] (assigning to
    that one goes to the setter of [Object.prototype] and makes no own
    property): [streamed[prop] = value] writes to the data object. *)
Definition setTrap (streamed : nat) (prop : jsstring) (value : Value)
    (w : World) : World :=
  match instances w !! streamed with
  | Some inst =>
      {| objects := alter (insert prop value) (sdValue inst) (objects w);
         instances := instances w; registry := registry w |}
  | None => w
  end.

(** [StreamedData.getId(streamed)] *)
Definition getId (w : World) (streamed : nat) : option jsstring :=
  sdId <$> instances w !! streamed.

(** [StreamedData.setData(streamed, data)]: the value slot now refers to
    [data]. *)
Definition setData (streamed data : nat) (w : World) : World :=
  {| objects := objects w;
     instances := alter (fun inst => {| sdId := sdId inst; sdValue := data |})
                        streamed (instances w);
     registry := registry w |}.

(** [StreamedData.getData(streamed)] *)
Definition getData (w : World) (streamed : nat) : option nat :=
  sdValue <$> instances w !! streamed.

Definition getById (w : World) (id : jsstring) : option nat :=
  registry w !! id.

Definition hasId (w : World) (id : jsstring) : bool :=
  bool_decide (is_Some (registry w !! id)).

(** [StreamedData.unregister(id)]: whether an entry was removed. *)
Definition unregister (id : jsstring) (w : World) : bool * World :=
  (hasId w id,
   {| objects := objects w; instances := instances w;
      registry := delete id (registry w) |}).

Definition clearRegistry (w : World) : World :=
  {| objects := objects w; instances := instances w; registry := ∅ |}.

End StreamedData.

(** ** The channel ([packages/channel/src/websocket-channel.ts]) *)

Module Channel.
Import Js.

(** JSON values: the scalars, and any other value by its serialization. *)
Inductive Json :=
| JNull
| JBool (b : bool)
| JNumber (z : Z)
| JString (s : jsstring)
| JOther (serialized : jsstring).

Record MountPayload := {
  mountId : jsstring;
  uiSource : jsstring;
  initialData : option Json;
  streamedDataId : option jsstring;
  outputSchema : Json;
  callbackNames : option (list jsstring);
}.

Record UiSubmitPayload := {
  submitMountId : jsstring;
  submitValue : Json;
}.

Record LogLine := {
  t : option jsstring;
  lvl : jsstring;
  msg : option jsstring;
  data : option (list (jsstring * Json));
  code : option jsstring;
  src : option jsstring;
}.

(** The frames this development looks at, and all the others. *)
Inductive ServerToClientEnvelope :=
| EnvMount (payload : MountPayload)
| EnvLogLine (payload : LogLine)
| EnvOther (type : jsstring) (payload : Json).

(** A promise made by [sendMount], named by its place in the heap. *)
Abbreviation PromiseRef := nat.

Section Socket.
(** [socket.send(frame)] succeeds or throws; [new Date().toISOString()]. *)
Context (socketSend : ServerToClientEnvelope -> bool) (now : jsstring).

Record WebSocketChannel := {
  closed : bool;
  pendingResults : gmap jsstring PromiseRef;
      (* the resolver stored for a mount resolves this promise *)
  sent : list ServerToClientEnvelope;
      (* the frames handed to the socket *)
  resolutions : list (PromiseRef * Json);
      (* the calls of resolvers, in order *)
  nextPromise : PromiseRef;
}.

Definition send (envelope : ServerToClientEnvelope) (c : WebSocketChannel)
  : WebSocketChannel :=
  if closed c then c
  else if socketSend envelope then
    {| closed := false; pendingResults := pendingResults c;
       sent := sent c ++ [envelope]; resolutions := resolutions c;
       nextPromise := nextPromise c |}
  else
    {| closed := true; pendingResults := pendingResults c;
       sent := sent c; resolutions := resolutions c;
       nextPromise := nextPromise c |}.

Definition sendMount (event : MountPayload) (c : WebSocketChannel)
  : PromiseRef * WebSocketChannel :=
  let c1 := send (EnvMount event) c in
  (nextPromise c1,
   {| closed := closed c1;
      pendingResults := <[mountId event := nextPromise c1]> (pendingResults c1);
      sent := sent c1; resolutions := resolutions c1;
      nextPromise := S (nextPromise c1) |}).

Definition log (line : LogLine) (c : WebSocketChannel) : WebSocketChannel :=
  send (EnvLogLine
          {| t := Some (default now (t line)); lvl := lvl line;
             msg := msg line; data := data line; code := code line;
             src := Some (default (js "server") (src line)) |}) c.

Definition notifyClosed (c : WebSocketChannel) : WebSocketChannel :=
  {| closed := true; pendingResults := pendingResults c;
     sent := sent c; resolutions := resolutions c;
     nextPromise := nextPromise c |}.

Definition unknownUiSubmit (mountId : jsstring) : LogLine :=
  {| t := None; lvl := js "error";
     msg := Some (js "ui_submit received with no pending mount");
     data := Some [(js "mountId", JString mountId)];
     code := Some (js "unknown_ui_submit"); src := None |}.

Definition resolveUiSubmit (payload : UiSubmitPayload) (c : WebSocketChannel)
  : WebSocketChannel :=
  match pendingResults c !! submitMountId payload with
  | None => log (unknownUiSubmit (submitMountId payload)) c
  | Some resolver =>
      {| closed := closed c;
         pendingResults := delete (submitMountId payload) (pendingResults c);
         sent := sent c;
         resolutions := resolutions c ++ [(resolver, submitValue payload)];
         nextPromise := nextPromise c |}
  end.

(** What can happen to a channel: the methods above, and the other
    methods, all of which only hand frames to [send]. *)
Inductive Op :=
| SendMount (event : MountPayload)
| UiSubmit (payload : UiSubmitPayload)
| Log (line : LogLine)
| SendFrame (envelope : ServerToClientEnvelope)
| NotifyClosed.

Definition apply (c : WebSocketChannel) (op : Op) : WebSocketChannel :=
  match op with
  | SendMount event => snd (sendMount event c)
  | UiSubmit payload => resolveUiSubmit payload c
  | Log line => log line c
  | SendFrame envelope => send envelope c
  | NotifyClosed => notifyClosed c
  end.

Definition applyAll (c : WebSocketChannel) (ops : list Op) : WebSocketChannel :=
  foldl apply c ops.

(** The values a promise was resolved with, in order. *)
Definition resolvedWith (c : WebSocketChannel) (p : PromiseRef) : list Json :=
  omap (fun r => if fst r =? p then Some (snd r) else None) (resolutions c).



End Socket.

Definition newChannel : WebSocketChannel :=
  {| closed := false; pendingResults := ∅; sent := []; resolutions := [];
     nextPromise := 0 |}.

End Channel.

(** ** The interaction loop ([apps/server/runtime.ts]) *)

Module Runtime.
Import Js.

Record LlmLogsPayload := {
  logs : option jsstring;
  error : option jsstring;
}.

Definition emptyTranscript : LlmLogsPayload := {| logs := None; error := None |}.

(** [value && value.trim()] as a condition. *)
Definition present (value : option jsstring) : bool :=
  match value with
  | Some (c :: v) => negb (isEmpty (trim (c :: v)))
  | _ => false
  end.

Definition hasTranscript (payload : LlmLogsPayload) : bool :=
  present (logs payload) || present (error payload).

Definition truthy (value : option jsstring) : bool :=
  match value with
  | Some (_ :: _) => true
  | _ => false
  end.

Record TracePayload := {
  interactionId : jsstring;
  messageId : jsstring;
  text : jsstring;
  category : jsstring;
}.

(** What a turn asks of the model. *)
Inductive LlmRequest :=
| Recording                              (* [createRecordingStream()] *)
| UserQuery (userQuery : jsstring)       (* [llm.userQuery(userQuery)] *)
| Logs (transcript : LlmLogsPayload).    (* [llm.logs(transcript)] *)

(** How [await this.consumeAssistantStream(...)] of a turn ends. *)
Inductive TurnOutcome :=
| Transcript (transcript : LlmLogsPayload) (stopCalled : bool)
    (* the model stream ended; [stopCalled] says whether [stop()] was
       called while the turn was running *)
| Throws (e : jsstring).

Definition maxTurns : nat := 15.

Section Loop.
(** The model and the per-turn work, for bounded model streams; the two
    identifiers drawn by [crypto.randomUUID()]; whether a recording is
    configured. *)
Context (consumeAssistantStream : nat -> LlmRequest -> TurnOutcome)
        (interactionUUID messageUUID : jsstring)
        (recordingPath : bool).

Record Runtime := {
  running : bool;
  stopped : bool;
}.

(** How the [try] block of [newInteraction] ends. *)
Inductive Ending :=
| Completed
| Threw (e : jsstring)
| OutOfFuel.

Record Interaction := {
  turnsRun : nat;
  traces : list TracePayload;
  ending : Ending;
  stoppedAfter : bool;
}.

Definition trace (text category : jsstring) : list TracePayload :=
  [{| interactionId := interactionUUID; messageId := messageUUID;
      text := text; category := category |}].

(** The traces sent after a turn. *)
Definition turnTraces (transcript : LlmLogsPayload) : list TracePayload :=
  (if truthy (error transcript)
   then trace (default [] (error transcript)) (js "exec_error") else [])
  ++
  (if truthy (logs transcript)
   then trace (default [] (logs transcript)) (js "exec_result") else []).

Definition request (userQuery : jsstring) (turn : nat)
    (transcript : LlmLogsPayload) : LlmRequest :=
  if (turn =? 0) && recordingPath then Recording
  else if turn =? 0 then UserQuery userQuery
  else Logs transcript.

(** The [while (!this.stopped)] loop; [fuel] bounds the number of turns
    the model of the loop may take. *)
Fixpoint loop (fuel : nat) (userQuery : jsstring) (turn : nat)
    (transcript : LlmLogsPayload) (stopped : bool) : Interaction :=
  match fuel with
  | 0 => {| turnsRun := 0; traces := []; ending := OutOfFuel;
            stoppedAfter := stopped |}
  | S fuel' =>
      if stopped then
        {| turnsRun := 0; traces := []; ending := Completed;
           stoppedAfter := stopped |}
      else
        match consumeAssistantStream turn (request userQuery turn transcript) with
        | Throws e =>
            {| turnsRun := 1; traces := []; ending := Threw e;
               stoppedAfter := stopped |}
        | Transcript transcript' stopCalled =>
            let stopped' := stopped || stopCalled in
            if negb (hasTranscript transcript') then
              {| turnsRun := 1; traces := turnTraces transcript';
                 ending := Completed; stoppedAfter := stopped' |}
            else if maxTurns <=? turn + 1 then
              {| turnsRun := 1; traces := turnTraces transcript';
                 ending := Completed; stoppedAfter := stopped' |}
            else
              let r := loop fuel' userQuery (turn + 1) transcript' stopped' in
              {| turnsRun := S (turnsRun r);
                 traces := turnTraces transcript' ++ traces r;
                 ending := ending r; stoppedAfter := stoppedAfter r |}
        end
  end.

(** [newInteraction(userQuery)]: [inl] is the exception of the guard. *)
Definition newInteraction (userQuery : jsstring) (rt : Runtime)
  : jsstring + (Interaction * Runtime) :=
  if running rt then inl (js "An interaction is already running")
  else
    let r := loop maxTurns userQuery 0 emptyTranscript false in
    inr ({| turnsRun := turnsRun r;
            traces := trace userQuery (js "user") ++ traces r;
            ending := ending r; stoppedAfter := stoppedAfter r |},
         {| running := false; stopped := stoppedAfter r |}).

End Loop.


(** A model that always has something to say. *)
Definition chattyModel (turn : nat) (req : LlmRequest) : TurnOutcome :=
  Transcript {| logs := Some (js "more"); error := None |} false.

(** [stop()]: set the flag, then [this.executor.stop()]. *)
Definition stop {Value : Type} (rt : Runtime)
    (m : ExecutionManager.ExecutionManager (Value := Value))
  : Runtime * ExecutionManager.ExecutionManager (Value := Value) :=
  ({| running := running rt; stopped := true |}, ExecutionManager.stop m).

(** [value && value.length > 0 ? value : undefined], for a string. *)
Definition nonEmpty (value : jsstring) : option jsstring :=
  if isEmpty value then None else Some value.

(** [normalizeResult(result)] *)
Definition normalizeResult (result : Executor.StreamingVmRunResult)
  : LlmLogsPayload :=
  {| logs := nonEmpty (trim (Executor.res_logs result));
     error := nonEmpty (trim (Executor.res_error result)) |}.

(** [values.filter(Boolean)]: the strings that are defined and not empty. *)
Definition filterBoolean (values : list (option jsstring)) : list jsstring :=
  omap (fun value => match value with
                     | Some (c :: s) => Some (c :: s)
                     | _ => None
                     end) values.

(** One field of [mergeTranscripts]:
    [[current, next].filter(Boolean).join(LF).trim()], kept when not
    empty. *)
Definition mergeField (current next : option jsstring) : option jsstring :=
  nonEmpty (trim (join [LF] (filterBoolean [current; next]))).

Definition mergeTranscripts (current next : LlmLogsPayload) : LlmLogsPayload :=
  {| logs := mergeField (logs current) (logs next);
     error := mergeField (error current) (error next) |}.

End Runtime.

(* ===================================================================== *)
(** * Part II: theorems                                                    *)
(* ===================================================================== *)

(** ** Facts about JavaScript strings *)

Module JsFacts.
Import Js.

Lemma startsWith_length s p : startsWith s p = true -> length p <= length s.
Proof.
  revert s; induction p as [|a p IH]; intros [|b s]; simpl; try lia; try done.
  intros H. apply andb_prop in H as [_ H]. apply IH in H. lia.
Qed.

Lemma indexOfFrom_Some pat s i k :
  indexOfFrom pat s i = Some k ->
  i <= k /\ (k - i) + length pat <= length s.
Proof.
  revert i; induction s as [|c s IH]; intros i; cbn [indexOfFrom].
  - destruct (startsWith [] pat) eqn:E; [|done].
    intros [= <-]. apply startsWith_length in E. lia.
  - destruct (startsWith (c :: s) pat) eqn:E.
    + intros [= <-]. apply startsWith_length in E. lia.
    + intros H. apply IH in H. simpl. lia.
Qed.

Lemma indexOf_Some s a pat from k :
  indexOf s (a :: pat) from = Some k ->
  from <= k /\ k + S (length pat) <= length s.
Proof.
  unfold indexOf. intros H. apply indexOfFrom_Some in H.
  rewrite length_drop in H. simpl in H. lia.
Qed.

(** *** Trimming *)

(** Text made of white space only. *)
Definition blank (s : jsstring) : Prop :=
  Forall (fun c => isWhiteSpace c = true) s.

(** Text that does not start with white space. *)
Definition noLead (s : jsstring) : Prop :=
  match s with c :: _ => isWhiteSpace c = false | [] => True end.

Lemma trimStart_suffix s : exists w, s = w ++ trimStart s /\ blank w.
Proof.
  induction s as [|c s (w & E & B)];
    [exists []; split; [done|constructor]|]. cbn [trimStart].
  destruct (isWhiteSpace c) eqn:Ec.
  - exists (c :: w). split; [cbn; f_equal; exact E|by constructor].
  - exists []. split; [done|constructor].
Qed.

Lemma trimStart_noLead s : noLead (trimStart s).
Proof.
  induction s as [|c s IH]; [done|]. cbn [trimStart].
  by destruct (isWhiteSpace c) eqn:Ec.
Qed.

Lemma trimStart_fix s : noLead s -> trimStart s = s.
Proof. destruct s as [|c s]; [done|]. cbn. by intros ->. Qed.

Lemma trimStart_blank s : blank s <-> trimStart s = [].
Proof.
  split.
  - induction 1 as [|c s Hc _ IH]; [done|]. cbn. by rewrite Hc.
  - intros E. destruct (trimStart_suffix s) as (w & Es & B).
    rewrite E, app_nil_r in Es. by subst.
Qed.

Lemma blank_rev s : blank s <-> blank (rev s).
Proof. unfold blank. split; intros H; [by apply Forall_rev|]. rewrite <- (rev_involutive s). by apply Forall_rev. Qed.

Lemma blank_app x y : blank (x ++ y) <-> blank x /\ blank y.
Proof. apply Forall_app. Qed.

Lemma trimEnd_prefix s : exists w, s = trimEnd s ++ w /\ blank w.
Proof.
  unfold trimEnd. destruct (trimStart_suffix (rev s)) as (w & E & B).
  exists (rev w). split; [|by apply blank_rev in B].
  rewrite <- rev_app_distr, <- E. by rewrite rev_involutive.
Qed.

Lemma trimEnd_noLead s : noLead s -> noLead (trimEnd s).
Proof.
  intros H. destruct (trimEnd_prefix s) as (w & E & B).
  destruct s as [|c s]; [by destruct (trimEnd []) |].
  destruct (trimEnd (c :: s)) as [|c' t]; [done|].
  cbn in *. by injection E as -> _.
Qed.

Lemma trimEnd_fix s : noLead (rev s) -> trimEnd s = s.
Proof.
  intros H. unfold trimEnd. rewrite trimStart_fix by done.
  apply rev_involutive.
Qed.

Lemma trim_noLead s : noLead (trim s).
Proof. apply trimEnd_noLead, trimStart_noLead. Qed.

Lemma trim_noTrail s : noLead (rev (trim s)).
Proof.
  unfold trim, trimEnd. rewrite rev_involutive. apply trimStart_noLead.
Qed.

(** [trim] is idempotent. *)
Lemma trim_idem s : trim (trim s) = trim s.
Proof.
  unfold trim at 1. rewrite (trimStart_fix (trim s)) by apply trim_noLead.
  apply trimEnd_fix, trim_noTrail.
Qed.

(** Trimming leaves nothing exactly when the text is blank. *)
Lemma trim_blank s : blank s <-> trim s = [].
Proof.
  unfold trim. split.
  - intros B. apply trimStart_blank in B. by rewrite B.
  - intros E. destruct (trimEnd_prefix (trimStart s)) as (w & Es & B).
    rewrite E in Es. cbn in Es.
    destruct (trimStart_suffix s) as (w' & Es' & B').
    rewrite Es'. apply blank_app. split; [done|]. by rewrite Es.
Qed.

Lemma trim_fix s : noLead s -> noLead (rev s) -> trim s = s.
Proof.
  intros H1 H2. unfold trim. rewrite trimStart_fix by done.
  by apply trimEnd_fix.
Qed.

End JsFacts.

(** ** Facts about the parser *)

Module ParserFacts.
Import Js Parser JsFacts.

(** *** Token streams and the store *)

(** Closed streams never change again, and the store only grows. *)
Definition frozen (h h' : list TokenStream) : Prop :=
  length h <= length h' /\
  forall r ts, h !! r = Some ts -> closed ts = true -> h' !! r = Some ts.

Lemma frozen_refl h : frozen h h.
Proof. split; [lia|auto]. Qed.

Lemma frozen_trans h1 h2 h3 : frozen h1 h2 -> frozen h2 h3 -> frozen h1 h3.
Proof. intros [L1 F1] [L2 F2]. split; [lia|]. intros r ts H C. eauto. Qed.

Lemma tsPush_closed c ts : closed ts = true -> tsPush c ts = ts.
Proof. unfold tsPush. intros ->. by rewrite orb_true_r. Qed.

Lemma tsClose_closed ts : closed ts = true -> tsClose ts = ts.
Proof. unfold tsClose. by intros ->. Qed.

Lemma frozen_alter f h r :
  (forall ts, closed ts = true -> f ts = ts) -> frozen h (alter f r h).
Proof.
  intros Hf. split; [by rewrite length_alter|].
  intros r' ts H C. destruct (decide (r = r')) as [->|Hne].
  - rewrite list_lookup_alter_eq, H. simpl. rewrite Hf; done.
  - rewrite list_lookup_alter_ne; done.
Qed.

Lemma frozen_push h r c : frozen h (alter (tsPush c) r h).
Proof. apply frozen_alter. intros ts. apply tsPush_closed. Qed.

Lemma frozen_close h r : frozen h (alter tsClose r h).
Proof. apply frozen_alter. intros ts. apply tsClose_closed. Qed.

Lemma frozen_create h ts : frozen h (h ++ [ts]).
Proof.
  split; [rewrite length_app; lia|].
  intros r t H _. rewrite lookup_app_l; [done|]. by eapply lookup_lt_Some.
Qed.

Lemma tsPush_open c ts :
  closed ts = false ->
  closed (tsPush c ts) = false /\ body (tsPush c ts) = body ts ++ c.
Proof.
  unfold tsPush, body. intros E. rewrite E, orb_false_r.
  destruct c as [|a c]; simpl.
  - by rewrite app_nil_r.
  - split; [done|]. by rewrite concat_app; simpl; rewrite app_nil_r.
Qed.

Lemma tsClose_open ts :
  closed ts = false ->
  closed (tsClose ts) = true /\ body (tsClose ts) = body ts.
Proof. unfold tsClose, body. by intros ->. Qed.

(** *** The last character that is not white space *)

Lemma lastNonWsRev_app x y :
  lastNonWsRev (x ++ y) =
  match lastNonWsRev x with Some c => Some c | None => lastNonWsRev y end.
Proof.
  induction x as [|c x IH]; simpl; [done|]. by destruct (isBlockSpace c).
Qed.

Lemma lastNonWs_app a b :
  lastNonWs (a ++ b) = updateLastNonWhitespace (lastNonWs a) b.
Proof.
  unfold lastNonWs, updateLastNonWhitespace.
  by rewrite rev_app_distr, lastNonWsRev_app.
Qed.

(** The token appended when a code block closes. *)
Definition terminator (b0 : jsstring) : jsstring :=
  match lastNonWs b0 with
  | Some c => if negb (c =? SEMI)%N then [SEMI] else []
  | None => []
  end.


Lemma frozen_push_step h h1 r c :
  frozen h h1 -> frozen h (alter (tsPush c) r h1).
Proof. intros H. eapply frozen_trans; [exact H|apply frozen_push]. Qed.

Lemma frozen_close_step h h1 r :
  frozen h h1 -> frozen h (alter tsClose r h1).
Proof. intros H. eapply frozen_trans; [exact H|apply frozen_close]. Qed.

Lemma frozen_create_step h h1 ts : frozen h h1 -> frozen h (h1 ++ [ts]).
Proof. intros H. eapply frozen_trans; [exact H|apply frozen_create]. Qed.

Create HintDb frozen.
#[local] Hint Resolve frozen_refl frozen_push_step frozen_close_step
  frozen_create_step : frozen.

(** *** Methods that only touch the markdown stream *)

#[local] Arguments pushMarkdown : simpl never.
#[local] Arguments closeMarkdownStream : simpl never.
#[local] Arguments flushMarkdown : simpl never.

Definition isMarkdownSegment (s : ParserSegment) : Prop :=
  match s with MarkdownSegment _ => True | _ => False end.

(** A step is quiet when it leaves the buffer, the active block and the
    block counter alone, changes no closed stream and yields markdown
    segments only. *)
Record quiet (p p' : SegmentParser) (out : list ParserSegment) : Prop := {
  quiet_buffer : buffer p' = buffer p;
  quiet_active : activeBlock p' = activeBlock p;
  quiet_index : blockIndex p' = blockIndex p;
  quiet_store : frozen (store p) (store p');
  quiet_out : Forall isMarkdownSegment out;
}.

Ltac quiet_done :=
  constructor; cbn; auto with frozen;
  repeat (constructor; [exact I|]); try (by constructor).

Lemma pushMarkdown_spec text p :
  exists p' out, pushMarkdown text p = (tt, p', out) /\ quiet p p' out.
Proof.
  unfold pushMarkdown. destruct (isEmpty text).
  { eexists _, _. split; [reflexivity|]. quiet_done. }
  destruct p as [b bi ms ab h]; cbn.
  destruct ms as [r|]; [|destruct (isWhitespaceOnly text)]; cbn;
    eexists _, _; (split; [reflexivity|]); quiet_done.
Qed.

Lemma closeMarkdownStream_spec p :
  exists p', closeMarkdownStream p = (tt, p', []) /\ quiet p p' [].
Proof.
  destruct p as [b bi ms ab h]; unfold closeMarkdownStream; cbn.
  destruct ms as [r|]; cbn; eexists; (split; [reflexivity|]); quiet_done.
Qed.

Ltac gsimpl :=
  cbv beta iota zeta delta
    [bind get ret modify yield yieldOpt streamPush streamClose
     createTokenStream];
  cbn [buffer blockIndex markdownStream activeBlock store
       setBuffer setActiveBlock setMarkdownStream setStore setBlockIndex
       fst snd negb].

Ltac gsimpl_in H :=
  cbv beta iota zeta delta
    [bind get ret modify yield yieldOpt streamPush streamClose
     createTokenStream] in H;
  cbn [buffer blockIndex markdownStream activeBlock store
       setBuffer setActiveBlock setMarkdownStream setStore setBlockIndex
       fst snd negb] in H.

Ltac step_push :=
  match goal with
  | |- context [pushMarkdown ?t ?p] =>
      let p1 := fresh "p" in
      let o := fresh "out" in
      let Hb := fresh "Hb" in
      let Ha := fresh "Ha" in
      let Hi := fresh "Hi" in
      let Hs := fresh "Hs" in
      let Ho := fresh "Ho" in
      destruct (pushMarkdown_spec t p) as (p1 & o & -> & [Hb Ha Hi Hs Ho]);
      gsimpl_in Hb; gsimpl_in Ha; gsimpl_in Hi; gsimpl_in Hs; gsimpl
  end.

Ltac step_close :=
  match goal with
  | |- context [closeMarkdownStream ?p] =>
      let p1 := fresh "p" in
      let Hb := fresh "Hb" in
      let Ha := fresh "Ha" in
      let Hi := fresh "Hi" in
      let Hs := fresh "Hs" in
      let Ho := fresh "Ho" in
      destruct (closeMarkdownStream_spec p) as (p1 & -> & [Hb Ha Hi Hs Ho]);
      gsimpl_in Hb; gsimpl_in Ha; gsimpl_in Hi; gsimpl_in Hs; gsimpl
  end.

Ltac use_buffer_eqs :=
  repeat match goal with
         | H : buffer ?p = _ |- _ => is_var p; rewrite H in *; clear H
         end.

Ltac finish :=
  eexists _, _; (split; [reflexivity|]);
  unfold sliceFrom in *; use_buffer_eqs;
  split_and?; try congruence; eauto 6 with frozen;
  try (rewrite ?length_drop in *; simpl in *; lia).

Lemma Forall_md_app (o1 o2 : list ParserSegment) :
  Forall isMarkdownSegment o1 -> Forall isMarkdownSegment o2 ->
  Forall isMarkdownSegment (o1 ++ o2).
Proof. intros. by apply Forall_app. Qed.

#[local] Hint Resolve Forall_md_app Forall_nil_2 : frozen.
#[local] Hint Extern 2 (frozen _ _) =>
  eapply frozen_trans; [eassumption|] : frozen.
#[local] Hint Extern 3 (frozen _ _) =>
  eapply frozen_trans; [|eassumption] : frozen.

Lemma flushMarkdown_spec final p :
  exists p' out, flushMarkdown final p = (tt, p', out) /\
    length (buffer p') <= length (buffer p) /\
    activeBlock p' = activeBlock p /\
    blockIndex p' = blockIndex p /\
    frozen (store p) (store p') /\
    Forall isMarkdownSegment out.
Proof.
  unfold flushMarkdown. gsimpl.
  destruct (isEmpty (buffer p)) eqn:Eb.
  { destruct final; gsimpl; [step_close|]; finish. }
  set (keep := if final then 0 else _).
  destruct (0 <? length (buffer p) - keep) eqn:El; gsimpl.
  - step_push. destruct final; gsimpl.
    + destruct (isEmpty (buffer p0)) eqn:Eb0; gsimpl.
      * step_close. finish.
      * step_push. step_close. finish.
    + finish.
  - destruct final; gsimpl.
    + rewrite Eb. gsimpl. step_push. step_close. finish.
    + finish.
Qed.

(** *** The invariant of the drain loop *)

(** A closed code stream: its body is the streamed text followed by the
    terminator that [closeAgentRunBlock] chose for it. *)
Definition goodAt (h : list TokenStream) (r : StreamRef) : Prop :=
  exists ts b0,
    h !! r = Some ts /\ closed ts = true /\ body ts = b0 ++ terminator b0.

(** An open stream with body [b]. *)
Definition openAt (h : list TokenStream) (r : StreamRef) (b : jsstring)
  : Prop :=
  exists ts, h !! r = Some ts /\ closed ts = false /\ body ts = b.

(** The active code block tracks the last non-white-space character of
    what it has streamed so far. *)
Definition activeOk (p : SegmentParser) : Prop :=
  forall i r hs lnw,
    activeBlock p = Some (ActiveAgentRun i r hs lnw) ->
    exists b, openAt (store p) r b /\ lnw = lastNonWs b.

(** Every code segment yielded so far is either closed and terminated, or
    it is the active block. *)
Definition segsOk (p : SegmentParser) (segs : list ParserSegment) : Prop :=
  forall i r,
    AgentRunSegment i r ∈ segs ->
    goodAt (store p) r \/
    exists hs lnw, activeBlock p = Some (ActiveAgentRun i r hs lnw).

Definition Inv (p : SegmentParser) (segs : list ParserSegment) : Prop :=
  activeOk p /\ segsOk p segs.

Definition measure (p : SegmentParser) : nat :=
  2 * length (buffer p) +
  match activeBlock p with Some _ => 1 | None => 0 end.

Lemma goodAt_frozen h h' r : frozen h h' -> goodAt h r -> goodAt h' r.
Proof.
  intros [_ F] (ts & b0 & L & C & B). exists ts, b0. eauto.
Qed.

Lemma openAt_push h r b c :
  openAt h r b -> openAt (alter (tsPush c) r h) r (b ++ c).
Proof.
  intros (ts & L & C & B). exists (tsPush c ts).
  rewrite list_lookup_alter_eq, L. destruct (tsPush_open c ts C) as [C' B'].
  split_and!; [done|done|]. by rewrite B', B.
Qed.

Lemma openAt_close_good h r b :
  openAt h r (b ++ terminator b) -> goodAt (alter tsClose r h) r.
Proof.
  intros (ts & L & C & B). exists (tsClose ts), b.
  rewrite list_lookup_alter_eq, L. destruct (tsClose_open ts C) as [C' B'].
  split_and!; [done|done|]. by rewrite B', B.
Qed.

Definition notRunSegment (s : ParserSegment) : Prop :=
  match s with AgentRunSegment _ _ => False | _ => True end.

Lemma markdown_notRun out :
  Forall isMarkdownSegment out -> Forall notRunSegment out.
Proof. intros H. eapply Forall_impl; [exact H|]. by intros []. Qed.

(** Steps made while no code block is active. *)
Lemma Inv_step_inactive p p' segs out :
  Inv p segs ->
  (forall i r hs lnw, activeBlock p <> Some (ActiveAgentRun i r hs lnw)) ->
  frozen (store p) (store p') ->
  Forall notRunSegment out ->
  activeOk p' ->
  Inv p' (segs ++ out).
Proof.
  intros [_ HS] Hno Hf Hout Ha. split; [done|].
  intros i r Hin. apply elem_of_app in Hin as [Hin|Hin].
  - destruct (HS i r Hin) as [G|(hs & lnw & E)].
    + left. by eapply goodAt_frozen.
    + by destruct (Hno i r hs lnw).
  - rewrite Forall_forall in Hout. by apply Hout in Hin.
Qed.

Lemma activeOk_not_run p :
  (forall i r hs lnw, activeBlock p <> Some (ActiveAgentRun i r hs lnw)) ->
  activeOk p.
Proof. intros H i r hs lnw E. by destruct (H i r hs lnw). Qed.

Lemma closeAgentRunBlock_spec r lnw p b :
  openAt (store p) r b -> lnw = lastNonWs b ->
  exists p', closeAgentRunBlock r lnw p = (tt, p', []) /\
    buffer p' = buffer p /\ activeBlock p' = None /\
    frozen (store p) (store p') /\ goodAt (store p') r.
Proof.
  intros Ho ->. unfold closeAgentRunBlock.
  assert (Hterm : forall h, openAt h r b ->
            openAt (match lastNonWs b with
                    | Some c => if negb (c =? SEMI)%N
                                then alter (tsPush [SEMI]) r h else h
                    | None => h
                    end) r (b ++ terminator b)).
  { intros h Hh. unfold terminator.
    destruct (lastNonWs b) as [c|]; [destruct (negb (c =? SEMI)%N)|].
    - by apply openAt_push.
    - by rewrite app_nil_r.
    - by rewrite app_nil_r. }
  specialize (Hterm _ Ho).
  destruct (lastNonWs b) as [c|]; [destruct (negb (c =? SEMI)%N)|]; gsimpl;
    eexists; (split; [reflexivity|]); gsimpl;
    split_and!; auto with frozen; by apply (openAt_close_good _ _ b).
Qed.

Lemma Inv_run_continue p p' segs i r hs lnw lnw' b' :
  Inv p segs ->
  activeBlock p = Some (ActiveAgentRun i r hs lnw) ->
  activeBlock p' = Some (ActiveAgentRun i r hs lnw') ->
  frozen (store p) (store p') ->
  openAt (store p') r b' -> lnw' = lastNonWs b' ->
  Inv p' segs.
Proof.
  intros [_ HS] E E' Hf Ho ->. split.
  - intros i0 r0 hs0 lnw0 E0. rewrite E' in E0. injection E0 as <- <- <- <-.
    by exists b'.
  - intros i0 r0 Hin. destruct (HS i0 r0 Hin) as [G|(hs0 & lnw0 & E0)].
    + left. by eapply goodAt_frozen.
    + right. rewrite E in E0. injection E0 as <- <- <- <-. eauto.
Qed.

Lemma Inv_run_closed p p' segs i r hs lnw :
  Inv p segs ->
  activeBlock p = Some (ActiveAgentRun i r hs lnw) ->
  activeBlock p' = None ->
  frozen (store p) (store p') ->
  goodAt (store p') r ->
  Inv p' segs.
Proof.
  intros [_ HS] E E' Hf Hg. split.
  - intros i0 r0 hs0 lnw0 E0. by rewrite E' in E0.
  - intros i0 r0 Hin. left.
    destruct (HS i0 r0 Hin) as [G|(hs0 & lnw0 & E0)].
    + by eapply goodAt_frozen.
    + rewrite E in E0. by injection E0 as <- <- <- <-.
Qed.

Ltac step_close_run b :=
  match goal with
  | |- context [closeAgentRunBlock ?r ?l ?p] =>
      let p1 := fresh "p" in
      let Hb := fresh "Hb" in
      let Ha := fresh "Ha" in
      let Hs := fresh "Hs" in
      let Hg := fresh "Hg" in
      let X := fresh "X" in
      destruct (closeAgentRunBlock_spec r l p b) as (p1 & X & Hb & Ha & Hs & Hg);
      [gsimpl | | rewrite X; gsimpl_in Hb; gsimpl_in Ha; gsimpl_in Hs; gsimpl]
  end.

Lemma consumeAgentRunBlock_spec i r hs lnw final p segs :
  Inv p segs ->
  activeBlock p = Some (ActiveAgentRun i r hs lnw) ->
  exists c p',
    consumeAgentRunBlock i r hs lnw final p = (c, p', []) /\
    Inv p' segs /\
    (c = true -> measure p' < measure p) /\
    (c = false -> final = false).
Proof.
  intros HI E. destruct (proj1 HI i r hs lnw E) as (b & Ho & ->).
  unfold consumeAgentRunBlock. gsimpl.
  destruct (indexOf (buffer p) FENCE 0) as [closeIdx|] eqn:Eidx.
  - apply indexOf_Some in Eidx. simpl in Eidx.
    destruct (0 <? closeIdx) eqn:E0; gsimpl.
    + step_close_run (b ++ slice (buffer p) 0 closeIdx).
      * by apply openAt_push.
      * by rewrite lastNonWs_app.
      * eexists _, _. split; [reflexivity|]. split_and!; [|intros _|done].
        -- eapply Inv_run_closed; eauto with frozen.
        -- unfold measure. rewrite E, Ha, Hb. unfold sliceFrom.
           rewrite length_drop. simpl. lia.
    + step_close_run b; [done|done|].
      eexists _, _. split; [reflexivity|]. split_and!; [|intros _|done].
      * eapply Inv_run_closed; eauto with frozen.
      * unfold measure. rewrite E, Ha, Hb. unfold sliceFrom.
        rewrite length_drop. simpl. lia.
  - destruct final; gsimpl.
    + destruct (0 <? length (buffer p)) eqn:E0; gsimpl.
      * destruct (isEmpty (sliceFrom (buffer p) (length (buffer p))))
          eqn:E1; gsimpl.
        -- step_close_run (b ++ slice (buffer p) 0 (length (buffer p))).
           ++ by apply openAt_push.
           ++ by rewrite lastNonWs_app.
           ++ eexists _, _. split; [reflexivity|].
              split_and!; [|intros _|done].
              ** eapply Inv_run_closed; eauto with frozen.
              ** unfold measure. rewrite E, Ha, Hb. unfold sliceFrom.
                 rewrite length_drop. simpl. lia.
        -- step_close_run ((b ++ slice (buffer p) 0 (length (buffer p)))
                             ++ sliceFrom (buffer p) (length (buffer p))).
           ++ by do 2 apply openAt_push.
           ++ by rewrite !lastNonWs_app.
           ++ eexists _, _. split; [reflexivity|].
              split_and!; [|intros _|done].
              ** eapply Inv_run_closed; eauto 6 with frozen.
              ** unfold measure. rewrite E, Ha, Hb. simpl. lia.
      * destruct (isEmpty (buffer p)) eqn:E1; gsimpl.
        -- step_close_run b; [done|done|].
           eexists _, _. split; [reflexivity|].
           split_and!; [|intros _|done].
           ++ eapply Inv_run_closed; eauto with frozen.
           ++ unfold measure. rewrite E, Ha, Hb. simpl. lia.
        -- step_close_run (b ++ buffer p).
           ++ by apply openAt_push.
           ++ by rewrite lastNonWs_app.
           ++ eexists _, _. split; [reflexivity|].
              split_and!; [|intros _|done].
              ** eapply Inv_run_closed; eauto with frozen.
              ** unfold measure. rewrite E, Ha, Hb. simpl. lia.
    + destruct (0 <? length (buffer p) - MAX_TAIL) eqn:E0; gsimpl.
      * eexists _, _. split; [reflexivity|]. split_and!; [|intros _|done].
        -- eapply Inv_run_continue; [exact HI|exact E|reflexivity| | |].
           ++ gsimpl. auto with frozen.
           ++ gsimpl. by apply openAt_push.
           ++ by rewrite lastNonWs_app.
        -- apply Nat.ltb_lt in E0. unfold measure. gsimpl. rewrite E.
           unfold sliceFrom. rewrite length_drop. lia.
      * eexists _, _. split; [reflexivity|]. split_and!; [|done|done].
        eapply Inv_run_continue; [exact HI|exact E|reflexivity| | |];
          gsimpl; eauto with frozen.
Qed.

Lemma consumeAgentDataBlock_spec r final p :
  activeBlock p = Some (ActiveAgentData r) ->
  exists c p',
    consumeAgentDataBlock r final p = (c, p', []) /\
    (activeBlock p' = None \/ activeBlock p' = activeBlock p) /\
    frozen (store p) (store p') /\
    (c = true -> measure p' < measure p) /\
    (c = false -> final = false).
Proof.
  intros E. unfold consumeAgentDataBlock. gsimpl.
  destruct (indexOf (buffer p) FENCE 0) as [closeIdx|] eqn:Eidx.
  - apply indexOf_Some in Eidx. simpl in Eidx.
    destruct (0 <? closeIdx) eqn:E0; gsimpl;
      (eexists _, _; split; [reflexivity|]); gsimpl;
      (split_and!; [by left|auto with frozen|intros _|done]);
      unfold measure; gsimpl; rewrite E; unfold sliceFrom;
      rewrite length_drop; simpl; lia.
  - destruct final; gsimpl.
    + destruct (0 <? length (buffer p)) eqn:E0; gsimpl.
      * destruct (isEmpty (sliceFrom (buffer p) (length (buffer p))));
          gsimpl; (eexists _, _; split; [reflexivity|]); gsimpl;
          (split_and!; [by left|auto 6 with frozen|intros _|done]);
          unfold measure; gsimpl; rewrite E; unfold sliceFrom;
          rewrite ?length_drop; simpl; lia.
      * destruct (isEmpty (buffer p)); gsimpl;
          (eexists _, _; split; [reflexivity|]); gsimpl;
          (split_and!; [by left|auto 6 with frozen|intros _|done]);
          unfold measure; gsimpl; rewrite E; simpl; lia.
    + destruct (0 <? length (buffer p) - MAX_TAIL) eqn:E0; gsimpl;
        (eexists _, _; split; [reflexivity|]); gsimpl;
        (split_and!; [by right|auto with frozen| |done]).
      * intros _. apply Nat.ltb_lt in E0. unfold measure. gsimpl.
        rewrite E. unfold sliceFrom. rewrite length_drop. lia.
      * done.
Qed.

Lemma consumePassthroughBlock_spec r final p :
  activeBlock p = Some (ActivePassthrough r) ->
  exists c p',
    consumePassthroughBlock r final p = (c, p', []) /\
    (activeBlock p' = None \/ activeBlock p' = activeBlock p) /\
    frozen (store p) (store p') /\
    (c = true -> measure p' < measure p) /\
    (c = false -> final = false).
Proof.
  intros E. unfold consumePassthroughBlock. gsimpl.
  destruct (indexOf (buffer p) FENCE 0) as [closeIdx|] eqn:Eidx.
  - apply indexOf_Some in Eidx. simpl in Eidx.
    destruct (0 <? closeIdx) eqn:E0; gsimpl;
      (eexists _, _; split; [reflexivity|]); gsimpl;
      (split_and!; [by left|auto with frozen|intros _|done]);
      unfold measure; gsimpl; rewrite E; unfold sliceFrom;
      rewrite length_drop; simpl; lia.
  - destruct final; gsimpl.
    + eexists _, _. split; [reflexivity|]. gsimpl.
      split_and!; [by left|auto with frozen|intros _|done].
      unfold measure. gsimpl. rewrite E. simpl. lia.
    + set (keep := _ `min` MAX_TAIL).
      destruct (length (buffer p) - keep <=? 0) eqn:E0; gsimpl;
        (eexists _, _; split; [reflexivity|]); gsimpl;
        (split_and!; [by right|auto with frozen| |done]).
      * done.
      * intros _. apply Nat.leb_gt in E0. unfold measure. gsimpl.
        rewrite E. unfold sliceFrom. rewrite length_drop. lia.
Qed.

Lemma Inv_open_run p p' segs out i hs :
  Inv p segs ->
  (forall i r hs lnw, activeBlock p <> Some (ActiveAgentRun i r hs lnw)) ->
  forall h1, frozen (store p) h1 ->
  store p' = h1 ++ [{| queue := []; closed := false |}] ->
  activeBlock p' = Some (ActiveAgentRun i (length h1) hs None) ->
  Forall notRunSegment out ->
  Inv p' ((segs ++ out) ++ [AgentRunSegment i (length h1)]).
Proof.
  intros [_ HS] Hno h1 Hf Hst Ha Hout. split.
  - intros i0 r0 hs0 lnw0 E0. rewrite Ha in E0. injection E0 as <- <- <- <-.
    exists []. split; [|done]. exists {| queue := []; closed := false |}.
    rewrite Hst. split_and!; [|reflexivity|reflexivity].
    by rewrite lookup_app_r, Nat.sub_diag.
  - intros i0 r0 Hin. apply elem_of_app in Hin as [Hin|Hin].
    + apply elem_of_app in Hin as [Hin|Hin].
      * destruct (HS i0 r0 Hin) as [G|(hs0 & lnw0 & E0)].
        -- left. eapply goodAt_frozen; [|exact G]. rewrite Hst.
           auto with frozen.
        -- by destruct (Hno i0 r0 hs0 lnw0).
      * rewrite Forall_forall in Hout. by apply Hout in Hin.
    + apply list_elem_of_singleton in Hin. injection Hin as -> ->. eauto.
Qed.

Lemma drainStep_spec final p segs :
  Inv p segs ->
  exists c p' out,
    drainStep final p = (c, p', out) /\
    Inv p' (segs ++ out) /\
    (c = true -> measure p' < measure p) /\
    (c = false -> final = true -> activeBlock p' = None).
Proof.
  intros HI. unfold drainStep. gsimpl.
  destruct (activeBlock p) as [[i r hs lnw|r|r]|] eqn:E.
  - destruct (consumeAgentRunBlock_spec i r hs lnw final p segs HI E)
      as (c & p' & X & HI' & Hm & Hf).
    unfold consumeActiveBlock. rewrite X.
    exists c, p', []. rewrite (app_nil_r segs).
    split_and!; [done|done|done|]. intros -> ->. by specialize (Hf eq_refl).
  - destruct (consumeAgentDataBlock_spec r final p E)
      as (c & p' & X & Ha & Hs & Hm & Hf).
    unfold consumeActiveBlock. rewrite X.
    exists c, p', []. split_and!; [done| |done|].
    + apply Inv_step_inactive with p; [done| |done|constructor|].
      * intros ????. by rewrite E.
      * apply activeOk_not_run. intros ????.
        destruct Ha as [-> | ->]; [done|by rewrite E].
    + intros -> ->. by specialize (Hf eq_refl).
  - destruct (consumePassthroughBlock_spec r final p E)
      as (c & p' & X & Ha & Hs & Hm & Hf).
    unfold consumeActiveBlock. rewrite X.
    exists c, p', []. split_and!; [done| |done|].
    + apply Inv_step_inactive with p; [done| |done|constructor|].
      * intros ????. by rewrite E.
      * apply activeOk_not_run. intros ????.
        destruct Ha as [-> | ->]; [done|by rewrite E].
    + intros -> ->. by specialize (Hf eq_refl).
  - assert (Hno : forall i r hs lnw,
               activeBlock p <> Some (ActiveAgentRun i r hs lnw))
      by (intros ????; by rewrite E).
    destruct (indexOf (buffer p) FENCE 0) as [fenceIdx|] eqn:Eidx.
    2:{ destruct (flushMarkdown_spec final p)
          as (p' & out & X & Hl & Ha & _ & Hs & Ho).
        rewrite X. gsimpl. exists false, p', (out ++ []).
        rewrite app_nil_r. split_and!; [done| |done|].
        - apply Inv_step_inactive with p; auto using markdown_notRun.
          apply activeOk_not_run. intros ????. by rewrite Ha, E.
        - intros _ _. by rewrite Ha. }
    apply indexOf_Some in Eidx. simpl in Eidx.
    destruct (0 <? fenceIdx) eqn:E0; gsimpl.
    { step_push. eexists _, _, _. split; [reflexivity|].
      rewrite !app_nil_r, app_nil_l. split_and!; [|intros _|done].
      - apply Inv_step_inactive with p; auto using markdown_notRun.
        apply activeOk_not_run. intros ????. by rewrite Ha, E.
      - apply Nat.ltb_lt in E0. unfold measure. rewrite Ha, Hb, E.
        unfold sliceFrom. rewrite length_drop. lia. }
    destruct (negb (startsWith (buffer p) FENCE)) eqn:E1; gsimpl.
    { step_push. eexists _, _, _. split; [reflexivity|].
      rewrite !app_nil_r. split_and!; [|intros _|done].
      - apply Inv_step_inactive with p; auto using markdown_notRun.
        apply activeOk_not_run. intros ????. gsimpl. by rewrite Ha, E.
      - unfold measure. gsimpl. rewrite Ha, E.
        unfold sliceFrom. rewrite length_drop. lia. }
    destruct (indexOf (buffer p) [LF] (length FENCE)) as [headerEnd|] eqn:Eh.
    2:{ destruct final; gsimpl.
        - step_push. step_close. eexists _, _, _. split; [reflexivity|].
          rewrite !app_nil_r. split_and!; [|done|].
          + apply Inv_step_inactive with p; auto using markdown_notRun.
            * gsimpl. eauto with frozen.
            * apply activeOk_not_run. intros ????. gsimpl.
              by rewrite Ha0, Ha, E.
          + intros _ _. gsimpl. by rewrite Ha0, Ha.
        - eexists _, _, _. split; [reflexivity|].
          rewrite !app_nil_r. split_and!; [done|done|done]. }
    apply indexOf_Some in Eh. simpl in Eh.
    set (rawHeader := stripCarriageReturn _).
    destruct (parseHeader (trim rawHeader) rawHeader) as [[hsrc|id]|]; gsimpl.
    + (* tsx agent.run *)
      step_close. unfold openBlock. gsimpl.
      eexists _, _, _. split; [reflexivity|]. gsimpl.
      rewrite !app_nil_r, !app_nil_l. split_and!; [|intros _|done].
      * replace (segs ++ [AgentRunSegment (blockIndex p0) (length (store p0))])
          with ((segs ++ []) ++
                [AgentRunSegment (blockIndex p0) (length (store p0))])
          by (by rewrite app_nil_r).
        eapply Inv_open_run with (p := p); eauto; constructor.
      * unfold measure. gsimpl. rewrite Hb, E. unfold sliceFrom.
        rewrite length_drop. lia.
    + (* json agent.data *)
      step_close. unfold openBlock. gsimpl.
      eexists _, _, _. split; [reflexivity|]. gsimpl.
      rewrite !app_nil_r, !app_nil_l. split_and!; [|intros _|done].
      * apply Inv_step_inactive with p; auto.
        -- gsimpl. auto with frozen.
        -- by repeat constructor.
        -- by apply activeOk_not_run.
      * unfold measure. gsimpl. rewrite Hb, E. unfold sliceFrom.
        rewrite length_drop. lia.
    + (* any other fence: passthrough *)
      unfold ensureMarkdownStream. gsimpl.
      destruct (markdownStream p) as [ms|]; gsimpl;
        (eexists _, _, _; split; [reflexivity|]); gsimpl;
        (split_and!; [|intros _|done]).
      * apply Inv_step_inactive with p;
          [done|done|gsimpl; auto with frozen|simpl; by repeat constructor
          |by apply activeOk_not_run].
      * unfold measure. gsimpl. unfold sliceFrom. rewrite E, length_drop. lia.
      * apply Inv_step_inactive with p;
          [done|done|gsimpl; auto with frozen|simpl; by repeat constructor
          |by apply activeOk_not_run].
      * unfold measure. gsimpl. unfold sliceFrom. rewrite E, length_drop. lia.
Qed.

Lemma drainLoop_spec fuel final p segs :
  Inv p segs -> measure p < fuel ->
  exists p' out,
    drainLoop fuel final p = (true, p', out) /\
    Inv p' (segs ++ out) /\
    (final = true -> activeBlock p' = None).
Proof.
  revert p segs. induction fuel as [|fuel IH]; intros p segs HI Hm; [lia|].
  cbn [drainLoop]. gsimpl.
  destruct (drainStep_spec final p segs HI) as (c & p1 & o1 & -> & HI1 & Hd & Hn).
  destruct c.
  - specialize (Hd eq_refl).
    destruct (IH p1 (segs ++ o1) HI1) as (p2 & o2 & -> & HI2 & Hn2); [lia|].
    exists p2, (o1 ++ o2).
    split_and!; [reflexivity|by rewrite app_assoc|done].
  - exists p1, (o1 ++ []). rewrite app_nil_r. split_and!; auto.
Qed.

Lemma drain_spec final p segs :
  Inv p segs ->
  exists p' out,
    drain final p = (true, p', out) /\
    Inv p' (segs ++ out) /\
    (final = true -> activeBlock p' = None).
Proof.
  intros HI. unfold drain. gsimpl.
  destruct (drainLoop_spec (drainFuel p) final p segs HI)
    as (p' & out & -> & HI' & Hn).
  { unfold measure, drainFuel. destruct (activeBlock p); lia. }
  by exists p', out.
Qed.

Lemma append_Inv text p segs : Inv p segs -> Inv (append text p) segs.
Proof. unfold append. intros H. destruct (isEmpty text); exact H. Qed.

Lemma parseChunks_spec chunks p segs :
  Inv p segs ->
  exists p' out,
    parseChunks chunks p = (true, p', out) /\
    Inv p' (segs ++ out) /\ activeBlock p' = None.
Proof.
  revert p segs. induction chunks as [|text rest IH]; intros p segs HI.
  - cbn [parseChunks].
    destruct (drain_spec true p segs HI) as (p' & out & -> & HI' & Hn).
    exists p', out. auto.
  - cbn [parseChunks]. gsimpl.
    destruct (drain_spec false (append text p) segs (append_Inv text p segs HI))
      as (p1 & o1 & -> & HI1 & _).
    destruct (IH p1 (segs ++ o1) HI1) as (p2 & o2 & -> & HI2 & Hn).
    exists p2, (o1 ++ o2).
    split_and!; [reflexivity|by rewrite app_assoc|done].
Qed.

Lemma Inv_newParser : Inv newParser [].
Proof. split; [by intros ????|]. intros i r Hin. by apply elem_of_nil in Hin. Qed.

(** [parse] returns for every finite list of chunks, and every code
    stream it handed out is closed and terminated by then. *)
Lemma parse_spec chunks :
  exists segs h,
    parse chunks = Some (segs, h) /\
    forall i r, AgentRunSegment i r ∈ segs -> goodAt h r.
Proof.
  unfold parse.
  destruct (parseChunks_spec chunks newParser [] Inv_newParser)
    as (p' & out & -> & [_ HS] & Hn).
  exists out, (store p'). split; [done|]. intros i r Hin.
  destruct (HS i r Hin) as [G|(hs & lnw & E)]; [done|by rewrite Hn in E].
Qed.

(** *** Chunk boundaries and leading white space *)

(** C1 (chunk-invariance), evaluated at the text [" a"]: fed as the two
    chunks [" "] and ["a"], the parser drops the white-space-only first
    chunk in [pushMarkdown] (no markdown stream is open yet) and the prose
    segment's body is ["a"]; fed as one chunk, the body is [" a"].  The
    kinds of the segments agree, their bodies do not. *)
Theorem chunk_split_changes_prose_body :
  parseObserved [js " "; js "a"] = Some [ObsMarkdown (js "a")] /\
  parseObserved [js " a"] = Some [ObsMarkdown (js " a")] /\
  concat [js " "; js "a"] = concat [js " a"].
Proof. split_and!; vm_compute; reflexivity. Qed.

(** *** The terminator of code segments *)





(** *** Block indices *)

Lemma blocksOf_app segs1 segs2 :
  blocksOf (segs1 ++ segs2) = blocksOf segs1 ++ blocksOf segs2.
Proof. apply omap_app. Qed.

Lemma blocksOf_markdown out : Forall isMarkdownSegment out -> blocksOf out = [].
Proof.
  induction 1 as [|s out Hs _ IH]; [done|]. destruct s; [|done|done].
  exact IH.
Qed.

(** What a step does to the block counter: it stays, or it advances by
    one and the step yields the segment with the old value. *)
Definition indexStep (p p' : SegmentParser) (out : list ParserSegment) : Prop :=
  (blockIndex p' = blockIndex p /\ blocksOf out = []) \/
  (blockIndex p' = S (blockIndex p) /\ blocksOf out = [blockIndex p]).

Lemma closeAgentRunBlock_index r lnw p :
  exists p', closeAgentRunBlock r lnw p = (tt, p', []) /\
             blockIndex p' = blockIndex p.
Proof.
  unfold closeAgentRunBlock.
  destruct lnw as [c|]; [destruct (negb (c =? SEMI)%N)|]; gsimpl;
    by eexists.
Qed.

Lemma consumeActiveBlock_index block final p :
  exists c p', consumeActiveBlock block final p = (c, p', []) /\
               blockIndex p' = blockIndex p.
Proof.
  destruct block as [i r hs lnw|r|r]; cbn [consumeActiveBlock].
  - unfold consumeAgentRunBlock. gsimpl.
    destruct (indexOf (buffer p) FENCE 0) as [closeIdx|].
    + destruct (0 <? closeIdx); gsimpl;
        match goal with
        | |- context [closeAgentRunBlock ?r ?l ?q] =>
            destruct (closeAgentRunBlock_index r l q) as (p1 & -> & Hi)
        end; gsimpl; by eexists _, _.
    + destruct final; gsimpl.
      * destruct (0 <? length (buffer p)); gsimpl;
          match goal with
          | |- context [isEmpty ?b] => destruct (isEmpty b)
          end; gsimpl;
          match goal with
          | |- context [closeAgentRunBlock ?r ?l ?q] =>
              destruct (closeAgentRunBlock_index r l q) as (p1 & -> & Hi)
          end; gsimpl; by eexists _, _.
      * destruct (0 <? length (buffer p) - MAX_TAIL); gsimpl;
          by eexists _, _.
  - unfold consumeAgentDataBlock. gsimpl.
    destruct (indexOf (buffer p) FENCE 0) as [closeIdx|].
    + destruct (0 <? closeIdx); gsimpl; by eexists _, _.
    + destruct final; gsimpl.
      * destruct (0 <? length (buffer p)); gsimpl;
          match goal with
          | |- context [isEmpty ?b] => destruct (isEmpty b)
          end; gsimpl; by eexists _, _.
      * destruct (0 <? length (buffer p) - MAX_TAIL); gsimpl;
          by eexists _, _.
  - unfold consumePassthroughBlock. gsimpl.
    destruct (indexOf (buffer p) FENCE 0) as [closeIdx|].
    + destruct (0 <? closeIdx); gsimpl; by eexists _, _.
    + destruct final; gsimpl; [by eexists _, _|].
      destruct (_ <=? 0); gsimpl; by eexists _, _.
Qed.

Lemma drainStep_index final p :
  exists c p' out, drainStep final p = (c, p', out) /\ indexStep p p' out.
Proof.
  unfold drainStep. gsimpl.
  destruct (activeBlock p) as [block|].
  { destruct (consumeActiveBlock_index block final p) as (c & p' & -> & Hi).
    exists c, p', []. split; [done|]. by left. }
  destruct (indexOf (buffer p) FENCE 0) as [fenceIdx|].
  2:{ destruct (flushMarkdown_spec final p)
        as (p' & out & -> & _ & _ & Hi & _ & Ho).
      gsimpl. eexists _, _, _. split; [reflexivity|]. left.
      split; [done|]. rewrite !blocksOf_app, (blocksOf_markdown out) by done.
      done. }
  destruct (0 <? fenceIdx); gsimpl.
  { step_push. eexists _, _, _. split; [reflexivity|]. left.
    split; [done|]. rewrite !blocksOf_app, (blocksOf_markdown out) by done.
    done. }
  destruct (negb (startsWith (buffer p) FENCE)); gsimpl.
  { step_push. eexists _, _, _. split; [reflexivity|]. left.
    split; [done|]. rewrite !blocksOf_app, (blocksOf_markdown out) by done.
    done. }
  destruct (indexOf (buffer p) [LF] (length FENCE)) as [headerEnd|].
  2:{ destruct final; gsimpl.
      - step_push. step_close. eexists _, _, _. split; [reflexivity|]. left.
        gsimpl. split; [congruence|].
        rewrite !blocksOf_app, (blocksOf_markdown out) by done. done.
      - eexists _, _, _. split; [reflexivity|]. by left. }
  set (rawHeader := stripCarriageReturn _).
  destruct (parseHeader (trim rawHeader) rawHeader) as [[hsrc|id]|]; gsimpl.
  - step_close. unfold openBlock. gsimpl.
    eexists _, _, _. split; [reflexivity|]. right. gsimpl.
    split; [lia|]. cbn. by rewrite Hi.
  - step_close. unfold openBlock. gsimpl.
    eexists _, _, _. split; [reflexivity|]. right. gsimpl.
    split; [lia|]. cbn. by rewrite Hi.
  - unfold ensureMarkdownStream. gsimpl.
    destruct (markdownStream p); gsimpl;
      (eexists _, _, _; split; [reflexivity|]); by left.
Qed.

Lemma indexStep_seq p p' out segs :
  blocksOf segs = seq 0 (blockIndex p) -> indexStep p p' out ->
  blocksOf (segs ++ out) = seq 0 (blockIndex p').
Proof.
  intros Hs [[E1 E2]|[E1 E2]]; rewrite blocksOf_app, Hs, E1, E2.
  - by rewrite app_nil_r.
  - by rewrite seq_S.
Qed.

Lemma drainLoop_index fuel final p segs :
  blocksOf segs = seq 0 (blockIndex p) ->
  exists c p' out,
    drainLoop fuel final p = (c, p', out) /\
    blocksOf (segs ++ out) = seq 0 (blockIndex p').
Proof.
  revert p segs. induction fuel as [|fuel IH]; intros p segs Hs.
  { eexists _, _, _. split; [reflexivity|]. by rewrite app_nil_r. }
  cbn [drainLoop]. gsimpl.
  destruct (drainStep_index final p) as (c & p1 & o1 & -> & Hi).
  pose proof (indexStep_seq p p1 o1 segs Hs Hi) as Hs1.
  destruct c.
  - destruct (IH p1 (segs ++ o1) Hs1) as (c2 & p2 & o2 & -> & Hs2).
    eexists _, _, _. split; [reflexivity|]. by rewrite app_assoc.
  - eexists _, _, _. split; [reflexivity|]. by rewrite app_nil_r.
Qed.

Lemma parseChunks_index chunks p segs :
  blocksOf segs = seq 0 (blockIndex p) ->
  exists c p' out,
    parseChunks chunks p = (c, p', out) /\
    blocksOf (segs ++ out) = seq 0 (blockIndex p').
Proof.
  revert p segs. induction chunks as [|text rest IH]; intros p segs Hs.
  - cbn [parseChunks]. unfold drain. gsimpl.
    destruct (drainLoop_index (drainFuel p) true p segs Hs)
      as (c & p' & out & -> & Hs').
    by eexists _, _, _.
  - cbn [parseChunks]. unfold drain. gsimpl.
    assert (Hs0 : blocksOf segs = seq 0 (blockIndex (append text p))).
    { unfold append. by destruct (isEmpty text). }
    destruct (drainLoop_index (drainFuel (append text p)) false
                (append text p) segs Hs0) as (c & p1 & o1 & -> & Hs1).
    destruct c.
    + destruct (IH p1 (segs ++ o1) Hs1) as (c2 & p2 & o2 & -> & Hs2).
      eexists _, _, _. split; [reflexivity|].
      rewrite <- app_assoc in Hs2. exact Hs2.
    + eexists _, _, _. split; [reflexivity|].
      cbn [app]. by rewrite app_nil_r.
Qed.

(** The indices of the code and data segments that [parse] yields are
    0, 1, 2, ... in emission order; prose segments have none. *)
Theorem block_indices_count_up chunks :
  exists segs h,
    parse chunks = Some (segs, h) /\
    blocksOf segs = seq 0 (length (blocksOf segs)).
Proof.
  destruct (parse_spec chunks) as (segs & h & E & _).
  exists segs, h. split; [done|].
  unfold parse in E.
  destruct (parseChunks_index chunks newParser [] eq_refl)
    as (c & p' & out & E' & Hs).
  rewrite E' in E. destruct c; [|done]. injection E as <- <-.
  change (blocksOf out = seq 0 (blockIndex p')) in Hs.
  rewrite Hs. by rewrite length_seq.
Qed.

(** The scenario of a fence split over three chunks: prose, one code
    segment with index 0 whose body already ends with [;] and gets no
    terminator, prose. *)
Example chunk_split_fence :
  parseObserved
    [js "A" ++ [LF] ++ js "``";
     js "`tsx agent.run" ++ [LF] ++ js "console.log('x');" ++ [LF] ++ js "`";
     js "``" ++ [LF] ++ js "Z"]
  = Some [ObsMarkdown (js "A" ++ [LF]);
          ObsAgentRun 0 (js "console.log('x');" ++ [LF]);
          ObsMarkdown ([LF] ++ js "Z")].
Proof. by vm_compute. Qed.

End ParserFacts.

(** ** The streams of the parser *)

Module StreamFacts.
Import Js Parser JsFacts ParserFacts.

Definition streamOf (s : ParserSegment) : StreamRef :=
  match s with
  | MarkdownSegment r => r
  | AgentRunSegment _ r => r
  | AgentDataSegment _ _ r => r
  end.

Definition blockStream (b : ActiveBlock) : StreamRef :=
  match b with
  | ActiveAgentRun _ r _ _ => r
  | ActiveAgentData r => r
  | ActivePassthrough r => r
  end.

(** The stream the parser pushes to, if any. *)
Definition current (p : SegmentParser) : option StreamRef :=
  match activeBlock p with
  | Some b => Some (blockStream b)
  | None => markdownStream p
  end.

Definition tokensOk (ts : TokenStream) : Prop :=
  Forall (fun t => t <> []) (queue ts).

(** A prose segment starts with a token that is not white space only. *)
Definition proseOk (h : list TokenStream) (s : ParserSegment) : Prop :=
  match s with
  | MarkdownSegment r =>
      exists ts t q,
        h !! r = Some ts /\ queue ts = t :: q /\ isWhitespaceOnly t = false
  | _ => True
  end.

Record Streams (cur : option StreamRef) (h : list TokenStream)
    (segs : list ParserSegment) : Prop := {
  st_refs : List.map streamOf segs = seq 0 (length h);
  st_open : forall r ts,
      h !! r = Some ts -> (closed ts = false <-> cur = Some r);
  st_last : forall r, cur = Some r -> S r = length h;
  st_tokens : Forall tokensOk h;
  st_prose : Forall (proseOk h) segs;
}.

Lemma closed_tsPush c ts : closed (tsPush c ts) = closed ts.
Proof. unfold tsPush. by destruct (isEmpty c || closed ts). Qed.

Lemma queue_tsPush c ts :
  exists q, queue (tsPush c ts) = queue ts ++ q /\ Forall (fun t => t <> []) q.
Proof.
  unfold tsPush. destruct c as [|a c]; cbn.
  - exists []. by rewrite app_nil_r.
  - destruct (closed ts); cbn.
    + exists []. by rewrite app_nil_r.
    + exists [a :: c]. split; [done|]. by repeat constructor.
Qed.

Lemma proseOk_alter_push h r c s :
  proseOk h s -> proseOk (alter (tsPush c) r h) s.
Proof.
  destruct s as [r'| |]; [|done|done]. intros (ts & t & q & L & Q & W).
  destruct (decide (r = r')) as [->|Hne].
  - destruct (queue_tsPush c ts) as (q' & Eq & _).
    exists (tsPush c ts), t, (q ++ q').
    rewrite list_lookup_alter_eq, L. split_and!; [done| |done].
    by rewrite Eq, Q.
  - exists ts, t, q. by rewrite list_lookup_alter_ne.
Qed.

Lemma Streams_push cur h segs r c :
  Streams cur h segs -> Streams cur (alter (tsPush c) r h) segs.
Proof.
  intros [R O L T P]. split.
  - by rewrite length_alter.
  - intros r' ts'. destruct (decide (r = r')) as [->|Hne].
    + rewrite list_lookup_alter_eq.
      destruct (h !! r') as [ts|] eqn:E; [|done]. cbn. intros [= <-].
      rewrite closed_tsPush. by apply O.
    + rewrite list_lookup_alter_ne by done. apply O.
  - intros r' E. rewrite length_alter. by apply L.
  - apply Forall_alter; [done|]. intros ts _ Hts.
    unfold tokensOk in *. destruct (queue_tsPush c ts) as (q' & -> & Hq).
    by apply Forall_app.
  - eapply Forall_impl; [exact P|]. intros s. apply proseOk_alter_push.
Qed.

Lemma proseOk_alter_close h r s :
  proseOk h s -> proseOk (alter tsClose r h) s.
Proof.
  destruct s as [r'| |]; [|done|done]. intros (ts & t & q & L & Q & W).
  destruct (decide (r = r')) as [->|Hne].
  - exists (tsClose ts), t, q.
    rewrite list_lookup_alter_eq, L. split_and!; [done| |done].
    unfold tsClose. by destruct (closed ts).
  - exists ts, t, q. by rewrite list_lookup_alter_ne.
Qed.

Lemma Streams_close h segs r :
  Streams (Some r) h segs -> Streams None (alter tsClose r h) segs.
Proof.
  intros [R O L T P]. split.
  - by rewrite length_alter.
  - intros r' ts'. destruct (decide (r = r')) as [->|Hne].
    + rewrite list_lookup_alter_eq.
      destruct (h !! r') as [ts|] eqn:E; [|done]. cbn. intros [= <-].
      unfold tsClose. destruct (closed ts) eqn:Ec; cbn; [|done].
      rewrite Ec. done.
    + rewrite list_lookup_alter_ne by done. intros E.
      specialize (O r' ts' E). split; [|done]. intros Hc.
      apply O in Hc. congruence.
  - done.
  - apply Forall_alter; [done|]. intros ts _ Hts.
    unfold tokensOk, tsClose in *. by destruct (closed ts).
  - eapply Forall_impl; [exact P|]. intros s. apply proseOk_alter_close.
Qed.

Lemma proseOk_extend h ts s : proseOk h s -> proseOk (h ++ [ts]) s.
Proof.
  destruct s as [r'| |]; [|done|done]. intros (ts' & t & q & L & Q & W).
  exists ts', t, q. split_and!; [|done|done].
  rewrite lookup_app_l; [done|]. by eapply lookup_lt_Some.
Qed.

(** A new stream, handed out with the segment [s]. *)
Lemma Streams_extend h segs ts s :
  Streams None h segs ->
  streamOf s = length h -> closed ts = false -> tokensOk ts ->
  proseOk (h ++ [ts]) s ->
  Streams (Some (length h)) (h ++ [ts]) (segs ++ [s]).
Proof.
  intros [R O L T P] Hs Hc Ht Hp. split.
  - rewrite map_app, length_app, R. cbn. rewrite Hs.
    by rewrite Nat.add_1_r, seq_S.
  - intros r ts' E. destruct (decide (r < length h)) as [Hlt|Hge].
    + rewrite lookup_app_l in E by done. specialize (O r ts' E).
      split.
      * intros Hc'. apply O in Hc'. done.
      * intros [= Hr]. lia.
    + assert (r = length h) as ->.
      { apply lookup_lt_Some in E. rewrite length_app in E. cbn in E. lia. }
      rewrite lookup_app_r, Nat.sub_diag in E by lia. cbn in E.
      injection E as <-. done.
  - intros r [= <-]. rewrite length_app. cbn. lia.
  - apply Forall_app. split; [done|by constructor].
  - apply Forall_app. split; [|by constructor].
    eapply Forall_impl; [exact P|]. intros s'. apply proseOk_extend.
Qed.

Lemma alter_last {A} (f : A -> A) (h : list A) x :
  alter f (length h) (h ++ [x]) = h ++ [f x].
Proof. induction h as [|a h IH]; [done|]. cbn. by f_equal. Qed.

Lemma isWhitespaceOnly_nonempty t : isWhitespaceOnly t = false -> t <> [].
Proof. by intros H ->. Qed.

(** Whether the markdown stream and the active block agree: the stream of
    a block that passes through is the markdown stream; no markdown stream
    is open while a code or data block is. *)
Definition modeOk (p : SegmentParser) : Prop :=
  match activeBlock p with
  | Some (ActivePassthrough r) => markdownStream p = Some r
  | Some _ => markdownStream p = None
  | None => True
  end.

Definition WF (p : SegmentParser) (segs : list ParserSegment) : Prop :=
  Streams (current p) (store p) segs /\ modeOk p.

Lemma tsPush_new text :
  text <> [] ->
  tsPush text {| queue := []; closed := false |} =
  {| queue := [text]; closed := false |}.
Proof. by destruct text. Qed.

Lemma pushMarkdown_WF text p segs :
  WF p segs -> activeBlock p = None ->
  exists p' out,
    pushMarkdown text p = (tt, p', out) /\ WF p' (segs ++ out) /\
    activeBlock p' = None /\ buffer p' = buffer p.
Proof.
  intros [HS HM] Ha. unfold pushMarkdown.
  destruct (isEmpty text) eqn:Et.
  { eexists _, _. split; [reflexivity|]. rewrite app_nil_r. by split_and!. }
  destruct p as [b bi ms ab h]. cbn in Ha. subst ab.
  unfold WF, current, modeOk in *. cbn in *.
  destruct ms as [r|]; cbn.
  - eexists _, _. split; [reflexivity|]. cbn. rewrite app_nil_r.
    split_and!; [|done..]. by apply Streams_push.
  - destruct (isWhitespaceOnly text) eqn:Ew; cbn.
    + eexists _, _. split; [reflexivity|]. cbn. rewrite app_nil_r. by split_and!.
    + eexists _, _. split; [reflexivity|]. cbn.
      split_and!; [|done..]. rewrite alter_last.
      assert (Hne : text <> []) by by apply isWhitespaceOnly_nonempty.
      rewrite tsPush_new by done.
      apply Streams_extend; [done|done|done|by repeat constructor|].
      cbn. exists {| queue := [text]; closed := false |}, text, [].
      split_and!; [|done|done].
      by rewrite lookup_app_r, Nat.sub_diag by lia.
Qed.

Lemma closeMarkdownStream_WF p segs :
  WF p segs -> activeBlock p = None ->
  exists p',
    closeMarkdownStream p = (tt, p', []) /\ WF p' segs /\
    activeBlock p' = None /\ markdownStream p' = None /\
    buffer p' = buffer p /\ blockIndex p' = blockIndex p.
Proof.
  intros [HS HM] Ha. unfold closeMarkdownStream.
  destruct p as [b bi ms ab h]. cbn in Ha. subst ab.
  unfold WF, current, modeOk in *. cbn in *.
  destruct ms as [r|]; cbn.
  - eexists. split; [reflexivity|]. cbn. split_and!; [|done..].
    by apply Streams_close.
  - eexists. split; [reflexivity|]. cbn. by split_and!.
Qed.

Ltac wf_push :=
  match goal with
  | HW : WF _ ?segs |- context [pushMarkdown ?t ?q] =>
      let p1 := fresh "p" in
      let o := fresh "out" in
      let Hw := fresh "Hw" in
      let Ha := fresh "Ha" in
      let Hb := fresh "Hb" in
      destruct (pushMarkdown_WF t q segs) as (p1 & o & -> & Hw & Ha & Hb);
      [exact HW|done|]; gsimpl_in Hb; gsimpl; clear HW; rename Hw into HW
  end.

Ltac wf_close :=
  match goal with
  | HW : WF _ ?segs |- context [closeMarkdownStream ?q] =>
      let p1 := fresh "p" in
      let Hw := fresh "Hw" in
      let Ha := fresh "Ha" in
      let Hm := fresh "Hm" in
      let Hb := fresh "Hb" in
      let Hi := fresh "Hi" in
      destruct (closeMarkdownStream_WF q segs)
        as (p1 & -> & Hw & Ha & Hm & Hb & Hi);
      [exact HW|done|]; gsimpl_in Hb; gsimpl_in Hi; gsimpl; clear HW;
      rename Hw into HW
  end.

Lemma isEmpty_true (s : jsstring) : isEmpty s = true -> s = [].
Proof. by destruct s. Qed.

(** The parser at rest: nothing buffered, no stream open. *)
Definition atRest (p : SegmentParser) : Prop :=
  buffer p = [] /\ markdownStream p = None /\ activeBlock p = None.

Ltac wf_done :=
  eexists _, _; (split; [reflexivity|]);
  repeat rewrite <- app_assoc in *; cbn [app] in *;
  repeat rewrite app_nil_r in *; unfold atRest;
  repeat match goal with
         | H : isEmpty _ = true |- _ => apply isEmpty_true in H
         end;
  split_and?; try done; try congruence;
  try (intros _; split_and?; try done; congruence).

Lemma flushMarkdown_WF final p segs :
  WF p segs -> activeBlock p = None ->
  exists p' out,
    flushMarkdown final p = (tt, p', out) /\ WF p' (segs ++ out) /\
    activeBlock p' = None /\ (final = true -> atRest p').
Proof.
  intros HW Ha. unfold flushMarkdown. gsimpl.
  destruct (isEmpty (buffer p)) eqn:Eb.
  { destruct final; gsimpl; [wf_close|]; wf_done. }
  set (keep := if final then 0 else _).
  destruct (0 <? length (buffer p) - keep) eqn:El; gsimpl.
  - change (WF (setBuffer (sliceFrom (buffer p) (length (buffer p) - keep)) p)
               segs) in HW.
    wf_push. destruct final; gsimpl.
    + destruct (isEmpty (buffer p0)) eqn:Eb0; gsimpl.
      * wf_close. wf_done.
      * wf_push. change (WF (setBuffer [] p1) ((segs ++ out) ++ out0)) in HW.
        wf_close. wf_done.
    + wf_done.
  - destruct final; gsimpl.
    + rewrite Eb. gsimpl. wf_push.
      change (WF (setBuffer [] p0) (segs ++ out)) in HW.
      wf_close. wf_done.
    + wf_done.
Qed.

Ltac streams_from HS :=
  repeat first [ exact HS | apply Streams_push | apply Streams_close ].

Lemma closeAgentRunBlock_WF r lnw p segs :
  Streams (Some r) (store p) segs -> markdownStream p = None ->
  exists p',
    closeAgentRunBlock r lnw p = (tt, p', []) /\ WF p' segs.
Proof.
  intros HS HM. unfold closeAgentRunBlock.
  destruct lnw as [c|]; [destruct (negb (c =? SEMI)%N)|]; gsimpl;
    (eexists; split; [reflexivity|]);
    unfold WF, current, modeOk; gsimpl; rewrite HM;
    (split; [|done]); streams_from HS.
Qed.

Ltac wf_close_run segs :=
  match goal with
  | |- context [closeAgentRunBlock ?r ?l ?q] =>
      let p1 := fresh "p" in
      let Hw := fresh "Hw" in
      destruct (closeAgentRunBlock_WF r l q segs) as (p1 & -> & Hw)
  end.

Lemma consumeAgentRunBlock_WF i r hs lnw final p segs :
  WF p segs -> activeBlock p = Some (ActiveAgentRun i r hs lnw) ->
  exists c p',
    consumeAgentRunBlock i r hs lnw final p = (c, p', []) /\
    WF p' segs /\ (c = false -> final = false).
Proof.
  intros [HS HM] Ha. unfold current, modeOk in *. rewrite Ha in *.
  cbn [blockStream] in HS.
  unfold consumeAgentRunBlock. gsimpl.
  destruct (indexOf (buffer p) FENCE 0) as [closeIdx|].
  - destruct (0 <? closeIdx); gsimpl.
    + wf_close_run segs; gsimpl;
        [streams_from HS|done|]. by eexists _, _.
    + wf_close_run segs; gsimpl;
        [streams_from HS|done|]. by eexists _, _.
  - destruct final; gsimpl.
    + destruct (0 <? length (buffer p)); gsimpl;
        match goal with
        | |- context [isEmpty ?b] => destruct (isEmpty b)
        end; gsimpl;
        (wf_close_run segs; gsimpl;
           [streams_from HS|done|]); by eexists _, _.
    + destruct (0 <? length (buffer p) - MAX_TAIL) eqn:E; gsimpl;
        (eexists _, _; split; [reflexivity|]); (split; [|done]);
        unfold WF, current, modeOk; gsimpl; (split; [|done]);
        streams_from HS.
Qed.

Ltac wf_leaf HS :=
  (eexists _, _; split; [reflexivity|]); (split; [|done]);
  unfold WF, current, modeOk; gsimpl;
  repeat match goal with
         | H : activeBlock _ = _ |- _ => rewrite H
         end;
  repeat match goal with
         | H : markdownStream _ = _ |- _ => rewrite H
         end;
  cbn [blockStream]; (split; [|done]); streams_from HS.

Lemma consumeAgentDataBlock_WF r final p segs :
  WF p segs -> activeBlock p = Some (ActiveAgentData r) ->
  exists c p',
    consumeAgentDataBlock r final p = (c, p', []) /\
    WF p' segs /\ (c = false -> final = false).
Proof.
  intros [HS HM] Ha. unfold current, modeOk in *. rewrite Ha in *.
  cbn [blockStream] in HS.
  unfold consumeAgentDataBlock. gsimpl.
  destruct (indexOf (buffer p) FENCE 0) as [closeIdx|].
  - destruct (0 <? closeIdx); gsimpl; wf_leaf HS.
  - destruct final; gsimpl.
    + destruct (0 <? length (buffer p)); gsimpl;
        match goal with
        | |- context [isEmpty ?b] => destruct (isEmpty b)
        end; gsimpl; wf_leaf HS.
    + destruct (0 <? length (buffer p) - MAX_TAIL); gsimpl; wf_leaf HS.
Qed.

Lemma consumePassthroughBlock_WF r final p segs :
  WF p segs -> activeBlock p = Some (ActivePassthrough r) ->
  exists c p',
    consumePassthroughBlock r final p = (c, p', []) /\
    WF p' segs /\ (c = false -> final = false).
Proof.
  intros [HS HM] Ha. unfold current, modeOk in *. rewrite Ha in *.
  cbn [blockStream] in HS.
  unfold consumePassthroughBlock. gsimpl.
  destruct (indexOf (buffer p) FENCE 0) as [closeIdx|].
  - destruct (0 <? closeIdx); gsimpl; wf_leaf HS.
  - destruct final; gsimpl; [wf_leaf HS|].
    destruct (_ <=? 0); gsimpl; wf_leaf HS.
Qed.

Lemma isEmpty_false (s : jsstring) : isEmpty s = false -> s <> [].
Proof. by destruct s. Qed.

Lemma drainStep_WF final p segs :
  WF p segs ->
  exists c p' out,
    drainStep final p = (c, p', out) /\ WF p' (segs ++ out) /\
    (final = true -> c = false -> atRest p').
Proof.
  intros HW. unfold drainStep. gsimpl.
  destruct (activeBlock p) as [block|] eqn:Ha.
  { destruct block as [i r hs lnw|r|r]; cbn [consumeActiveBlock].
    - destruct (consumeAgentRunBlock_WF i r hs lnw final p segs HW Ha)
        as (c & p' & -> & Hw & Hc).
      exists c, p', []. rewrite (app_nil_r segs). split; [done|]. split; [done|].
      intros -> ->. by specialize (Hc eq_refl).
    - destruct (consumeAgentDataBlock_WF r final p segs HW Ha)
        as (c & p' & -> & Hw & Hc).
      exists c, p', []. rewrite (app_nil_r segs). split; [done|]. split; [done|].
      intros -> ->. by specialize (Hc eq_refl).
    - destruct (consumePassthroughBlock_WF r final p segs HW Ha)
        as (c & p' & -> & Hw & Hc).
      exists c, p', []. rewrite (app_nil_r segs). split; [done|]. split; [done|].
      intros -> ->. by specialize (Hc eq_refl). }
  destruct (indexOf (buffer p) FENCE 0) as [fenceIdx|].
  2:{ destruct (flushMarkdown_WF final p segs HW Ha)
        as (p' & out & -> & Hw & _ & Hr).
      gsimpl. exists false, p', (out ++ []). rewrite app_nil_r.
      split; [done|]. split; [done|]. by intros -> _; apply Hr. }
  destruct (0 <? fenceIdx); gsimpl.
  { change (WF (setBuffer (sliceFrom (buffer p) fenceIdx) p) segs) in HW.
    wf_push. eexists _, _, _. split; [reflexivity|].
    rewrite !app_nil_r. by split. }
  destruct (negb (startsWith (buffer p) FENCE)); gsimpl.
  { wf_push. eexists _, _, _. split; [reflexivity|].
    rewrite !app_nil_r. by split. }
  destruct (indexOf (buffer p) [LF] (length FENCE)) as [headerEnd|].
  2:{ destruct final; gsimpl.
      - wf_push. change (WF (setBuffer [] p0) (segs ++ out)) in HW.
        wf_close. eexists _, _, _. split; [reflexivity|].
        rewrite !app_nil_r. split; [done|]. intros _ _.
        unfold atRest. by rewrite Hb0.
      - eexists _, _, _. split; [reflexivity|]. rewrite !app_nil_r.
        by split. }
  set (rawHeader := stripCarriageReturn _).
  change (WF (setBuffer (sliceFrom (buffer p) (headerEnd + 1)) p) segs) in HW.
  destruct (parseHeader (trim rawHeader) rawHeader) as [[hsrc|id]|]; gsimpl.
  - wf_close. unfold openBlock. gsimpl.
    eexists _, _, _. split; [reflexivity|]. split; [|done].
    destruct HW as [HS _]. unfold WF, current, modeOk in *. gsimpl.
    rewrite Ha0, Hm in HS. split; [|done]. cbn [app blockStream].
    apply Streams_extend; [done|done|done|constructor|done].
  - wf_close. unfold openBlock. gsimpl.
    eexists _, _, _. split; [reflexivity|]. split; [|done].
    destruct HW as [HS _]. unfold WF, current, modeOk in *. gsimpl.
    rewrite Ha0, Hm in HS. split; [|done]. cbn [app blockStream].
    apply Streams_extend; [done|done|done|constructor|done].
  - destruct HW as [HS _]. unfold ensureMarkdownStream. gsimpl.
    unfold current in HS. cbn [activeBlock setBuffer] in HS.
    rewrite Ha in HS. cbn [markdownStream setBuffer] in HS.
    destruct (markdownStream p) as [r|] eqn:Hm; gsimpl.
    + eexists _, _, _. split; [reflexivity|]. split; [|done].
      unfold WF, current, modeOk. gsimpl. split; [|done].
      cbn [blockStream]. rewrite app_nil_r. by apply Streams_push.
    + eexists _, _, _. split; [reflexivity|]. split; [|done].
      unfold WF, current, modeOk. gsimpl. split; [|done].
      cbn [blockStream app]. rewrite alter_last.
      rewrite tsPush_new by done.
      apply Streams_extend; [done|done|done|by repeat constructor|].
      cbn.
      exists {| queue := [FENCE ++ rawHeader ++ [LF]]; closed := false |},
             (FENCE ++ rawHeader ++ [LF]), [].
      split_and!; [|done|done].
      by rewrite lookup_app_r, Nat.sub_diag by lia.
Qed.

(** The states of a parser object in use, with the segments it has yielded
    so far: it is created, text is appended, and [drain] takes steps. *)
Inductive reachable : SegmentParser -> list ParserSegment -> Prop :=
| reach_new : reachable newParser []
| reach_append text p segs :
    reachable p segs -> reachable (append text p) segs
| reach_step final p segs c p' out :
    reachable p segs -> drainStep final p = (c, p', out) ->
    reachable p' (segs ++ out).

Lemma WF_newParser : WF newParser [].
Proof.
  split; [|done]. split; try done; constructor.
Qed.

Lemma reachable_WF p segs : reachable p segs -> WF p segs.
Proof.
  induction 1 as [|text p segs _ IH|final p segs c p' out _ IH E].
  - apply WF_newParser.
  - unfold append. by destruct (isEmpty text).
  - destruct (drainStep_WF final p segs IH) as (c' & p'' & out' & E' & Hw & _).
    rewrite E in E'. by injection E' as <- <- <-.
Qed.

Lemma drainLoop_reachable fuel final p segs c p' out :
  reachable p segs -> drainLoop fuel final p = (c, p', out) ->
  reachable p' (segs ++ out) /\ (c = true -> final = true -> atRest p').
Proof.
  revert p segs c p' out.
  induction fuel as [|fuel IH]; intros p segs c p' out Hr; cbn [drainLoop].
  { intros [= <- <- <-]. rewrite app_nil_r. by split. }
  gsimpl. destruct (drainStep final p) as [[c1 p1] o1] eqn:E1.
  pose proof (reach_step final p segs c1 p1 o1 Hr E1) as Hr1.
  destruct c1.
  - destruct (drainLoop fuel final p1) as [[c2 p2] o2] eqn:E2.
    intros [= <- <- <-]. rewrite app_assoc. by eapply IH.
  - intros [= <- <- <-]. rewrite app_nil_r. split; [done|].
    intros _ ->.
    destruct (drainStep_WF true p segs (reachable_WF _ _ Hr))
      as (c' & p'' & out' & E' & _ & Hrest).
    rewrite E1 in E'. injection E' as <- <- <-. by apply Hrest.
Qed.

Lemma parseChunks_reachable chunks p segs c p' out :
  reachable p segs -> parseChunks chunks p = (c, p', out) ->
  reachable p' (segs ++ out) /\ (c = true -> atRest p').
Proof.
  revert p segs c p' out.
  induction chunks as [|text rest IH]; intros p segs c p' out Hr;
    cbn [parseChunks]; unfold drain; gsimpl.
  - destruct (drainLoop (drainFuel p) true p) as [[c1 p1] o1] eqn:E.
    intros [= <- <- <-]. cbn [app].
    destruct (drainLoop_reachable _ _ _ _ _ _ _ Hr E) as [H1 H2].
    split; [done|]. intros ->. by apply H2.
  - destruct (drainLoop (drainFuel (append text p)) false (append text p))
      as [[c1 p1] o1] eqn:E1.
    destruct (drainLoop_reachable _ _ _ _ _ _ _ (reach_append text _ _ Hr) E1)
      as [Hr1 _].
    destruct c1.
    + destruct (parseChunks rest p1) as [[c2 p2] o2] eqn:E2.
      intros [= <- <- <-]. cbn [app]. rewrite app_assoc. by eapply IH.
    + intros [= <- <- <-]. cbn [app]. rewrite app_nil_r. by split.
Qed.

Lemma parse_reachable chunks segs h :
  parse chunks = Some (segs, h) ->
  exists p, reachable p segs /\ store p = h /\ atRest p.
Proof.
  unfold parse. destruct (parseChunks chunks newParser) as [[c p] out] eqn:E.
  destruct c; [|done]. intros [= <- <-].
  destruct (parseChunks_reachable _ _ _ _ _ _ reach_new E) as [Hr Ha].
  exists p. split_and!; [done|done|by apply Ha].
Qed.

Lemma reachable_one_open p segs :
  reachable p segs ->
  List.map streamOf segs = seq 0 (length (store p)) /\
  forall r ts,
    store p !! r = Some ts -> S r < length (store p) -> closed ts = true.
Proof.
  intros Hr. destruct (reachable_WF _ _ Hr) as [[R O L _ _] _].
  split; [done|]. intros r ts E Hlt.
  destruct (closed ts) eqn:Ec; [done|].
  apply (O r ts E) in Ec. apply L in Ec. lia.
Qed.

Lemma atRest_all_closed p segs :
  reachable p segs -> atRest p ->
  Forall (fun ts => closed ts = true) (store p).
Proof.
  intros Hr (_ & Hm & Ha). destruct (reachable_WF _ _ Hr) as [[_ O _ _ _] _].
  unfold current in O. rewrite Ha, Hm in O.
  apply Forall_lookup. intros r ts E.
  destruct (closed ts) eqn:Ec; [done|]. by apply (O r ts E) in Ec.
Qed.

Lemma isWhitespaceOnly_app a b :
  isWhitespaceOnly (a ++ b) = isWhitespaceOnly a && isWhitespaceOnly b.
Proof. apply forallb_app. Qed.

Lemma reachable_prose p segs r :
  reachable p segs -> MarkdownSegment r ∈ segs ->
  isWhitespaceOnly (readBody (store p) r) = false.
Proof.
  intros Hr Hin. destruct (reachable_WF _ _ Hr) as [[_ _ _ _ P] _].
  rewrite Forall_forall in P. destruct (P _ Hin) as (ts & t & q & E & Q & W).
  unfold readBody, body. rewrite E, Q. cbn [concat].
  by rewrite isWhitespaceOnly_app, W.
Qed.

(** At any moment, the segments yielded so far own the streams 0, 1, 2,
    ... in this order, and every stream but the newest is closed: when a
    segment is yielded, the streams of all earlier segments have ended. *)
Theorem one_stream_open_at_a_time p segs :
  reachable p segs ->
  List.map streamOf segs = seq 0 (length (store p)) /\
  forall r ts,
    store p !! r = Some ts -> S r < length (store p) -> closed ts = true.
Proof. exact (reachable_one_open p segs). Qed.

(** When [parse] ends, every segment has a stream of its own and all the
    streams are closed: each consumer reaches the end of its stream. *)
Theorem parse_closes_every_stream chunks :
  exists segs h,
    parse chunks = Some (segs, h) /\
    List.map streamOf segs = seq 0 (length h) /\
    Forall (fun ts => closed ts = true) h.
Proof.
  destruct (parse_spec chunks) as (segs & h & E & _).
  exists segs, h. split; [done|].
  destruct (parse_reachable _ _ _ E) as (p & Hr & <- & Ha).
  split; [by apply reachable_one_open|by eapply atRest_all_closed].
Qed.

(** No prose segment is blank: the body of each contains a character that
    is not white space; and no stream carries an empty token. *)
Theorem prose_is_never_blank chunks :
  exists segs h,
    parse chunks = Some (segs, h) /\
    (forall r, MarkdownSegment r ∈ segs ->
               isWhitespaceOnly (readBody h r) = false) /\
    Forall (fun ts => Forall (fun t => t <> []) (queue ts)) h.
Proof.
  destruct (parse_spec chunks) as (segs & h & E & _).
  exists segs, h. split; [done|].
  destruct (parse_reachable _ _ _ E) as (p & Hr & <- & Ha).
  split; [intros r; by apply reachable_prose|].
  by destruct (reachable_WF _ _ Hr) as [[_ _ _ T _] _].
Qed.

Lemma one_stream_open_at_a_time_witness :
  exists p segs,
    reachable p segs /\
    List.map streamOf segs = seq 0 (length (store p)) /\
    length (store p) = 2 /\
    forall r ts,
      store p !! r = Some ts -> S r < length (store p) -> closed ts = true.
Proof.
  pose (p0 := append (js "a" ++ FENCE ++ js "tsx agent.run" ++ [LF] ++ js "b")
                newParser).
  assert (H0 : reachable p0 []) by apply reach_append, reach_new.
  destruct (drainStep false p0) as [[c1 p1] o1] eqn:E1.
  pose proof (reach_step false p0 [] c1 p1 o1 H0 E1) as H1.
  destruct (drainStep false p1) as [[c2 p2] o2] eqn:E2.
  pose proof (reach_step false p1 _ c2 p2 o2 H1 E2) as H2.
  exists p2, (([] ++ o1) ++ o2).
  destruct (one_stream_open_at_a_time p2 _ H2) as [Hm Hc].
  split_and!; [done|done| |done].
  vm_compute in E1. injection E1 as <- <- <-.
  vm_compute in E2. by injection E2 as <- <- <-.
Defined.

(** *** Input that is white space only *)

Lemma blank_not_backtick c :
  isBlockSpace c || (c =? ZWSP)%N = true -> (c =? BACKTICK)%N = false.
Proof.
  unfold isBlockSpace, SPACE, TAB, LF, CR, ZWSP, BACKTICK.
  destruct (c =? 96)%N eqn:E; [|done]. apply N.eqb_eq in E. by subst.
Qed.

Lemma blank_indexOfFrom b i :
  isWhitespaceOnly b = true -> indexOfFrom FENCE b i = None.
Proof.
  revert i. induction b as [|c b IH]; intros i H; [done|].
  cbn in H. apply andb_prop in H as [Hc Hb].
  cbn [indexOfFrom]. change FENCE with [BACKTICK; BACKTICK; BACKTICK].
  cbn [startsWith]. rewrite N.eqb_sym, (blank_not_backtick c Hc). cbn.
  by apply IH.
Qed.

Lemma blank_indexOf b : isWhitespaceOnly b = true -> indexOf b FENCE 0 = None.
Proof. intros H. unfold indexOf. cbn [drop]. by apply blank_indexOfFrom. Qed.

Lemma isWhitespaceOnly_rev b : isWhitespaceOnly (rev b) = isWhitespaceOnly b.
Proof.
  unfold isWhitespaceOnly. induction b as [|c b IH]; [done|].
  cbn. rewrite forallb_app, IH. cbn. rewrite andb_true_r. apply andb_comm.
Qed.

Lemma blank_countTrailingBackticks b :
  isWhitespaceOnly b = true -> countTrailingBackticks b = 0.
Proof.
  intros H. unfold countTrailingBackticks.
  rewrite <- isWhitespaceOnly_rev in H. destruct (rev b) as [|c r]; [done|].
  cbn in H. apply andb_prop in H as [Hc _]. cbn.
  by rewrite (blank_not_backtick c Hc).
Qed.

Lemma pushMarkdown_blank text p :
  isWhitespaceOnly text = true -> markdownStream p = None ->
  pushMarkdown text p = (tt, p, []).
Proof.
  intros H Hm. unfold pushMarkdown. destruct (isEmpty text); [done|].
  gsimpl. by rewrite Hm, H.
Qed.

Lemma closeMarkdownStream_none p :
  markdownStream p = None -> closeMarkdownStream p = (tt, p, []).
Proof. intros Hm. unfold closeMarkdownStream. gsimpl. by rewrite Hm. Qed.

(** With blank text in the buffer and no stream open, a turn of the loop
    drops the text and ends the loop. *)
Lemma drainStep_blank final b i h :
  isWhitespaceOnly b = true ->
  drainStep final
    {| buffer := b; blockIndex := i; markdownStream := None;
       activeBlock := None; store := h |} =
  (false,
   {| buffer := []; blockIndex := i; markdownStream := None;
      activeBlock := None; store := h |}, []).
Proof.
  intros H. unfold drainStep. gsimpl. rewrite (blank_indexOf b H).
  unfold flushMarkdown. gsimpl.
  destruct (isEmpty b) eqn:Eb.
  { destruct b; [|done]. destruct final; [|done].
    by rewrite closeMarkdownStream_none. }
  rewrite (blank_countTrailingBackticks _ H).
  replace (length b - (if final then 0 else 0 `min` MAX_TAIL))
    with (length b) by (destruct final; cbn; lia).
  assert ((0 <? length b) = true) as -> by by destruct b.
  gsimpl. unfold slice, sliceFrom. rewrite Nat.sub_0_r, drop_0.
  rewrite firstn_all, drop_all.
  rewrite pushMarkdown_blank by done. gsimpl.
  destruct final; [|done]. gsimpl. cbn [isEmpty negb]. gsimpl.
  by rewrite closeMarkdownStream_none.
Qed.

Lemma drain_blank final b i h :
  isWhitespaceOnly b = true ->
  drain final
    {| buffer := b; blockIndex := i; markdownStream := None;
       activeBlock := None; store := h |} =
  (true,
   {| buffer := []; blockIndex := i; markdownStream := None;
      activeBlock := None; store := h |}, []).
Proof.
  intros H. unfold drain, drainFuel. gsimpl.
  replace (2 * length b + 2) with (S (2 * length b + 1)) by lia.
  cbn [drainLoop]. gsimpl. by rewrite (drainStep_blank final b i h H).
Qed.

Lemma parseChunks_blank chunks i h :
  Forall (fun text => isWhitespaceOnly text = true) chunks ->
  parseChunks chunks
    {| buffer := []; blockIndex := i; markdownStream := None;
       activeBlock := None; store := h |} =
  (true,
   {| buffer := []; blockIndex := i; markdownStream := None;
      activeBlock := None; store := h |}, []).
Proof.
  induction 1 as [|text rest Ht _ IH]; cbn [parseChunks].
  - by apply drain_blank.
  - gsimpl.
    assert (append text
              {| buffer := []; blockIndex := i; markdownStream := None;
                 activeBlock := None; store := h |} =
            {| buffer := text; blockIndex := i; markdownStream := None;
               activeBlock := None; store := h |}) as ->
      by by destruct text.
    rewrite (drain_blank false text i h Ht). by rewrite IH.
Qed.

(** Input made of spaces, tabs, line breaks and zero-width spaces only
    yields no segment, however it is chunked. *)
Theorem blank_input_yields_nothing chunks :
  Forall (fun text => isWhitespaceOnly text = true) chunks ->
  parse chunks = Some ([], []).
Proof.
  intros H. unfold parse, newParser. by rewrite (parseChunks_blank chunks 0 [] H).
Qed.

Lemma blank_input_yields_nothing_witness :
  parse [[SPACE; LF]; []; [TAB; ZWSP; CR]] = Some ([], []).
Proof.
  apply blank_input_yields_nothing. by repeat constructor.
Defined.

(** *** Fence headers *)

Lemma stripPrefixCI_self lit s : stripPrefixCI lit (lit ++ s) = Some s.
Proof.
  induction lit as [|a lit IH]; [done|]. cbn. by rewrite N.eqb_refl.
Qed.

Lemma stripPrefix_self lit s : stripPrefix lit (lit ++ s) = Some s.
Proof.
  induction lit as [|a lit IH]; [done|]. cbn. by rewrite N.eqb_refl.
Qed.

Lemma skipWs_noLead s :
  match s with c :: _ => isWhiteSpace c = false | [] => True end ->
  skipWs s = (0, s).
Proof. destruct s as [|c s]; [done|]. cbn. by intros ->. Qed.

Lemma isQuote_not_ws q : isQuote q = true -> isWhiteSpace q = false.
Proof.
  unfold isQuote, DQUOTE, SQUOTE. intros H. apply orb_prop in H as [H|H];
    apply N.eqb_eq in H; by subst.
Qed.

Lemma agent_data_header_matches q1 q2 id :
  isQuote q1 = true -> isQuote q2 = true -> id <> [] ->
  forallb (fun c => negb (isQuote c)) id = true ->
  matchAgentDataHeader
    (js "json agent.data => " ++ q1 :: id ++ [q2]) = Some id.
Proof.
  intros H1 H2 Hne Hid. unfold matchAgentDataHeader.
  change (js "json agent.data => " ++ q1 :: id ++ [q2])
    with (js "json" ++ SPACE :: js "agent.data" ++ SPACE :: js "=>"
            ++ SPACE :: q1 :: id ++ [q2]).
  rewrite stripPrefixCI_self. cbn [skipWs isWhiteSpace].
  change (isWhiteSpace SPACE) with true. cbv iota.
  change (skipWs (js "agent.data" ++ SPACE :: js "=>" ++ SPACE :: q1 :: id ++ [q2]))
    with (0, js "agent.data" ++ SPACE :: js "=>" ++ SPACE :: q1 :: id ++ [q2]).
  cbv iota beta. cbn [Nat.eqb].
  rewrite stripPrefixCI_self.
  change (skipWs (SPACE :: js "=>" ++ SPACE :: q1 :: id ++ [q2]))
    with (1, js "=>" ++ SPACE :: q1 :: id ++ [q2]).
  cbn [snd]. rewrite stripPrefix_self.
  cbn [skipWs]. change (isWhiteSpace SPACE) with true. cbv iota.
  rewrite (isQuote_not_ws q1 H1). cbn [snd]. rewrite H1. rewrite rev_app_distr. cbn [rev app].
  rewrite H2. cbn [andb].
  assert (isEmpty (rev id) = false) as ->.
  { destruct id as [|c id] using rev_ind; [done|].
    by rewrite rev_app_distr. }
  cbn [negb andb].
  assert (forallb (fun c => negb (isQuote c)) (rev id) = true) as ->.
  { rewrite forallb_forall in *. intros c Hc. apply Hid.
    by apply in_rev. }
  by rewrite rev_involutive.
Qed.

Lemma agent_data_header_sound header id :
  matchAgentDataHeader header = Some id ->
  id <> [] /\ forallb (fun c => negb (isQuote c)) id = true /\
  exists before q, header = before ++ id ++ [q] /\ isQuote q = true.
Proof.
  unfold matchAgentDataHeader.
  destruct (stripPrefixCI (js "json") header) as [r1|] eqn:E1; [|done].
  destruct (skipWs r1) as [n1 r2] eqn:E2.
  destruct (n1 =? 0); [done|].
  destruct (stripPrefixCI (js "agent.data") r2) as [r3|] eqn:E3; [|done].
  destruct (stripPrefix (js "=>") (snd (skipWs r3))) as [r4|] eqn:E4; [|done].
  destruct (snd (skipWs r4)) as [|q r5] eqn:E5; [done|].
  destruct (isQuote q) eqn:Eq; [|done].
  destruct (rev r5) as [|q' revId] eqn:E6; [done|].
  destruct (isQuote q' && negb (isEmpty revId)
            && forallb (fun c => negb (isQuote c)) revId) eqn:E7; [|done].
  intros [= <-]. apply andb_prop in E7 as [E7 Hall].
  apply andb_prop in E7 as [Hq' Hne].
  split_and!.
  - destruct revId as [|c revId]; [done|]. cbn. by destruct (rev revId).
  - rewrite forallb_forall in *. intros c Hc. apply Hall. by apply in_rev.
  - assert (Hr5 : r5 = rev revId ++ [q']).
    { rewrite <- (rev_involutive r5), E6. done. }
    (* every stage returns a suffix of its input *)
    assert (Hsuf : forall lit s r, stripPrefixCI lit s = Some r ->
                     exists pre, s = pre ++ r).
    { induction lit as [|a lit IH]; intros s r; cbn.
      - intros [= ->]. by exists [].
      - destruct s as [|b s]; [done|].
        destruct (lowerUnit a =? lowerUnit b)%N; [|done].
        intros H. apply IH in H as (pre & ->). by exists (b :: pre). }
    assert (Hsuf' : forall lit s r, stripPrefix lit s = Some r ->
                     exists pre, s = pre ++ r).
    { induction lit as [|a lit IH]; intros s r; cbn.
      - intros [= ->]. by exists [].
      - destruct s as [|b s]; [done|].
        destruct (a =? b)%N; [|done].
        intros H. apply IH in H as (pre & ->). by exists (b :: pre). }
    assert (Hws : forall s, exists pre, s = pre ++ snd (skipWs s)).
    { induction s as [|c s (pre & IH)]; [by exists []|]. cbn.
      destruct (isWhiteSpace c); [|by exists []].
      destruct (skipWs s) as [n r]. cbn in *. exists (c :: pre).
      cbn. by f_equal. }
    apply Hsuf in E1 as (p1 & ->). apply Hsuf in E3 as (p3 & E3).
    apply Hsuf' in E4 as (p4 & E4).
    destruct (Hws r1) as (w1 & Hw1). rewrite E2 in Hw1. cbn in Hw1.
    destruct (Hws r3) as (w3 & Hw3). destruct (Hws r4) as (w4 & Hw4).
    rewrite E5 in Hw4. rewrite E4 in Hw3. subst.
    exists (p1 ++ w1 ++ p3 ++ w3 ++ p4 ++ w4 ++ [q]), q'.
    split; [|done]. by rewrite <- !app_assoc.
Qed.

(** A data fence header in its plain form is recognised, with either
    quote on either side, and gives back the identifier. *)
Theorem agent_data_header_round_trip q1 q2 id :
  isQuote q1 = true -> isQuote q2 = true -> id <> [] ->
  forallb (fun c => negb (isQuote c)) id = true ->
  matchAgentDataHeader
    (js "json agent.data => " ++ q1 :: id ++ [q2]) = Some id.
Proof. exact (agent_data_header_matches q1 q2 id). Qed.

Lemma agent_data_header_round_trip_witness :
  matchAgentDataHeader
    (js "json agent.data => " ++ DQUOTE :: js "form-1" ++ [SQUOTE])
  = Some (js "form-1").
Proof.
  apply (agent_data_header_round_trip DQUOTE SQUOTE (js "form-1"));
    by vm_compute.
Defined.

(** The identifier of a data fence is never empty and holds no quote; it
    is the text between the last quote of the header and the one that
    closes it. *)
Theorem agent_data_id_is_quoted_text header id :
  matchAgentDataHeader header = Some id ->
  id <> [] /\ forallb (fun c => negb (isQuote c)) id = true /\
  exists before q, header = before ++ id ++ [q] /\ isQuote q = true.
Proof. exact (agent_data_header_sound header id). Qed.

Lemma agent_data_id_is_quoted_text_witness :
  js "a b" <> [] /\
  forallb (fun c => negb (isQuote c)) (js "a b") = true /\
  exists before q,
    js "JSON  Agent.Data=>'a b'" = before ++ js "a b" ++ [q] /\
    isQuote q = true.
Proof.
  apply (agent_data_id_is_quoted_text (js "JSON  Agent.Data=>'a b'")).
  by vm_compute.
Defined.

End StreamFacts.

(** ** Searching in a text that grows *)

Module SearchFacts.
Import Js Parser JsFacts.
(** *** Searching in a text that grows *)

Lemma startsWith_app s y pat :
  startsWith s pat = true -> startsWith (s ++ y) pat = true.
Proof.
  revert pat. induction s as [|b s IH]; intros [|a pat]; cbn; try done.
  - by destruct y.
  - intros H. apply andb_prop in H as [-> H]. cbn. by apply IH.
Qed.

Lemma startsWith_app_inside s y pat :
  length pat <= length s -> startsWith (s ++ y) pat = startsWith s pat.
Proof.
  revert pat. induction s as [|b s IH]; intros [|a pat]; cbn; try done;
    try lia.
  - by destruct y.
  - intros H. rewrite IH by lia. done.
Qed.

Lemma startsWith_nil pat : pat <> [] -> startsWith [] pat = false.
Proof. by destruct pat. Qed.

(** [indexOf] returns the first position at or after [from] where the
    pattern starts. *)
Lemma indexOfFrom_first pat s i k :
  pat <> [] ->
  indexOfFrom pat s i = Some k <->
  i <= k /\ startsWith (drop (k - i) s) pat = true /\
  forall j, j < k - i -> startsWith (drop j s) pat = false.
Proof.
  intros Hp. revert i k. induction s as [|c s IH]; intros i k;
    cbn [indexOfFrom].
  - rewrite startsWith_nil by done. split; [done|].
    intros (_ & H & _). rewrite drop_nil in H.
    by rewrite startsWith_nil in H.
  - destruct (startsWith (c :: s) pat) eqn:E.
    + split.
      * intros [= <-]. rewrite Nat.sub_diag. split_and!; [lia|done|lia].
      * intros (Hle & Hk & Hj). f_equal.
        destruct (decide (k - i = 0)) as [?|Hne]; [lia|].
        specialize (Hj 0 ltac:(lia)). rewrite drop_0 in Hj. congruence.
    + rewrite IH. split.
      * intros (Hle & Hk & Hj). split_and!; [lia| |].
        -- replace (k - i) with (S (k - S i)) by lia. done.
        -- intros [|j] Hlt; [done|]. cbn. apply Hj. lia.
      * intros (Hle & Hk & Hj).
        assert (k <> i).
        { intros ->. rewrite Nat.sub_diag, drop_0 in Hk. congruence. }
        split_and!; [lia| |].
        -- replace (k - i) with (S (k - S i)) in Hk by lia. done.
        -- intros j Hlt. apply (Hj (S j)). lia.
Qed.

Lemma indexOfFrom_none pat s i :
  pat <> [] ->
  indexOfFrom pat s i = None <->
  forall j, startsWith (drop j s) pat = false.
Proof.
  intros Hp. revert i. induction s as [|c s IH]; intros i; cbn [indexOfFrom].
  - rewrite startsWith_nil by done. split; [|done].
    intros _ j. rewrite drop_nil. by apply startsWith_nil.
  - destruct (startsWith (c :: s) pat) eqn:E.
    + split; [done|]. intros H. specialize (H 0). rewrite drop_0 in H.
      congruence.
    + rewrite IH. split.
      * intros H [|j]; [done|]. apply H.
      * intros H j. apply (H (S j)).
Qed.

Lemma indexOf_first s pat from k :
  pat <> [] ->
  indexOf s pat from = Some k <->
  from <= k /\ startsWith (drop k s) pat = true /\
  forall j, from <= j < k -> startsWith (drop j s) pat = false.
Proof.
  intros Hp. unfold indexOf. rewrite indexOfFrom_first by done.
  split; intros (Hle & Hk & Hj); (split_and!; [done| |]).
  - rewrite drop_drop in Hk. by replace (from + (k - from)) with k in Hk by lia.
  - intros j Hlt. specialize (Hj (j - from) ltac:(lia)).
    rewrite drop_drop in Hj. by replace (from + (j - from)) with j in Hj by lia.
  - rewrite drop_drop. by replace (from + (k - from)) with k by lia.
  - intros j Hlt. rewrite drop_drop. apply Hj. lia.
Qed.

Lemma indexOf_none s pat from :
  pat <> [] ->
  indexOf s pat from = None <->
  forall j, from <= j -> startsWith (drop j s) pat = false.
Proof.
  intros Hp. unfold indexOf. rewrite indexOfFrom_none by done.
  split; intros H j.
  - intros Hle. specialize (H (j - from)). rewrite drop_drop in H.
    by replace (from + (j - from)) with j in H by lia.
  - rewrite drop_drop. apply H. lia.
Qed.

Lemma startsWith_drop_app s y pat j :
  j + length pat <= length s ->
  startsWith (drop j (s ++ y)) pat = startsWith (drop j s) pat.
Proof.
  intros H. rewrite drop_app_le by lia.
  apply startsWith_app_inside. rewrite length_drop. lia.
Qed.

(** What was found stays found when text arrives. *)
Lemma indexOf_app s y pat from k :
  pat <> [] ->
  indexOf s pat from = Some k -> indexOf (s ++ y) pat from = Some k.
Proof.
  intros Hp H. pose proof H as Hb.
  destruct pat as [|a pat]; [done|]. apply indexOf_Some in Hb.
  apply indexOf_first in H as (Hle & Hk & Hj); [|done].
  apply indexOf_first; [done|]. split_and!; [done| |].
  - rewrite drop_app_le by lia. by apply startsWith_app.
  - intros j Hlt. rewrite startsWith_drop_app by (cbn; lia). by apply Hj.
Qed.

(** A pattern found after text arrived ends in the new text. *)
Lemma indexOf_app_late s y pat k :
  pat <> [] ->
  indexOf s pat 0 = None -> indexOf (s ++ y) pat 0 = Some k ->
  length s < k + length pat.
Proof.
  intros Hp Hn H. apply indexOf_first in H as (_ & Hk & _); [|done].
  destruct (decide (k + length pat <= length s)) as [Hle|]; [|lia].
  rewrite startsWith_drop_app in Hk by done.
  rewrite indexOf_none in Hn by done. rewrite Hn in Hk by lia. done.
Qed.

Lemma indexOf_drop s pat n k :
  pat <> [] -> n <= k ->
  indexOf s pat 0 = Some k -> indexOf (drop n s) pat 0 = Some (k - n).
Proof.
  intros Hp Hn H. apply indexOf_first in H as (_ & Hk & Hj); [|done].
  apply indexOf_first; [done|]. split_and!; [lia| |].
  - rewrite drop_drop. by replace (n + (k - n)) with k by lia.
  - intros j Hlt. rewrite drop_drop. apply Hj. lia.
Qed.

Lemma indexOf_drop_none s pat n :
  pat <> [] ->
  indexOf s pat 0 = None -> indexOf (drop n s) pat 0 = None.
Proof.
  intros Hp H. rewrite indexOf_none in * by done.
  intros j _. rewrite drop_drop. apply H. lia.
Qed.

Lemma indexOf_zero s pat :
  pat <> [] -> indexOf s pat 0 = Some 0 -> startsWith s pat = true.
Proof.
  intros Hp H. by apply indexOf_first in H as (_ & Hk & _).
Qed.

(** *** Trailing backticks *)

Definition ticks (n : nat) : jsstring := replicate n BACKTICK.

(** Text that does not end with a backtick. *)
Definition noTick (e : jsstring) : Prop :=
  match rev e with c :: _ => c <> BACKTICK | [] => True end.

Lemma countBackticksRev_stop x y n :
  match y with c :: _ => c <> BACKTICK | [] => True end ->
  countBackticksRev (x ++ y) n = countBackticksRev x n.
Proof.
  intros Hy. revert n.
  induction x as [|c x IH]; intros n; cbn [app countBackticksRev].
  - destruct y as [|c y]; [done|]. cbn [countBackticksRev].
    destruct (n <? MAX_TAIL); [|done].
    destruct (c =? BACKTICK)%N eqn:E; [|done].
    by apply N.eqb_eq in E.
  - destruct (n <? MAX_TAIL); [|done].
    destruct (c =? BACKTICK)%N; [|done]. apply IH.
Qed.

Lemma countTrailingBackticks_app e z :
  noTick e -> countTrailingBackticks (e ++ z) = countTrailingBackticks z.
Proof.
  intros He. unfold countTrailingBackticks.
  rewrite rev_app_distr. by apply countBackticksRev_stop.
Qed.

Lemma countBackticksRev_split x n :
  n <= MAX_TAIL ->
  exists m post,
    x = ticks m ++ post /\ countBackticksRev x n = n + m /\
    n + m <= MAX_TAIL /\
    (n + m < MAX_TAIL ->
     match post with c :: _ => c <> BACKTICK | [] => True end).
Proof.
  revert n. induction x as [|c x IH]; intros n Hn; cbn [countBackticksRev].
  - exists 0, []. split_and!; [done|lia|lia|done].
  - destruct (n <? MAX_TAIL) eqn:E.
    + apply Nat.ltb_lt in E.
      destruct (c =? BACKTICK)%N eqn:Ec.
      * apply N.eqb_eq in Ec. subst c.
        destruct (IH (n + 1)) as (m & post & -> & Hc & Hm & Hp); [lia|].
        exists (S m), post. split_and!; [done|lia|lia|].
        intros H. apply Hp. lia.
      * apply N.eqb_neq in Ec. exists 0, (c :: x).
        split_and!; [done|lia|lia|done].
    + apply Nat.ltb_ge in E. exists 0, (c :: x).
      split_and!; [done|lia|lia|lia].
Qed.

Lemma rev_ticks n : rev (ticks n) = ticks n.
Proof.
  unfold ticks. induction n as [|n IH]; [done|].
  cbn. rewrite IH. clear IH. induction n as [|n IH]; [done|].
  cbn. by rewrite IH.
Qed.

(** A text without a fence is a text that does not end with a backtick,
    followed by the (at most two) backticks the parser keeps. *)
Lemma tail_split b :
  indexOf b FENCE 0 = None ->
  exists e m,
    b = e ++ ticks m /\ m <= MAX_TAIL /\
    min (countTrailingBackticks b) MAX_TAIL = m /\ noTick e.
Proof.
  intros Hn. unfold countTrailingBackticks.
  destruct (countBackticksRev_split (rev b) 0) as (m & post & E & Hc & Hm & Hp);
    [unfold MAX_TAIL; cbn; lia|].
  exists (rev post), m.
  assert (Eb : b = rev post ++ ticks m).
  { rewrite <- (rev_involutive b), E, rev_app_distr, rev_ticks. done. }
  split_and!; [done|lia|lia|].
  unfold noTick. rewrite rev_involutive.
  destruct (decide (m < MAX_TAIL)) as [Hlt|Hge]; [by apply Hp|].
  assert (m = 2) as -> by (unfold MAX_TAIL in *; cbn in *; lia).
  destruct post as [|c post]; [done|]. intros ->.
  rewrite indexOf_none in Hn by done.
  specialize (Hn (length (rev post)) ltac:(lia)).
  rewrite Eb in Hn. cbn [rev] in Hn. rewrite <- !app_assoc in Hn.
  rewrite drop_app_length in Hn. by cbn in Hn.
Qed.

Lemma countTrailingBackticks_le z : countTrailingBackticks z <= length z.
Proof.
  unfold countTrailingBackticks.
  destruct (countBackticksRev_split (rev z) 0) as (m & post & E & -> & _);
    [unfold MAX_TAIL; cbn; lia|].
  rewrite <- length_rev, E, length_app. unfold ticks.
  rewrite length_replicate. lia.
Qed.

Lemma startsWith_FENCE_lookup s k i :
  startsWith (drop k s) FENCE = true -> i < 3 ->
  s !! (k + i) = Some BACKTICK.
Proof.
  intros H Hi. rewrite <- lookup_drop.
  destruct (drop k s) as [|a [|b [|c r]]]; cbn in H; try done;
    try (by rewrite ?andb_false_r in H).
  apply andb_prop in H as [Ha H]. apply andb_prop in H as [Hb H].
  apply andb_prop in H as [Hc _].
  apply N.eqb_eq in Ha, Hb, Hc. subst.
  destruct i as [|[|[|i]]]; [done..|lia].
Qed.

(** A fence found after text arrived does not start in what was emitted
    before. *)
Lemma fence_after_emitted e m y k :
  noTick e -> m <= MAX_TAIL ->
  indexOf (e ++ ticks m) FENCE 0 = None ->
  indexOf ((e ++ ticks m) ++ y) FENCE 0 = Some k ->
  length e <= k.
Proof.
  intros He Hm Hn H. assert (Hf : FENCE <> []) by done.
  pose proof (indexOf_app_late _ _ _ _ Hf Hn H) as Hlate.
  rewrite length_app in Hlate. unfold ticks in Hlate.
  rewrite length_replicate in Hlate. cbn in Hlate.
  destruct (decide (length e <= k)) as [|Hlt]; [done|]. exfalso.
  apply indexOf_first in H as (_ & Hk & _); [|done].
  pose proof (startsWith_FENCE_lookup _ k (length e - 1 - k) Hk) as Hl.
  unfold MAX_TAIL in Hm. cbn in Hm.
  specialize (Hl ltac:(lia)).
  replace (k + (length e - 1 - k)) with (length e - 1) in Hl by lia.
  rewrite <- app_assoc, lookup_app_l in Hl by lia.
  unfold noTick in He. destruct e as [|c e] using rev_ind; [cbn in *; lia|].
  rewrite rev_app_distr in He. cbn in He.
  rewrite length_app in Hl. cbn in Hl.
  replace (length e + 1 - 1) with (length e) in Hl by lia.
  rewrite lookup_app_r, Nat.sub_diag in Hl by lia. cbn in Hl. congruence.
Qed.
End SearchFacts.

(** ** The parser seen through the bodies of its segments

    What a consumer of [parse] reads are segments and the text of their
    streams.  The [View] keeps just that: the buffer, the block counter,
    what the parser is doing, and the segments yielded so far with the
    bodies pushed so far.  [ViewFacts.drainStep_view] shows that every
    turn of [drain] is the turn [vStep] of the view. *)

Module Bodies.
Import Js Parser.
(** The characters [isWhitespaceOnly] takes for white space. *)
Definition isBlankChar (c : N) : bool := isBlockSpace c || (c =? ZWSP)%N.

(** [text] without the white space it starts with. *)
Fixpoint dropBlank (text : jsstring) : jsstring :=
  match text with
  | c :: rest => if isBlankChar c then dropBlank rest else text
  | [] => []
  end.

(** A segment as a consumer sees it, prose without its leading white
    space. *)
Definition normalize (o : Observed) : Observed :=
  match o with
  | ObsMarkdown text => ObsMarkdown (dropBlank text)
  | _ => o
  end.

(** What the parser is doing: nothing, prose, a code block (with the last
    character that is not white space), a data block, or an unknown
    block that passes through as prose. *)
Inductive Mode :=
| MIdle
| MProse
| MRun (lnw : option N)
| MData
| MPass.

(** The parser without its streams: the segments yielded so far with
    their bodies; the last one is the segment being written when the mode
    is not [MIdle]. *)
Record View := mkView {
  vbuffer : jsstring;
  vindex : nat;
  vmode : Mode;
  vsegments : list Observed;
}.

Definition addBody (c : jsstring) (o : Observed) : Observed :=
  match o with
  | ObsMarkdown b => ObsMarkdown (b ++ c)
  | ObsAgentRun i b => ObsAgentRun i (b ++ c)
  | ObsAgentData i id b => ObsAgentData i id (b ++ c)
  end.

(** Text pushed to the segment being written. *)
Definition pushLast (c : jsstring) (segs : list Observed) : list Observed :=
  alter (addBody c) (length segs - 1) segs.

Definition vPush (c : jsstring) (v : View) : View :=
  {| vbuffer := vbuffer v; vindex := vindex v; vmode := vmode v;
     vsegments := pushLast c (vsegments v) |}.

Definition vSetBuffer (b : jsstring) (v : View) : View :=
  {| vbuffer := b; vindex := vindex v; vmode := vmode v;
     vsegments := vsegments v |}.

Definition vSetMode (m : Mode) (v : View) : View :=
  {| vbuffer := vbuffer v; vindex := vindex v; vmode := m;
     vsegments := vsegments v |}.

Definition vPushMarkdown (text : jsstring) (v : View) : View :=
  if isEmpty text then v else
  match vmode v with
  | MIdle =>
      if isWhitespaceOnly text then v
      else {| vbuffer := vbuffer v; vindex := vindex v; vmode := MProse;
              vsegments := vsegments v ++ [ObsMarkdown (dropBlank text)] |}
  | _ => vPush text v
  end.

Definition vCloseMarkdown (v : View) : View :=
  match vmode v with
  | MProse => vSetMode MIdle v
  | _ => v
  end.

Definition vFlushMarkdown (final : bool) (v : View) : View :=
  if isEmpty (vbuffer v) then (if final then vCloseMarkdown v else v)
  else
    let keep := if final then 0
                else min (countTrailingBackticks (vbuffer v)) MAX_TAIL in
    let emitLength := length (vbuffer v) - keep in
    let v1 := if 0 <? emitLength
              then vPushMarkdown (slice (vbuffer v) 0 emitLength)
                     (vSetBuffer (sliceFrom (vbuffer v) emitLength) v)
              else v in
    if final then
      vCloseMarkdown
        (if negb (isEmpty (vbuffer v1))
         then vSetBuffer [] (vPushMarkdown (vbuffer v1) v1)
         else v1)
    else v1.

Definition vCloseRun (lnw : option N) (v : View) : View :=
  vSetMode MIdle
    (match lnw with
     | Some c => if negb (c =? SEMI)%N then vPush [SEMI] v else v
     | None => v
     end).

Definition vConsumeRun (lnw : option N) (final : bool) (v : View)
  : bool * View :=
  match indexOf (vbuffer v) FENCE 0 with
  | None =>
      let emitLength := if final then length (vbuffer v)
                        else length (vbuffer v) - MAX_TAIL in
      let chunk := slice (vbuffer v) 0 emitLength in
      let lnw1 := if 0 <? emitLength then updateLastNonWhitespace lnw chunk
                  else lnw in
      let v1 := if 0 <? emitLength
                then vSetBuffer (sliceFrom (vbuffer v) emitLength)
                       (vPush chunk v)
                else v in
      if final then
        let lnw2 := if negb (isEmpty (vbuffer v1))
                    then updateLastNonWhitespace lnw1 (vbuffer v1)
                    else lnw1 in
        let v2 := if negb (isEmpty (vbuffer v1))
                  then vSetBuffer [] (vPush (vbuffer v1) v1)
                  else v1 in
        (true, vCloseRun lnw2 v2)
      else (0 <? emitLength, vSetMode (MRun lnw1) v1)
  | Some closeIdx =>
      let chunk := slice (vbuffer v) 0 closeIdx in
      let lnw1 := if 0 <? closeIdx then updateLastNonWhitespace lnw chunk
                  else lnw in
      let v1 := if 0 <? closeIdx then vPush chunk v else v in
      (true,
       vCloseRun lnw1
         (vSetBuffer (sliceFrom (vbuffer v) (closeIdx + length FENCE)) v1))
  end.

Definition vConsumeData (final : bool) (v : View) : bool * View :=
  match indexOf (vbuffer v) FENCE 0 with
  | None =>
      let emitLength := if final then length (vbuffer v)
                        else length (vbuffer v) - MAX_TAIL in
      let v1 := if 0 <? emitLength
                then vSetBuffer (sliceFrom (vbuffer v) emitLength)
                       (vPush (slice (vbuffer v) 0 emitLength) v)
                else v in
      if final then
        (true,
         vSetMode MIdle
           (if negb (isEmpty (vbuffer v1))
            then vSetBuffer [] (vPush (vbuffer v1) v1)
            else v1))
      else (0 <? emitLength, v1)
  | Some closeIdx =>
      let v1 := if 0 <? closeIdx
                then vPush (slice (vbuffer v) 0 closeIdx) v else v in
      (true,
       vSetMode MIdle
         (vSetBuffer (sliceFrom (vbuffer v) (closeIdx + length FENCE)) v1))
  end.

Definition vConsumePass (final : bool) (v : View) : bool * View :=
  match indexOf (vbuffer v) FENCE 0 with
  | None =>
      if negb final then
        let keep := min (countTrailingBackticks (vbuffer v)) MAX_TAIL in
        let emitLength := length (vbuffer v) - keep in
        if emitLength <=? 0 then (false, v)
        else (true,
              vSetBuffer (sliceFrom (vbuffer v) emitLength)
                (vPush (slice (vbuffer v) 0 emitLength) v))
      else (true, vSetMode MProse (vSetBuffer [] (vPush (vbuffer v) v)))
  | Some closeIdx =>
      let v1 := if 0 <? closeIdx
                then vPush (slice (vbuffer v) 0 closeIdx) v else v in
      (true,
       vSetMode MProse
         (vPush FENCE
            (vSetBuffer (sliceFrom (vbuffer v) (closeIdx + length FENCE))
               v1)))
  end.

Definition vOpenBlock (info : BlockInfo) (v : View) : View :=
  match info with
  | InfoAgentRun _ =>
      {| vbuffer := vbuffer v; vindex := vindex v + 1; vmode := MRun None;
         vsegments := vsegments v ++ [ObsAgentRun (vindex v) []] |}
  | InfoAgentData id =>
      {| vbuffer := vbuffer v; vindex := vindex v + 1; vmode := MData;
         vsegments := vsegments v ++ [ObsAgentData (vindex v) id []] |}
  end.

(** One turn of the loop of [drain], on the view. *)
Definition vStep (final : bool) (v : View) : bool * View :=
  match vmode v with
  | MRun lnw => vConsumeRun lnw final v
  | MData => vConsumeData final v
  | MPass => vConsumePass final v
  | MIdle | MProse =>
      match indexOf (vbuffer v) FENCE 0 with
      | None => (false, vFlushMarkdown final v)
      | Some fenceIdx =>
          if 0 <? fenceIdx then
            (true,
             vPushMarkdown (slice (vbuffer v) 0 fenceIdx)
               (vSetBuffer (sliceFrom (vbuffer v) fenceIdx) v))
          else
            match indexOf (vbuffer v) [LF] (length FENCE) with
            | None =>
                (false,
                 if final
                 then vCloseMarkdown
                        (vSetBuffer [] (vPushMarkdown (vbuffer v) v))
                 else v)
            | Some headerEnd =>
                let rawHeader :=
                  stripCarriageReturn
                    (slice (vbuffer v) (length FENCE) headerEnd) in
                let v1 :=
                  vSetBuffer (sliceFrom (vbuffer v) (headerEnd + 1)) v in
                match parseHeader (trim rawHeader) rawHeader with
                | None =>
                    (true,
                     vSetMode MPass
                       (vPushMarkdown (FENCE ++ rawHeader ++ [LF]) v1))
                | Some info => (true, vOpenBlock info (vCloseMarkdown v1))
                end
            end
      end
  end.

Definition newView : View :=
  {| vbuffer := []; vindex := 0; vmode := MIdle; vsegments := [] |}.
End Bodies.

(** ** The parser and its view *)

Module ViewFacts.
Import Js Parser JsFacts ParserFacts StreamFacts SearchFacts Bodies.
(** *** The view of a parser *)

Definition modeOf (p : SegmentParser) : Mode :=
  match activeBlock p with
  | Some (ActiveAgentRun _ _ _ lnw) => MRun lnw
  | Some (ActiveAgentData _) => MData
  | Some (ActivePassthrough _) => MPass
  | None => match markdownStream p with Some _ => MProse | None => MIdle end
  end.

Definition seen (h : list TokenStream) (segs : list ParserSegment)
  : list Observed :=
  List.map (fun s => normalize (observe h s)) segs.

Definition view (p : SegmentParser) (segs : list ParserSegment) : View :=
  {| vbuffer := buffer p; vindex := blockIndex p; vmode := modeOf p;
     vsegments := seen (store p) segs |}.

Lemma dropBlank_app t u :
  isWhitespaceOnly t = false -> dropBlank (t ++ u) = dropBlank t ++ u.
Proof.
  induction t as [|c t IH]; [done|]. cbn.
  fold (isBlankChar c). destruct (isBlankChar c); cbn; [exact IH|done].
Qed.

Lemma dropBlank_blank t u :
  isWhitespaceOnly t = true -> dropBlank (t ++ u) = dropBlank u.
Proof.
  induction t as [|c t IH]; [done|]. cbn.
  fold (isBlankChar c). destruct (isBlankChar c); cbn; [exact IH|done].
Qed.

Lemma readBody_close r h r' :
  readBody (alter tsClose r h) r' = readBody h r'.
Proof.
  unfold readBody. destruct (decide (r = r')) as [->|Hne].
  - rewrite list_lookup_alter_eq. destruct (h !! r') as [ts|]; [|done].
    cbn. unfold tsClose, body. by destruct (closed ts).
  - by rewrite list_lookup_alter_ne.
Qed.

Lemma seen_close r h segs : seen (alter tsClose r h) segs = seen h segs.
Proof.
  unfold seen. apply List.map_ext. intros s. f_equal.
  destruct s; cbn; by rewrite readBody_close.
Qed.

Lemma body_tsPush c ts :
  closed ts = false -> body (tsPush c ts) = body ts ++ c.
Proof.
  intros Hc. unfold tsPush, body. rewrite Hc.
  destruct c as [|a c]; cbn; [by rewrite app_nil_r|].
  rewrite concat_app. cbn. by rewrite app_nil_r.
Qed.

Lemma seen_below (f : TokenStream -> TokenStream) r h segs :
  Forall (fun s => streamOf s <> r) segs ->
  seen (alter f r h) segs = seen h segs.
Proof.
  unfold seen. induction 1 as [|s segs Hs _ IH]; [done|].
  cbn [List.map]. rewrite IH. f_equal.
  f_equal. destruct s; cbn in *; unfold readBody;
    by rewrite list_lookup_alter_ne.
Qed.

Lemma seen_app h segs segs' :
  seen h (segs ++ segs') = seen h segs ++ seen h segs'.
Proof. unfold seen. by rewrite map_app. Qed.

Lemma seen_extend h ts segs :
  List.map streamOf segs = seq 0 (length h) ->
  seen (h ++ [ts]) segs = seen h segs.
Proof.
  intros R.
  assert (F : Forall (fun s => streamOf s < length h) segs).
  { apply Forall_forall. intros s Hin.
    apply list_elem_of_In in Hin.
    apply (in_map streamOf) in Hin. rewrite R in Hin.
    apply in_seq in Hin. lia. }
  clear R. unfold seen. induction F as [|s segs Hs _ IH]; [done|].
  cbn [List.map]. rewrite IH.
  f_equal. f_equal. destruct s; cbn in *; unfold readBody;
    by rewrite lookup_app_l.
Qed.

Lemma pushLast_snoc c o x : pushLast c (o ++ [x]) = o ++ [addBody c x].
Proof.
  unfold pushLast. rewrite length_app. cbn.
  replace (length o + 1 - 1) with (length o) by lia. apply alter_last.
Qed.

Lemma Streams_snoc r h segs :
  Streams (Some r) h segs ->
  exists segs0 s h0 ts,
    segs = segs0 ++ [s] /\ h = h0 ++ [ts] /\ length h0 = r /\
    streamOf s = r /\ closed ts = false /\
    Forall (fun s' => streamOf s' <> r) segs0 /\ proseOk h s.
Proof.
  intros [R O L T P]. specialize (L r eq_refl).
  destruct h as [|ts h0 _] using rev_ind; [done|].
  rewrite length_app in L, R. cbn in L, R.
  assert (Hr : length h0 = r) by lia.
  replace (length h0 + 1) with (S (length h0)) in R by lia.
  rewrite seq_S in R. cbn in R.
  destruct segs as [|s segs0 _] using rev_ind;
    [by destruct (seq 0 (length h0))|].
  rewrite map_app in R. cbn in R. apply app_inj_tail in R as [R Hs].
  subst r.
  assert (Hl : (h0 ++ [ts]) !! length h0 = Some ts).
  { rewrite lookup_app_r by lia. by rewrite Nat.sub_diag. }
  exists segs0, s, h0, ts. split_and!; [done|done|done|lia| | |].
  - by apply (proj2 (O _ ts Hl)).
  - apply Forall_forall. intros s' Hin. apply list_elem_of_In in Hin.
    apply (in_map streamOf) in Hin. rewrite R in Hin.
    apply in_seq in Hin. lia.
  - apply Forall_app in P as [_ P]. by inversion P.
Qed.

(** Text pushed to the open stream is text added to the body of the last
    segment. *)
Lemma seen_push r c h segs :
  Streams (Some r) h segs ->
  seen (alter (tsPush c) r h) segs = pushLast c (seen h segs).
Proof.
  intros HS.
  destruct (Streams_snoc r h segs HS)
    as (segs0 & s & h0 & ts & -> & -> & Hr & Hs & Hc & F & P).
  rewrite !seen_app, seen_below by done. cbn [seen List.map].
  rewrite pushLast_snoc. f_equal. f_equal.
  subst r.
  assert (L : (h0 ++ [ts]) !! length h0 = Some ts).
  { rewrite lookup_app_r by lia. by rewrite Nat.sub_diag. }
  assert (B : readBody (alter (tsPush c) (length h0) (h0 ++ [ts]))
                (length h0) =
              readBody (h0 ++ [ts]) (length h0) ++ c).
  { unfold readBody. rewrite list_lookup_alter_eq, L. cbn.
    by apply body_tsPush. }
  destruct s as [r'|i r'|i id r']; cbn in Hs; subst r'; cbn;
    rewrite B; [|done|done].
  cbn in P. destruct P as (ts' & t & q & L' & Q & W).
  rewrite L in L'. injection L' as <-.
  unfold readBody. rewrite L. unfold body. rewrite Q. cbn.
  rewrite <- !app_assoc, !dropBlank_app by done. by rewrite <- app_assoc.
Qed.

Lemma readBody_new h ts : readBody (h ++ [ts]) (length h) = body ts.
Proof. unfold readBody. by rewrite lookup_app_r, Nat.sub_diag by lia. Qed.


(** *** The parser and its view take the same steps *)

Lemma pushMarkdown_view text p segs :
  WF p segs -> activeBlock p = None ->
  exists p' out,
    pushMarkdown text p = (tt, p', out) /\ WF p' (segs ++ out) /\
    activeBlock p' = None /\ buffer p' = buffer p /\
    view p' (segs ++ out) = vPushMarkdown text (view p segs).
Proof.
  intros HW Ha.
  destruct (pushMarkdown_WF text p segs HW Ha)
    as (p' & out & E & HW' & Ha' & Hb).
  exists p', out. split_and!; [done..|].
  destruct HW as [HS HM]. unfold pushMarkdown in E. unfold vPushMarkdown.
  destruct (isEmpty text) eqn:Et.
  { injection E as <- <-. by rewrite app_nil_r. }
  destruct p as [b bi ms ab h]. cbn in Ha. subst ab.
  unfold current in HS. cbn in HS.
  unfold view, modeOf.
  cbn [activeBlock markdownStream buffer blockIndex store vmode].
  destruct ms as [r|]; gsimpl_in E.
  - injection E as <- <-. rewrite app_nil_r. unfold vPush. cbn.
    f_equal. by apply seen_push.
  - destruct (isWhitespaceOnly text) eqn:Ew; gsimpl_in E.
    + injection E as <- <-. by rewrite app_nil_r.
    + injection E as <- <-. cbn. f_equal.
      rewrite alter_last, tsPush_new by (by apply isWhitespaceOnly_nonempty).
      rewrite seen_app, seen_extend by apply HS. cbn. f_equal.
      rewrite readBody_new. unfold body. cbn. by rewrite app_nil_r.
Qed.

Lemma closeMarkdownStream_view p segs :
  WF p segs -> activeBlock p = None ->
  exists p',
    closeMarkdownStream p = (tt, p', []) /\ WF p' segs /\
    activeBlock p' = None /\ markdownStream p' = None /\
    buffer p' = buffer p /\ blockIndex p' = blockIndex p /\
    view p' segs = vCloseMarkdown (view p segs).
Proof.
  intros HW Ha.
  destruct (closeMarkdownStream_WF p segs HW Ha)
    as (p' & E & HW' & Ha' & Hm & Hb & Hi).
  exists p'. split_and!; [done..|]. clear HW' Ha' Hm Hb Hi.
  unfold closeMarkdownStream in E. unfold vCloseMarkdown.
  destruct p as [b bi ms ab h]. cbn in Ha. subst ab.
  unfold view, modeOf.
  cbn [activeBlock markdownStream buffer blockIndex store vmode].
  destruct ms as [r|]; gsimpl_in E; injection E as <-; cbn; [|done].
  unfold vSetMode. cbn. f_equal. apply seen_close.
Qed.


Ltac vw_push :=
  match goal with
  | HW : WF _ ?segs |- context [pushMarkdown ?t ?q] =>
      let p1 := fresh "p" in
      let o := fresh "out" in
      let Hw := fresh "Hw" in
      let Ha := fresh "Ha" in
      let Hb := fresh "Hb" in
      let Hv := fresh "Hv" in
      destruct (pushMarkdown_view t q segs)
        as (p1 & o & -> & Hw & Ha & Hb & Hv);
      [exact HW|done|]; gsimpl_in Hb; gsimpl; clear HW; rename Hw into HW
  end.

Ltac vw_close :=
  match goal with
  | HW : WF _ ?segs |- context [closeMarkdownStream ?q] =>
      let p1 := fresh "p" in
      let Hw := fresh "Hw" in
      let Ha := fresh "Ha" in
      let Hm := fresh "Hm" in
      let Hb := fresh "Hb" in
      let Hi := fresh "Hi" in
      let Hv := fresh "Hv" in
      destruct (closeMarkdownStream_view q segs)
        as (p1 & -> & Hw & Ha & Hm & Hb & Hi & Hv);
      [exact HW|done|]; gsimpl_in Hb; gsimpl_in Hi; gsimpl; clear HW;
      rename Hw into HW
  end.

Lemma view_setBuffer b p segs :
  view (setBuffer b p) segs = vSetBuffer b (view p segs).
Proof. done. Qed.

Lemma vbuffer_vPushMarkdown t v : vbuffer (vPushMarkdown t v) = vbuffer v.
Proof.
  unfold vPushMarkdown. destruct (isEmpty t); [done|].
  destruct (vmode v); try done. by destruct (isWhitespaceOnly t).
Qed.

Lemma flushMarkdown_view final p segs :
  WF p segs -> activeBlock p = None ->
  exists p' out,
    flushMarkdown final p = (tt, p', out) /\
    view p' (segs ++ out) = vFlushMarkdown final (view p segs).
Proof.
  intros HW Ha. unfold flushMarkdown, vFlushMarkdown. gsimpl.
  cbn [vbuffer view].
  destruct (isEmpty (buffer p)) eqn:Eb.
  { destruct final; gsimpl; [vw_close|]; eexists _, _;
      (split; [reflexivity|]); by rewrite app_nil_r. }
  set (keep := if final then 0 else _).
  destruct (0 <? length (buffer p) - keep) eqn:El; gsimpl.
  - change (WF (setBuffer (sliceFrom (buffer p) (length (buffer p) - keep)) p)
               segs) in HW.
    vw_push. rewrite view_setBuffer in Hv. destruct final; gsimpl.
    + rewrite <- Hv. cbn [vbuffer view].
      destruct (isEmpty (buffer p0)) eqn:Eb0; gsimpl.
      * vw_close. eexists _, _. split; [reflexivity|].
        by rewrite !app_nil_r.
      * vw_push. change (WF (setBuffer [] p1) ((segs ++ out) ++ out0)) in HW.
        vw_close. eexists _, _. split; [reflexivity|].
        cbn [app]. by rewrite !app_nil_r, app_assoc, Hv1, view_setBuffer, Hv0.
    + eexists _, _. split; [reflexivity|]. by rewrite !app_nil_r.
  - destruct final; gsimpl.
    + rewrite Eb. gsimpl. vw_push.
      change (WF (setBuffer [] p0) (segs ++ out)) in HW.
      vw_close. eexists _, _. split; [reflexivity|].
      cbn [app vbuffer view]. rewrite Eb. cbn [negb].
      by rewrite !app_nil_r, Hv0, view_setBuffer, Hv.
    + eexists _, _. split; [reflexivity|]. by rewrite !app_nil_r.
Qed.


Ltac view_leaf HS :=
  (eexists _, _; split; [reflexivity|]);
  unfold view, modeOf, vCloseRun, vSetMode, vSetBuffer, vPush;
  gsimpl; cbn [vbuffer vindex vmode vsegments];
  rewrite ?seen_close; rewrite ?seen_push by streams_from HS;
  rewrite ?seen_close; rewrite ?seen_push by streams_from HS;
  try reflexivity.

Ltac split_lnw :=
  repeat match goal with
         | |- context [negb (?c =? SEMI)%N] => destruct (negb (c =? SEMI)%N)
         | |- context [match ?l with Some _ => _ | None => _ end] =>
             destruct l
         end; gsimpl.

Lemma consumeAgentRunBlock_view i r hs lnw final p segs :
  WF p segs -> activeBlock p = Some (ActiveAgentRun i r hs lnw) ->
  exists c p',
    consumeAgentRunBlock i r hs lnw final p = (c, p', []) /\
    vConsumeRun lnw final (view p segs) = (c, view p' segs).
Proof.
  intros [HS HM] Ha. destruct p as [b bi ms ab h]. cbn in Ha. subst ab.
  unfold current, modeOk in *. cbn in HS, HM. subst ms.
  unfold consumeAgentRunBlock, vConsumeRun, closeAgentRunBlock, view,
    vCloseRun, vSetMode, vSetBuffer, vPush.
  gsimpl. cbn [vbuffer].
  destruct (indexOf b FENCE 0) as [k|].
  - destruct (0 <? k); gsimpl.
    + destruct (updateLastNonWhitespace lnw (slice b 0 k)) as [c|];
        [destruct (negb (c =? SEMI)%N)|]; gsimpl; view_leaf HS.
    + destruct lnw as [c|];
        [destruct (negb (c =? SEMI)%N)|]; gsimpl; view_leaf HS.
  - destruct final; gsimpl.
    + destruct (0 <? length b); gsimpl; cbn [vbuffer];
        match goal with
        | |- context [isEmpty ?x] => destruct (isEmpty x)
        end; gsimpl; cbn [vbuffer]; split_lnw; view_leaf HS.
    + destruct (0 <? length b - MAX_TAIL) eqn:E; gsimpl; view_leaf HS.
Qed.


Lemma consumeAgentDataBlock_view r final p segs :
  WF p segs -> activeBlock p = Some (ActiveAgentData r) ->
  exists c p',
    consumeAgentDataBlock r final p = (c, p', []) /\
    vConsumeData final (view p segs) = (c, view p' segs).
Proof.
  intros [HS HM] Ha. destruct p as [b bi ms ab h]. cbn in Ha. subst ab.
  unfold current, modeOk in *. cbn in HS, HM. subst ms.
  unfold consumeAgentDataBlock, vConsumeData, view,
    vSetMode, vSetBuffer, vPush.
  gsimpl. cbn [vbuffer].
  destruct (indexOf b FENCE 0) as [k|].
  - destruct (0 <? k); gsimpl; view_leaf HS.
  - destruct final; gsimpl.
    + destruct (0 <? length b); gsimpl; cbn [vbuffer];
        match goal with
        | |- context [isEmpty ?x] => destruct (isEmpty x)
        end; gsimpl; cbn [vbuffer]; view_leaf HS.
    + destruct (0 <? length b - MAX_TAIL) eqn:E; gsimpl; view_leaf HS.
Qed.

Lemma consumePassthroughBlock_view r final p segs :
  WF p segs -> activeBlock p = Some (ActivePassthrough r) ->
  exists c p',
    consumePassthroughBlock r final p = (c, p', []) /\
    vConsumePass final (view p segs) = (c, view p' segs).
Proof.
  intros [HS HM] Ha. destruct p as [b bi ms ab h]. cbn in Ha. subst ab.
  unfold current, modeOk in *. cbn in HS, HM. subst ms.
  unfold consumePassthroughBlock, vConsumePass, view,
    vSetMode, vSetBuffer, vPush.
  gsimpl. cbn [vbuffer].
  destruct (indexOf b FENCE 0) as [k|].
  - destruct (0 <? k); gsimpl; view_leaf HS.
  - destruct final; gsimpl; [view_leaf HS|].
    destruct (_ <=? 0); gsimpl; view_leaf HS.
Qed.

Lemma indexOf_FENCE_zero b :
  indexOf b FENCE 0 = Some 0 -> startsWith b FENCE = true.
Proof. by apply indexOf_zero. Qed.

Lemma drainStep_view final p segs :
  WF p segs ->
  exists c p' out,
    drainStep final p = (c, p', out) /\
    vStep final (view p segs) = (c, view p' (segs ++ out)).
Proof.
  intros HW. unfold drainStep, vStep. gsimpl.
  destruct (activeBlock p) as [block|] eqn:Ha.
  { destruct block as [i r hs lnw|r|r]; cbn [consumeActiveBlock];
      cbn [vmode view]; unfold modeOf; rewrite Ha.
    - destruct (consumeAgentRunBlock_view i r hs lnw final p segs HW Ha)
        as (c & p' & -> & Hv).
      exists c, p', []. by rewrite (app_nil_r segs).
    - destruct (consumeAgentDataBlock_view r final p segs HW Ha)
        as (c & p' & -> & Hv).
      exists c, p', []. by rewrite (app_nil_r segs).
    - destruct (consumePassthroughBlock_view r final p segs HW Ha)
        as (c & p' & -> & Hv).
      exists c, p', []. by rewrite (app_nil_r segs). }
  assert (Hmode : vStep final (view p segs) =
    match indexOf (buffer p) FENCE 0 with
      | None => (false, vFlushMarkdown final (view p segs))
      | Some fenceIdx =>
          if 0 <? fenceIdx then
            (true,
             vPushMarkdown (slice (buffer p) 0 fenceIdx)
               (vSetBuffer (sliceFrom (buffer p) fenceIdx) (view p segs)))
          else
            match indexOf (buffer p) [LF] (length FENCE) with
            | None =>
                (false,
                 if final
                 then vCloseMarkdown
                        (vSetBuffer [] (vPushMarkdown (buffer p) (view p segs)))
                 else view p segs)
            | Some headerEnd =>
                let rawHeader :=
                  stripCarriageReturn
                    (slice (buffer p) (length FENCE) headerEnd) in
                let v1 :=
                  vSetBuffer (sliceFrom (buffer p) (headerEnd + 1))
                    (view p segs) in
                match parseHeader (trim rawHeader) rawHeader with
                | None =>
                    (true,
                     vSetMode MPass
                       (vPushMarkdown (FENCE ++ rawHeader ++ [LF]) v1))
                | Some info => (true, vOpenBlock info (vCloseMarkdown v1))
                end
            end
      end).
  { unfold vStep. cbn [vmode view vbuffer]. unfold modeOf. rewrite Ha.
    by destruct (markdownStream p). }
  fold (vStep final (view p segs)). rewrite Hmode. clear Hmode.
  destruct (indexOf (buffer p) FENCE 0) as [fenceIdx|] eqn:Ef.
  2:{ destruct (flushMarkdown_view final p segs HW Ha)
        as (p' & out & -> & Hv).
      gsimpl. exists false, p', (out ++ []). rewrite app_nil_r.
      by rewrite Hv. }
  destruct (0 <? fenceIdx) eqn:Ez; gsimpl.
  { change (WF (setBuffer (sliceFrom (buffer p) fenceIdx) p) segs) in HW.
    vw_push. eexists _, _, _. split; [reflexivity|].
    cbn [app]. by rewrite ?app_nil_r, Hv. }
  apply Nat.ltb_ge in Ez. assert (fenceIdx = 0) as -> by lia.
  rewrite (indexOf_FENCE_zero _ Ef). gsimpl.
  destruct (indexOf (buffer p) [LF] (length FENCE)) as [headerEnd|].
  2:{ destruct final; gsimpl.
      - vw_push. change (WF (setBuffer [] p0) (segs ++ out)) in HW.
        vw_close. eexists _, _, _. split; [reflexivity|].
        cbn [app]. by rewrite ?app_nil_r, Hv0, view_setBuffer, Hv.
      - eexists _, _, _. split; [reflexivity|]. cbn [app].
        by rewrite ?app_nil_r. }
  set (rawHeader := stripCarriageReturn _).
  change (WF (setBuffer (sliceFrom (buffer p) (headerEnd + 1)) p) segs) in HW.
  destruct (parseHeader (trim rawHeader) rawHeader) as [[hsrc|id]|]; gsimpl.
  - vw_close. unfold openBlock. gsimpl.
    eexists _, _, _. split; [reflexivity|].
    rewrite <- view_setBuffer, <- Hv. destruct HW as [[R _ _ _ _] _].
    unfold vOpenBlock, view, modeOf. gsimpl. cbn [app]. f_equal. f_equal.
    rewrite seen_app, seen_extend by done. cbn. by rewrite readBody_new.
  - vw_close. unfold openBlock. gsimpl.
    eexists _, _, _. split; [reflexivity|].
    rewrite <- view_setBuffer, <- Hv. destruct HW as [[R _ _ _ _] _].
    unfold vOpenBlock, view, modeOf. gsimpl. cbn [app]. f_equal. f_equal.
    rewrite seen_app, seen_extend by done. cbn. by rewrite readBody_new.
  - destruct HW as [HS _]. unfold ensureMarkdownStream. gsimpl.
    unfold current in HS. cbn [activeBlock setBuffer] in HS.
    rewrite Ha in HS. cbn [markdownStream setBuffer store] in HS.
    assert (Et : isEmpty (FENCE ++ rawHeader ++ [LF]) = false) by done.
    assert (Ew : isWhitespaceOnly (FENCE ++ rawHeader ++ [LF]) = false)
      by done.
    assert (Ed : dropBlank (FENCE ++ rawHeader ++ [LF]) =
                 FENCE ++ rawHeader ++ [LF]) by done.
    unfold vPushMarkdown. rewrite Et. cbn [vmode vSetBuffer view].
    unfold modeOf. rewrite Ha.
    destruct (markdownStream p) as [r|] eqn:Hm; gsimpl.
    + eexists _, _, _. split; [reflexivity|].
      unfold view, modeOf, vSetMode, vPush. gsimpl.
      cbn [app vbuffer vindex vmode vsegments]. rewrite app_nil_r.
      by rewrite seen_push.
    + rewrite Ew. eexists _, _, _. split; [reflexivity|].
      unfold view, modeOf, vSetMode. gsimpl.
      cbn [app vbuffer vindex vmode vsegments]. f_equal. f_equal.
      rewrite alter_last, tsPush_new by done.
      rewrite seen_app, seen_extend by apply HS.
      cbn [seen List.map observe normalize].
      rewrite readBody_new. unfold body. cbn [queue concat].
      by rewrite app_nil_r, Ed.
Qed.
End ViewFacts.

(** ** Chunk boundaries *)

Module ChunkFacts.
Import Js Parser JsFacts ParserFacts StreamFacts SearchFacts Bodies ViewFacts.
(** *** Text arriving while the view takes steps *)

(** [append(text)] on the view. *)
Definition feed (y : jsstring) (v : View) : View :=
  vSetBuffer (vbuffer v ++ y) v.

(** [drain(final)] on the view, run to its end. *)
Inductive drains (final : bool) : View -> View -> Prop :=
| drains_stop v v' : vStep final v = (false, v') -> drains final v v'
| drains_go v v1 v' :
    vStep final v = (true, v1) -> drains final v1 v' -> drains final v v'.

Lemma drains_det final v r1 r2 :
  drains final v r1 -> drains final v r2 -> r1 = r2.
Proof.
  induction 1 as [v v' E|v v1 v' E _ IH]; inversion 1 as [? ? E'|? ? ? E' D];
    subst; rewrite E in E'; try done.
  - by injection E'.
  - injection E' as <-. by apply IH.
Qed.

Lemma drains_same final v1 v2 r :
  vStep final v1 = vStep final v2 -> drains final v2 r -> drains final v1 r.
Proof.
  intros E. inversion 1 as [? ? E'|? ? ? E' D]; subst.
  - apply drains_stop. by rewrite E.
  - eapply drains_go; [|exact D]. by rewrite E.
Qed.

Lemma addBody_nil x : addBody [] x = x.
Proof. destruct x; cbn; by rewrite app_nil_r. Qed.

Lemma addBody_app c1 c2 x : addBody c2 (addBody c1 x) = addBody (c1 ++ c2) x.
Proof. destruct x; cbn; by rewrite app_assoc. Qed.

Lemma pushLast_nil o : pushLast [] o = o.
Proof.
  destruct o as [|x o _] using rev_ind; [done|].
  by rewrite pushLast_snoc, addBody_nil.
Qed.

Lemma pushLast_app c1 c2 o :
  pushLast c2 (pushLast c1 o) = pushLast (c1 ++ c2) o.
Proof.
  destruct o as [|x o _] using rev_ind; [done|].
  by rewrite !pushLast_snoc, addBody_app.
Qed.

Lemma update_nil l : updateLastNonWhitespace l [] = l.
Proof. by destruct l. Qed.

Lemma update_app l a b :
  updateLastNonWhitespace (updateLastNonWhitespace l a) b =
  updateLastNonWhitespace l (a ++ b).
Proof.
  unfold updateLastNonWhitespace at 1 3. rewrite lastNonWs_app.
  unfold updateLastNonWhitespace.
  by destruct (lastNonWs b), (lastNonWs a).
Qed.

(** *** Emitting a prefix of the buffer

    Every mode emits text from the front of the buffer with an operation
    [P] that adds it to the segment being written. *)

Section Emit.
Variable P : jsstring -> View -> View.
Hypothesis P_nil : forall v, P [] v = v.
Hypothesis P_app : forall c1 c2 v, P c2 (P c1 v) = P (c1 ++ c2) v.
Hypothesis P_setBuffer :
  forall c b v, P c (vSetBuffer b v) = vSetBuffer b (P c v).

Definition emit (n : nat) (v : View) : View :=
  vSetBuffer (drop n (vbuffer v)) (P (take n (vbuffer v)) v).

Lemma vSetBuffer_twice b b' v : vSetBuffer b (vSetBuffer b' v) = vSetBuffer b v.
Proof. done. Qed.

Lemma vSetBuffer_same v : vSetBuffer (vbuffer v) v = v.
Proof. by destruct v. Qed.

Lemma emit_0 v : emit 0 v = v.
Proof.
  unfold emit. rewrite take_0, drop_0, P_nil. apply vSetBuffer_same.
Qed.

Lemma vbuffer_emit n v : vbuffer (emit n v) = drop n (vbuffer v).
Proof. done. Qed.

Lemma vbuffer_feed y v : vbuffer (feed y v) = vbuffer v ++ y.
Proof. done. Qed.

(** Emitting before and after text arrives, or all at once. *)
Lemma emit_feed n k y v :
  n <= length (vbuffer v) -> n <= k ->
  emit (k - n) (feed y (emit n v)) = emit k (feed y v).
Proof.
  intros Hn Hk. unfold emit, feed. cbn [vbuffer vSetBuffer].
  rewrite !P_setBuffer, !vSetBuffer_twice, P_app. f_equal.
  - rewrite <- drop_app_le by done. rewrite drop_drop. f_equal. lia.
  - f_equal. rewrite <- (take_app_le _ y) by done.
    rewrite <- drop_app_le by done.
    rewrite take_take_drop. f_equal. lia.
Qed.

Lemma emit_feed_le k y v :
  k <= length (vbuffer v) -> emit k (feed y v) = feed y (emit k v).
Proof.
  intros Hk. rewrite <- (emit_feed k k) by done.
  by rewrite Nat.sub_diag, emit_0.
Qed.


(** *** A block being consumed, as text arrives *)

Section Block.
Variable finish : View -> View.
Variable keep : jsstring -> nat.

(** The length [drain(false)] emits from a buffer without a fence. *)
Definition ahead (b : jsstring) : nat := length b - keep b.

Hypothesis finish_feed :
  forall y w,
    length FENCE <= length (vbuffer w) -> finish (feed y w) = feed y (finish w).
Hypothesis ahead_found :
  forall b y k,
    indexOf b FENCE 0 = None -> indexOf (b ++ y) FENCE 0 = Some k ->
    ahead b <= k.
Hypothesis ahead_app :
  forall b y,
    indexOf b FENCE 0 = None -> indexOf (b ++ y) FENCE 0 = None ->
    ahead (b ++ y) = ahead b + ahead (drop (ahead b) b ++ y).

Definition blockStep (v : View) : bool * View :=
  match indexOf (vbuffer v) FENCE 0 with
  | None => (0 <? ahead (vbuffer v), emit (ahead (vbuffer v)) v)
  | Some k => (true, finish (emit k v))
  end.

Lemma ahead_le b : ahead b <= length b.
Proof. unfold ahead. lia. Qed.

Lemma FENCE_nonempty : FENCE <> [].
Proof. done. Qed.

Lemma blockStep_feed y v c v' :
  blockStep v = (c, v') ->
  blockStep (feed y v) = (true, feed y v') \/
  blockStep (feed y v) = blockStep (feed y v') /\
  v' = emit (ahead (vbuffer v)) v.
Proof.
  unfold blockStep. rewrite !vbuffer_feed.
  pose proof FENCE_nonempty as Hf. set (b := vbuffer v).
  destruct (indexOf b FENCE 0) as [k|] eqn:Ef.
  - intros [= <- <-]. left. rewrite (indexOf_app _ y _ _ _ Hf Ef).
    apply indexOf_Some in Ef. cbn in Ef. f_equal.
    rewrite emit_feed_le by (fold b; lia). apply finish_feed.
    rewrite vbuffer_emit. fold b. rewrite length_drop. cbn. lia.
  - intros [= <- <-].
    set (n := ahead b). pose proof (ahead_le b) as Hn. fold n in Hn.
    rewrite vbuffer_emit. fold b. rewrite <- (drop_app_le b y n) by done.
    destruct (indexOf (b ++ y) FENCE 0) as [k|] eqn:Ef2.
    + right. split; [|done].
      pose proof (ahead_found b y k Ef Ef2) as Hk. fold n in Hk.
      rewrite (indexOf_drop _ _ n k Hf Hk Ef2).
      by rewrite emit_feed.
    + rewrite (indexOf_drop_none _ _ n Hf Ef2).
      rewrite (ahead_app b y Ef Ef2). fold n.
      rewrite <- (drop_app_le b y n) by done.
      set (n' := ahead (drop n (b ++ y))).
      assert (Ee : emit n' (feed y (emit n v)) = emit (n + n') (feed y v)).
      { rewrite <- (emit_feed n (n + n')) by (fold b; lia).
        f_equal. lia. }
      rewrite Ee. destruct (0 <? n') eqn:E'.
      * right. split; [|done]. f_equal.
        apply Nat.ltb_lt in E'. apply Nat.ltb_lt. lia.
      * apply Nat.ltb_ge in E'. assert (n' = 0) as Hz by lia.
        destruct (0 <? n + n') eqn:E2.
        -- left. f_equal. rewrite Hz, Nat.add_0_r.
           by rewrite emit_feed_le.
        -- by right.
Qed.

End Block.


(** *** Prose being written, as text arrives *)

Section Prose.
Variable keep : jsstring -> nat.
Variable header : View -> bool * View.

Hypothesis ahead_found :
  forall b y k,
    indexOf b FENCE 0 = None -> indexOf (b ++ y) FENCE 0 = Some k ->
    ahead keep b <= k.
Hypothesis ahead_app :
  forall b y,
    indexOf b FENCE 0 = None -> indexOf (b ++ y) FENCE 0 = None ->
    ahead keep (b ++ y) =
    ahead keep b + ahead keep (drop (ahead keep b) b ++ y).
Hypothesis header_feed :
  forall y v c v',
    header v = (c, v') -> header (feed y v) = (true, feed y v') \/ v' = v.

Definition proseStep (v : View) : bool * View :=
  match indexOf (vbuffer v) FENCE 0 with
  | None => (false, emit (ahead keep (vbuffer v)) v)
  | Some k => if 0 <? k then (true, emit k v) else header v
  end.

Lemma proseStep_feed y v c v' :
  proseStep v = (c, v') ->
  proseStep (feed y v) = (true, feed y v') \/
  proseStep (feed y v) = proseStep (feed y v') /\
  (v' = v \/ v' = emit (ahead keep (vbuffer v)) v).
Proof.
  unfold proseStep. rewrite !vbuffer_feed.
  pose proof FENCE_nonempty as Hf. set (b := vbuffer v).
  destruct (indexOf b FENCE 0) as [k|] eqn:Ef.
  - rewrite (indexOf_app _ y _ _ _ Hf Ef).
    pose proof (indexOf_Some _ _ _ _ _ Ef) as Hk. cbn in Hk.
    destruct (0 <? k) eqn:Ez.
    + intros [= <- <-]. left. f_equal.
      by rewrite emit_feed_le by (fold b; lia).
    + intros Hh. destruct (header_feed y v c v' Hh) as [->| ->]; [by left|].
      right. split; [|by left]. fold b.
      by rewrite (indexOf_app _ y _ _ _ Hf Ef), Ez.
  - intros [= <- <-].
    set (n := ahead keep b). pose proof (ahead_le keep b) as Hn. fold n in Hn.
    rewrite vbuffer_emit. fold b. rewrite <- (drop_app_le b y n) by done.
    destruct (indexOf (b ++ y) FENCE 0) as [k|] eqn:Ef2.
    + pose proof (ahead_found b y k Ef Ef2) as Hk. fold n in Hk.
      rewrite (indexOf_drop _ _ n k Hf Hk Ef2).
      destruct (0 <? k - n) eqn:E'.
      * right. split; [|by right].
        apply Nat.ltb_lt in E'.
        replace (0 <? k) with true by (symmetry; apply Nat.ltb_lt; lia).
        by rewrite emit_feed.
      * apply Nat.ltb_ge in E'. assert (k = n) as -> by lia.
        destruct (0 <? n) eqn:E2.
        -- left. f_equal. by rewrite emit_feed_le.
        -- apply Nat.ltb_ge in E2. assert (n = 0) as Hz by lia.
           right. rewrite Hz, emit_0. by split; [|left].
    + right. split; [|by right].
      rewrite (indexOf_drop_none _ _ n Hf Ef2).
      rewrite (ahead_app b y Ef Ef2). fold n.
      rewrite <- (drop_app_le b y n) by done.
      set (n' := ahead keep (drop n (b ++ y))).
      rewrite <- (emit_feed n (n + n')) by (fold b; lia).
      do 2 f_equal. lia.
Qed.

End Prose.

End Emit.


(** *** The four modes *)

Definition pushRun (c : jsstring) (v : View) : View :=
  match vmode v with
  | MRun lnw => vSetMode (MRun (updateLastNonWhitespace lnw c)) (vPush c v)
  | _ => vPush c v
  end.

Definition finishRun (v : View) : View :=
  match vmode v with
  | MRun lnw =>
      vCloseRun lnw (vSetBuffer (drop (length FENCE) (vbuffer v)) v)
  | _ => v
  end.

Definition finishData (v : View) : View :=
  vSetMode MIdle (vSetBuffer (drop (length FENCE) (vbuffer v)) v).

Definition finishPass (v : View) : View :=
  vSetMode MProse
    (vPush FENCE (vSetBuffer (drop (length FENCE) (vbuffer v)) v)).

Definition keepBlock (b : jsstring) : nat := MAX_TAIL.

Definition keepTicks (b : jsstring) : nat :=
  min (countTrailingBackticks b) MAX_TAIL.

(** The turn of [drain(false)] at a fence that starts the buffer. *)
Definition headerStep (v : View) : bool * View :=
  match indexOf (vbuffer v) [LF] (length FENCE) with
  | None => (false, v)
  | Some headerEnd =>
      let rawHeader :=
        stripCarriageReturn (slice (vbuffer v) (length FENCE) headerEnd) in
      let v1 := vSetBuffer (sliceFrom (vbuffer v) (headerEnd + 1)) v in
      match parseHeader (trim rawHeader) rawHeader with
      | None =>
          (true,
           vSetMode MPass (vPushMarkdown (FENCE ++ rawHeader ++ [LF]) v1))
      | Some info => (true, vOpenBlock info (vCloseMarkdown v1))
      end
  end.

Lemma vPush_nil v : vPush [] v = v.
Proof. destruct v. unfold vPush. cbn. by rewrite pushLast_nil. Qed.

Lemma vPush_app c1 c2 v : vPush c2 (vPush c1 v) = vPush (c1 ++ c2) v.
Proof. unfold vPush. cbn. by rewrite pushLast_app. Qed.

Lemma vPush_setBuffer c b v :
  vPush c (vSetBuffer b v) = vSetBuffer b (vPush c v).
Proof. done. Qed.

Lemma pushRun_nil v : pushRun [] v = v.
Proof.
  unfold pushRun. destruct v as [b i [| |lnw| |] o]; cbn [vmode];
    try apply vPush_nil.
  unfold vSetMode, vPush. cbn [vbuffer vindex vmode vsegments].
  by rewrite update_nil, pushLast_nil.
Qed.

Lemma pushRun_app c1 c2 v : pushRun c2 (pushRun c1 v) = pushRun (c1 ++ c2) v.
Proof.
  unfold pushRun. destruct v as [b i [| |lnw| |] o];
    cbn [vmode vPush vSetMode];
    try apply vPush_app.
  unfold vSetMode, vPush. cbn [vbuffer vindex vmode vsegments].
  by rewrite update_app, pushLast_app.
Qed.

Lemma pushRun_setBuffer c b v :
  pushRun c (vSetBuffer b v) = vSetBuffer b (pushRun c v).
Proof. unfold pushRun. by destruct v as [b' i [| |lnw| |] o]. Qed.

Lemma vPushMarkdown_nil v : vPushMarkdown [] v = v.
Proof. done. Qed.

Lemma isEmpty_app_false (a b : jsstring) :
  isEmpty a = false -> isEmpty (a ++ b) = false.
Proof. by destruct a. Qed.

Lemma vPushMarkdown_app c1 c2 v :
  vPushMarkdown c2 (vPushMarkdown c1 v) = vPushMarkdown (c1 ++ c2) v.
Proof.
  unfold vPushMarkdown at 2 3. destruct (isEmpty c1) eqn:E1.
  { apply isEmpty_true in E1. by subst. }
  rewrite (isEmpty_app_false _ c2 E1).
  assert (Hp : forall w, vmode w <> MIdle ->
            vPushMarkdown c2 (vPush c1 w) = vPush (c1 ++ c2) w).
  { intros w Hw. unfold vPushMarkdown. destruct (isEmpty c2) eqn:E2.
    - apply isEmpty_true in E2. subst. by rewrite app_nil_r.
    - cbn [vmode vPush]. destruct (vmode w); try done; apply vPush_app. }
  destruct (vmode v) eqn:Hm; try (apply Hp; by rewrite Hm).
  rewrite isWhitespaceOnly_app.
  destruct (isWhitespaceOnly c1) eqn:W1; cbn [andb].
  - unfold vPushMarkdown. rewrite Hm.
    destruct (isEmpty c2) eqn:E2.
    { apply isEmpty_true in E2. by subst. }
    destruct (isWhitespaceOnly c2); [done|].
    by rewrite dropBlank_blank.
  - unfold vPushMarkdown. cbn [vmode].
    rewrite dropBlank_app by done.
    destruct (isEmpty c2) eqn:E2.
    { apply isEmpty_true in E2. subst. by rewrite app_nil_r. }
    unfold vPush. cbn. by rewrite pushLast_snoc.
Qed.

Lemma vPushMarkdown_setBuffer c b v :
  vPushMarkdown c (vSetBuffer b v) = vSetBuffer b (vPushMarkdown c v).
Proof.
  unfold vPushMarkdown. destruct (isEmpty c); [done|]. cbn [vmode vSetBuffer].
  destruct (vmode v); try done. by destruct (isWhitespaceOnly c).
Qed.

Lemma keepBlock_found b y k :
  indexOf b FENCE 0 = None -> indexOf (b ++ y) FENCE 0 = Some k ->
  ahead keepBlock b <= k.
Proof.
  intros Hn Hk.
  pose proof (indexOf_app_late _ _ _ _ FENCE_nonempty Hn Hk) as H.
  unfold ahead, keepBlock, MAX_TAIL. cbn in *. lia.
Qed.

Lemma keepBlock_app b y :
  indexOf b FENCE 0 = None -> indexOf (b ++ y) FENCE 0 = None ->
  ahead keepBlock (b ++ y) =
  ahead keepBlock b + ahead keepBlock (drop (ahead keepBlock b) b ++ y).
Proof.
  intros _ _. unfold ahead, keepBlock, MAX_TAIL.
  rewrite !length_app, length_drop. cbn. lia.
Qed.

Lemma length_ticks m : length (ticks m) = m.
Proof. apply length_replicate. Qed.

Lemma keepTicks_found b y k :
  indexOf b FENCE 0 = None -> indexOf (b ++ y) FENCE 0 = Some k ->
  ahead keepTicks b <= k.
Proof.
  intros Hn Hk. destruct (tail_split b Hn) as (e & m & -> & Hm & Ek & He).
  unfold ahead, keepTicks. rewrite Ek, length_app, length_ticks.
  replace (length e + m - m) with (length e) by lia.
  by eapply fence_after_emitted.
Qed.

Lemma keepTicks_le z : keepTicks z <= length z.
Proof. unfold keepTicks. pose proof (countTrailingBackticks_le z). lia. Qed.

Lemma keepTicks_app b y :
  indexOf b FENCE 0 = None -> indexOf (b ++ y) FENCE 0 = None ->
  ahead keepTicks (b ++ y) =
  ahead keepTicks b + ahead keepTicks (drop (ahead keepTicks b) b ++ y).
Proof.
  intros Hn _. destruct (tail_split b Hn) as (e & m & -> & Hm & Ek & He).
  assert (Ea : ahead keepTicks (e ++ ticks m) = length e).
  { unfold ahead, keepTicks. rewrite Ek, length_app, length_ticks. lia. }
  rewrite Ea, drop_app_length.
  unfold ahead. rewrite <- app_assoc.
  assert (Et : keepTicks (e ++ ticks m ++ y) = keepTicks (ticks m ++ y)).
  { unfold keepTicks. by rewrite countTrailingBackticks_app. }
  rewrite Et, length_app. pose proof (keepTicks_le (ticks m ++ y)). lia.
Qed.


Lemma slice_0 (b : jsstring) n : slice b 0 n = take n b.
Proof. unfold slice. by rewrite Nat.sub_0_r, drop_0. Qed.

Ltac view_norm :=
  cbn [vbuffer vindex vmode vsegments negb]; unfold sliceFrom;
  rewrite ?slice_0, ?drop_drop, ?take_0, ?drop_0, ?update_nil,
    ?pushLast_nil.

Lemma zero_ltb_false n : (0 <? n) = false -> n = 0.
Proof. intros E. apply Nat.ltb_ge in E. lia. Qed.

Lemma vStep_run lnw v :
  vmode v = MRun lnw ->
  vStep false v = blockStep pushRun finishRun keepBlock v.
Proof.
  destruct v as [b i m o]. cbn [vmode]. intros ->.
  unfold vStep, blockStep, vConsumeRun, emit, pushRun, finishRun, vCloseRun,
    ahead, keepBlock, vSetMode, vSetBuffer, vPush.
  cbn [vbuffer vindex vmode vsegments].
  destruct (indexOf b FENCE 0) as [k|].
  - destruct (0 <? k) eqn:E.
    + view_norm.
      by destruct (updateLastNonWhitespace lnw (take k b)) as [c|];
        [destruct (negb (c =? SEMI)%N)|].
    + apply zero_ltb_false in E. subst k. view_norm.
      by destruct lnw as [c|]; [destruct (negb (c =? SEMI)%N)|].
  - destruct (0 <? length b - MAX_TAIL) eqn:E; [by view_norm|].
    apply zero_ltb_false in E. rewrite E. by view_norm.
Qed.

Lemma vStep_data v :
  vmode v = MData ->
  vStep false v = blockStep vPush finishData keepBlock v.
Proof.
  destruct v as [b i m o]. cbn [vmode]. intros ->.
  unfold vStep, blockStep, vConsumeData, emit, finishData,
    ahead, keepBlock, vSetMode, vSetBuffer, vPush.
  cbn [vbuffer vindex vmode vsegments].
  destruct (indexOf b FENCE 0) as [k|].
  - destruct (0 <? k) eqn:E; [by view_norm|].
    apply zero_ltb_false in E. subst k. by view_norm.
  - destruct (0 <? length b - MAX_TAIL) eqn:E; [by view_norm|].
    apply zero_ltb_false in E. rewrite E. by view_norm.
Qed.

Lemma vStep_pass v :
  vmode v = MPass ->
  vStep false v = blockStep vPush finishPass keepTicks v.
Proof.
  destruct v as [b i m o]. cbn [vmode]. intros ->.
  unfold vStep, blockStep, vConsumePass, emit, finishPass,
    ahead, keepTicks, vSetMode, vSetBuffer, vPush.
  cbn [vbuffer vindex vmode vsegments negb].
  destruct (indexOf b FENCE 0) as [k|].
  - destruct (0 <? k) eqn:E; [by view_norm|].
    apply zero_ltb_false in E. subst k. by view_norm.
  - set (n := length b - _).
    destruct (n <=? 0) eqn:E.
    + apply Nat.leb_le in E. assert (n = 0) as -> by lia. by view_norm.
    + apply Nat.leb_gt in E.
      replace (0 <? n) with true by (symmetry; apply Nat.ltb_lt; lia).
      by view_norm.
Qed.

Definition isProse (m : Mode) : Prop := m = MIdle \/ m = MProse.

Lemma vStep_prose v :
  isProse (vmode v) ->
  vStep false v = proseStep vPushMarkdown keepTicks headerStep v.
Proof.
  intros Hm.
  assert (E : vStep false v =
    match indexOf (vbuffer v) FENCE 0 with
    | None => (false, vFlushMarkdown false v)
    | Some fenceIdx =>
        if 0 <? fenceIdx then
          (true,
           vPushMarkdown (slice (vbuffer v) 0 fenceIdx)
             (vSetBuffer (sliceFrom (vbuffer v) fenceIdx) v))
        else headerStep v
    end).
  { unfold vStep, headerStep. by destruct Hm as [-> | ->]. }
  rewrite E. unfold proseStep, emit, sliceFrom.
  destruct (indexOf (vbuffer v) FENCE 0) as [k|].
  - by rewrite slice_0, vPushMarkdown_setBuffer.
  - f_equal. unfold vFlushMarkdown, ahead, keepTicks, sliceFrom.
    rewrite slice_0, vPushMarkdown_setBuffer.
    destruct (isEmpty (vbuffer v)) eqn:Eb.
    { apply isEmpty_true in Eb. rewrite Eb. cbn [length Nat.sub drop take].
      rewrite vPushMarkdown_nil. rewrite <- Eb. by destruct v. }
    destruct (0 <? _) eqn:El; [done|].
    apply Nat.ltb_ge in El.
    set (n := length (vbuffer v) - _) in *. assert (n = 0) as -> by lia.
    rewrite take_0, drop_0, vPushMarkdown_nil. by destruct v.
Qed.

Lemma isProse_vPushMarkdown c v :
  isProse (vmode v) -> isProse (vmode (vPushMarkdown c v)).
Proof.
  unfold vPushMarkdown. destruct (isEmpty c); [done|].
  intros [E|E]; rewrite E; [|by right].
  destruct (isWhitespaceOnly c); cbn; [by left; rewrite E|by right].
Qed.

Lemma finishRun_feed y w :
  length FENCE <= length (vbuffer w) ->
  finishRun (feed y w) = feed y (finishRun w).
Proof.
  intros H. unfold finishRun, feed. destruct w as [b i m o].
  cbn [vmode vbuffer vSetBuffer] in *. destruct m; try done.
  rewrite drop_app_le by done. unfold vCloseRun.
  by destruct lnw as [c|]; [destruct (negb (c =? SEMI)%N)|].
Qed.

Lemma finishData_feed y w :
  length FENCE <= length (vbuffer w) ->
  finishData (feed y w) = feed y (finishData w).
Proof.
  intros H. unfold finishData, feed. cbn [vmode vbuffer vSetBuffer vSetMode].
  by rewrite drop_app_le.
Qed.

Lemma finishPass_feed y w :
  length FENCE <= length (vbuffer w) ->
  finishPass (feed y w) = feed y (finishPass w).
Proof.
  intros H. unfold finishPass, feed.
  cbn [vmode vbuffer vSetBuffer vSetMode vPush].
  by rewrite drop_app_le.
Qed.

Lemma feed_vPushMarkdown y c w :
  feed y (vPushMarkdown c w) = vPushMarkdown c (feed y w).
Proof.
  unfold feed. by rewrite vbuffer_vPushMarkdown, vPushMarkdown_setBuffer.
Qed.

Lemma LF_nonempty : [LF] <> [].
Proof. done. Qed.

Lemma headerStep_feed y v c v' :
  headerStep v = (c, v') ->
  headerStep (feed y v) = (true, feed y v') \/ v' = v.
Proof.
  unfold headerStep. rewrite vbuffer_feed.
  destruct (indexOf (vbuffer v) [LF] (length FENCE)) as [h|] eqn:Eh.
  2:{ intros [= <- <-]. by right. }
  intros Hs. left. rewrite (indexOf_app _ y _ _ _ LF_nonempty Eh).
  pose proof (indexOf_Some _ _ _ _ _ Eh) as [H3 Hh]. cbn in Hh.
  assert (Es : slice (vbuffer v ++ y) (length FENCE) h =
               slice (vbuffer v) (length FENCE) h).
  { unfold slice. rewrite drop_app_le by lia.
    apply take_app_le. rewrite length_drop. lia. }
  rewrite Es. unfold sliceFrom. rewrite drop_app_le by lia.
  cbv zeta in Hs |- *.
  set (raw := stripCarriageReturn _) in *.
  destruct (parseHeader (trim raw) raw) as [info|].
  - injection Hs as <- <-. f_equal. destruct v as [b i m o].
    unfold feed, vCloseMarkdown, vSetBuffer, vSetMode, vOpenBlock.
    cbn [vbuffer vindex vmode vsegments].
    by destruct m, info.
  - injection Hs as <- <-. f_equal.
    change (feed y (vSetMode MPass ?w)) with (vSetMode MPass (feed y w)).
    by rewrite feed_vPushMarkdown.
Qed.

Lemma vStep_feed_prose y v c v' :
  isProse (vmode v) ->
  vStep false v = (c, v') ->
  vStep false (feed y v) = (true, feed y v') \/
  vStep false (feed y v) = vStep false (feed y v').
Proof.
  intros Hp. pose proof (Hp : isProse (vmode (feed y v))) as Hp'.
  rewrite (vStep_prose v Hp), (vStep_prose (feed y v) Hp'). intros Hs.
  destruct (proseStep_feed vPushMarkdown vPushMarkdown_nil vPushMarkdown_app
              vPushMarkdown_setBuffer keepTicks headerStep keepTicks_found
              keepTicks_app headerStep_feed y v c v' Hs)
    as [H|[H [-> | ->]]]; [by left| |]; right.
  { symmetry. by apply vStep_prose. }
  rewrite H. symmetry. apply vStep_prose.
  unfold emit. rewrite <- vPushMarkdown_setBuffer.
  change (vmode (feed y ?w)) with (vmode w).
  by apply isProse_vPushMarkdown.
Qed.

(** A turn taken before text arrives can be taken after it arrived: it is
    the same turn, or its effect is part of the turn taken then. *)
Lemma vStep_feed y v c v' :
  vStep false v = (c, v') ->
  vStep false (feed y v) = (true, feed y v') \/
  vStep false (feed y v) = vStep false (feed y v').
Proof.
  destruct (vmode v) as [| |lnw| |] eqn:Hm.
  - apply vStep_feed_prose. by left.
  - apply vStep_feed_prose. by right.
  - pose proof (Hm : vmode (feed y v) = MRun lnw) as Hm'.
    rewrite (vStep_run lnw v Hm), (vStep_run lnw (feed y v) Hm').
    intros Hs.
    destruct (blockStep_feed pushRun pushRun_nil pushRun_app
                pushRun_setBuffer finishRun keepBlock finishRun_feed
                keepBlock_found keepBlock_app y v c v' Hs)
      as [H|[H ->]]; [by left|]. right. rewrite H. symmetry.
    eapply vStep_run. unfold emit, pushRun. by rewrite Hm.
  - pose proof (Hm : vmode (feed y v) = MData) as Hm'.
    rewrite (vStep_data v Hm), (vStep_data (feed y v) Hm').
    intros Hs.
    destruct (blockStep_feed vPush vPush_nil vPush_app
                vPush_setBuffer finishData keepBlock finishData_feed
                keepBlock_found keepBlock_app y v c v' Hs)
      as [H|[H ->]]; [by left|]. right. rewrite H. symmetry.
    by apply vStep_data.
  - pose proof (Hm : vmode (feed y v) = MPass) as Hm'.
    rewrite (vStep_pass v Hm), (vStep_pass (feed y v) Hm').
    intros Hs.
    destruct (blockStep_feed vPush vPush_nil vPush_app
                vPush_setBuffer finishPass keepTicks finishPass_feed
                keepTicks_found keepTicks_app y v c v' Hs)
      as [H|[H ->]]; [by left|]. right. rewrite H. symmetry.
    by apply vStep_pass.
Qed.

Lemma drains_feed y v r1 :
  drains false v r1 ->
  forall r, drains false (feed y r1) r -> drains false (feed y v) r.
Proof.
  induction 1 as [v v' E|v v1 v' E _ IH]; intros r Hr.
  - destruct (vStep_feed y v false v' E) as [H|H].
    + by eapply drains_go.
    + by eapply drains_same.
  - apply IH in Hr.
    destruct (vStep_feed y v true v1 E) as [H|H].
    + by eapply drains_go.
    + by eapply drains_same.
Qed.

Lemma feed_feed x y v : feed y (feed x v) = feed (x ++ y) v.
Proof. unfold feed. cbn. by rewrite app_assoc. Qed.

(** Text drained in two parts or at once. *)
Lemma drains_merge x y v r1 r2 :
  drains false (feed x v) r1 -> drains false (feed y r1) r2 ->
  drains false (feed (x ++ y) v) r2.
Proof.
  intros H1 H2. rewrite <- feed_feed. by eapply drains_feed.
Qed.

Lemma view_append text p segs :
  view (append text p) segs = feed text (view p segs).
Proof.
  unfold append, feed, view. destruct text as [|a text]; cbn; [|done].
  by rewrite app_nil_r.
Qed.

Lemma append_WF text p segs : WF p segs -> WF (append text p) segs.
Proof. unfold append. by destruct (isEmpty text). Qed.

Lemma drainLoop_drains fuel final p segs p' out :
  WF p segs -> drainLoop fuel final p = (true, p', out) ->
  drains final (view p segs) (view p' (segs ++ out)) /\ WF p' (segs ++ out).
Proof.
  revert p segs p' out.
  induction fuel as [|fuel IH]; intros p segs p' out HW; cbn [drainLoop];
    [done|]. gsimpl.
  destruct (drainStep_view final p segs HW) as (c & p1 & o1 & E & Hv).
  destruct (drainStep_WF final p segs HW) as (c' & p1' & o1' & E' & HW1 & _).
  rewrite E in E'. injection E' as <- <- <-. rewrite E.
  destruct c.
  - destruct (drainLoop fuel final p1) as [[c2 p2] o2] eqn:E2.
    intros [= -> <- <-].
    destruct (IH _ _ _ _ HW1 E2) as [Hd HW2]. rewrite app_assoc.
    split; [|done]. by eapply drains_go.
  - intros [= <- <-]. rewrite app_nil_r. split; [|done].
    by apply drains_stop.
Qed.

(** [parse(chunks)] on the view. *)
Fixpoint parses (chunks : list jsstring) (v r : View) : Prop :=
  match chunks with
  | [] => drains true v r
  | text :: rest =>
      exists v1, drains false (feed text v) v1 /\ parses rest v1 r
  end.

Lemma parseChunks_parses chunks p segs p' out :
  WF p segs -> parseChunks chunks p = (true, p', out) ->
  parses chunks (view p segs) (view p' (segs ++ out)).
Proof.
  revert p segs p' out.
  induction chunks as [|text rest IH]; intros p segs p' out HW;
    cbn [parseChunks parses]; unfold drain; gsimpl.
  - destruct (drainLoop (drainFuel p) true p) as [[c1 p1] o1] eqn:E.
    intros [= -> <- <-]. cbn [app].
    by destruct (drainLoop_drains _ _ _ _ _ _ HW E).
  - destruct (drainLoop (drainFuel (append text p)) false (append text p))
      as [[c1 p1] o1] eqn:E1.
    destruct c1.
    + destruct (drainLoop_drains _ _ _ _ _ _ (append_WF text p segs HW) E1)
        as [Hd HW1].
      destruct (parseChunks rest p1) as [[c2 p2] o2] eqn:E2.
      intros [= -> <- <-]. cbn [app]. rewrite app_assoc.
      exists (view p1 (segs ++ o1)). split.
      * by rewrite <- view_append.
      * by apply IH.
    + by intros [= <- <- <-].
Qed.

Lemma parses_det chunks v r1 r2 :
  parses chunks v r1 -> parses chunks v r2 -> r1 = r2.
Proof.
  revert v. induction chunks as [|text rest IH]; intros v; cbn [parses].
  - apply drains_det.
  - intros (v1 & H1 & P1) (v2 & H2 & P2).
    rewrite (drains_det _ _ _ _ H1 H2) in P1. by eapply IH.
Qed.

Lemma parses_concat text rest v r :
  parses (text :: rest) v r -> parses [text ++ concat rest] v r.
Proof.
  revert text v. induction rest as [|text' rest IH]; intros text v.
  - cbn [concat]. by rewrite app_nil_r.
  - intros (v1 & H1 & H2). apply IH in H2 as (v2 & H2 & H3).
    exists v2. split; [|done]. cbn [concat]. by eapply drains_merge.
Qed.

Lemma parses_nothing r1 r2 :
  parses [] newView r1 -> parses [[]] newView r2 -> r1 = r2.
Proof.
  cbn [parses]. intros H1 (v1 & H2 & H3).
  assert (Hs : drains false (feed [] newView) newView)
    by (by apply drains_stop).
  rewrite (drains_det _ _ _ _ H2 Hs) in H3. by eapply drains_det.
Qed.

(** However the text is cut into chunks, [parse] yields the same segments
    with the same bodies, up to the white space a prose segment starts
    with. *)
Theorem chunking_changes_only_leading_blanks chunks :
  exists obs obs',
    parseObserved chunks = Some obs /\
    parseObserved [concat chunks] = Some obs' /\
    List.map normalize obs = List.map normalize obs'.
Proof.
  destruct (parseChunks_spec chunks newParser [] Inv_newParser)
    as (p1 & out1 & E1 & _).
  destruct (parseChunks_spec [concat chunks] newParser [] Inv_newParser)
    as (p2 & out2 & E2 & _).
  unfold parseObserved, parse. rewrite E1, E2.
  eexists _, _. split; [done|]. split; [done|].
  apply (parseChunks_parses _ _ _ _ _ WF_newParser) in E1, E2.
  cbn [app] in E1, E2. change (view newParser []) with newView in E1, E2.
  assert (Hv : view p1 out1 = view p2 out2).
  { destruct chunks as [|text rest].
    - by eapply parses_nothing.
    - apply parses_concat in E1. by eapply parses_det. }
  rewrite !map_map.
  exact (f_equal vsegments Hv).
Qed.

(** *** What [parse] yields for a text, whatever the chunks *)

Lemma parse_by_view chunks R :
  chunks <> [] -> parses [concat chunks] newView R ->
  exists obs,
    parseObserved chunks = Some obs /\ List.map normalize obs = vsegments R.
Proof.
  intros Hne HR.
  destruct (parseChunks_spec chunks newParser [] Inv_newParser)
    as (p1 & out1 & E1 & _).
  unfold parseObserved, parse. rewrite E1. eexists. split; [done|].
  apply (parseChunks_parses _ _ _ _ _ WF_newParser) in E1.
  cbn [app] in E1. change (view newParser []) with newView in E1.
  destruct chunks as [|text rest]; [done|].
  apply parses_concat in E1.
  rewrite <- (parses_det _ _ _ _ E1 HR). by rewrite map_map.
Qed.

Lemma startsWith_nil_r s : startsWith s [] = true.
Proof. by destruct s. Qed.

Lemma vsegments_vCloseMarkdown v :
  vsegments (vCloseMarkdown v) = vsegments v.
Proof. unfold vCloseMarkdown. by destruct (vmode v). Qed.

(** At the end of the input, prose flushes the whole buffer. *)
Lemma vsegments_vFlushMarkdown v :
  vsegments (vFlushMarkdown true v) =
  vsegments (vPushMarkdown (vbuffer v) v).
Proof.
  unfold vFlushMarkdown. destruct (isEmpty (vbuffer v)) eqn:Eb.
  { apply isEmpty_true in Eb. rewrite Eb.
    by rewrite vsegments_vCloseMarkdown. }
  rewrite Nat.sub_0_r.
  assert (El : (0 <? length (vbuffer v)) = true).
  { apply Nat.ltb_lt. destruct (vbuffer v); [done|cbn; lia]. }
  rewrite El, slice_0, take_ge by done. unfold sliceFrom.
  rewrite drop_ge by done.
  rewrite vbuffer_vPushMarkdown. cbn [vbuffer vSetBuffer isEmpty negb].
  by rewrite vsegments_vCloseMarkdown, vPushMarkdown_setBuffer.
Qed.

(** Text without a fence is one prose segment. *)
Theorem prose_is_one_segment chunks :
  indexOf (concat chunks) FENCE 0 = None ->
  isWhitespaceOnly (concat chunks) = false ->
  exists obs,
    parseObserved chunks = Some obs /\
    List.map normalize obs = [ObsMarkdown (dropBlank (concat chunks))].
Proof.
  set (T := concat chunks). intros Hf Hw.
  assert (Hne : chunks <> []) by (by intros ->).
  set (v0 := feed T newView).
  set (v1 := emit vPushMarkdown (ahead keepTicks T) v0).
  assert (H1 : vStep false v0 = (false, v1)).
  { rewrite vStep_prose by (by left). unfold proseStep.
    change (vbuffer v0) with T. by rewrite Hf. }
  assert (H2 : vStep true v1 = (false, vFlushMarkdown true v1)).
  { assert (Hp : isProse (vmode v1)).
    { unfold v1, emit. cbn [vmode vSetBuffer].
      apply isProse_vPushMarkdown. by left. }
    assert (Hb : indexOf (vbuffer v1) FENCE 0 = None).
    { unfold v1. rewrite vbuffer_emit.
      by apply indexOf_drop_none. }
    unfold vStep. rewrite Hb. by destruct Hp as [-> | ->]. }
  destruct (parse_by_view chunks (vFlushMarkdown true v1) Hne)
    as (obs & E & Hv).
  { exists v1. split; by apply drains_stop. }
  exists obs. split; [done|]. rewrite Hv, vsegments_vFlushMarkdown.
  unfold v1 at 2. unfold emit. rewrite vPushMarkdown_setBuffer.
  unfold v1. rewrite vbuffer_emit. change (vbuffer v0) with T.
  cbn [vsegments vSetBuffer]. rewrite vPushMarkdown_app, take_drop.
  unfold vPushMarkdown. cbn [vmode v0 feed vSetBuffer newView].
  rewrite Hw. by destruct T.
Qed.


(** *** A fenced block in the text *)

Section Fenced.
Variables hdr code : jsstring.
Hypothesis hdr_line : indexOf hdr [LF] 0 = None.
Hypothesis code_free : indexOf code FENCE 0 = None.
Hypothesis code_end : endsWith code [BACKTICK] = false.

(** The text of the block: the opening fence with its header line, the
    body, the closing fence. *)
Definition fenced : jsstring := FENCE ++ hdr ++ [LF] ++ code ++ FENCE.

Lemma fenced_fence : indexOf fenced FENCE 0 = Some 0.
Proof.
  apply indexOf_first; [done|]. split_and!; [lia| |lia].
  rewrite drop_0. unfold fenced. cbn. apply startsWith_nil_r.
Qed.

Lemma fenced_header :
  indexOf fenced [LF] (length FENCE) = Some (length FENCE + length hdr).
Proof.
  apply indexOf_first; [done|]. unfold fenced. split_and!; [lia| |].
  - rewrite <- drop_drop, drop_app_length, drop_app_length. cbn.
    apply startsWith_nil_r.
  - intros j [Hj1 Hj2].
    replace j with (length FENCE + (j - length FENCE)) by lia.
    rewrite <- drop_drop, drop_app_length.
    rewrite drop_app_le by lia.
    rewrite startsWith_app_inside by (rewrite length_drop; cbn in *; lia).
    rewrite indexOf_none in hdr_line by done. apply hdr_line. lia.
Qed.

Lemma fenced_slice :
  slice fenced (length FENCE) (length FENCE + length hdr) = hdr.
Proof.
  unfold slice, fenced. rewrite drop_app_length.
  replace (length FENCE + length hdr - length FENCE) with (length hdr) by lia.
  by rewrite take_app_length.
Qed.

Lemma fenced_rest :
  sliceFrom fenced (length FENCE + length hdr + 1) = code ++ FENCE.
Proof.
  unfold sliceFrom, fenced.
  rewrite <- !drop_drop, !drop_app_length. done.
Qed.

Lemma code_noTick : noTick code.
Proof.
  unfold noTick. unfold endsWith in code_end. cbn in code_end.
  destruct (rev code) as [|c r]; [done|]. cbn in code_end.
  intros ->. by rewrite startsWith_nil_r in code_end.
Qed.

(** The first fence after the body is the closing fence. *)
Lemma code_close : indexOf (code ++ FENCE) FENCE 0 = Some (length code).
Proof.
  assert (Hat : startsWith (drop (length code) (code ++ FENCE)) FENCE = true).
  { by rewrite drop_app_length. }
  destruct (indexOf (code ++ FENCE) FENCE 0) as [k|] eqn:E.
  - f_equal.
    assert (length code <= k).
    { apply (fence_after_emitted code 0 FENCE k code_noTick);
        [unfold MAX_TAIL; cbn; lia| |]; unfold ticks; cbn [replicate];
        by rewrite app_nil_r. }
    apply indexOf_first in E as (_ & _ & Hj); [|done].
    destruct (decide (k <= length code)) as [|Hgt]; [lia|].
    rewrite Hj in Hat by lia. done.
  - rewrite indexOf_none in E by done. rewrite E in Hat by lia. done.
Qed.

(** The first turn of [drain]: the header line is read. *)
Lemma vStep_fenced :
  vStep false (feed fenced newView) =
  (true,
   let raw := stripCarriageReturn hdr in
   let v1 := feed (code ++ FENCE) newView in
   match parseHeader (trim raw) raw with
   | None => vSetMode MPass (vPushMarkdown (FENCE ++ raw ++ [LF]) v1)
   | Some info => vOpenBlock info (vCloseMarkdown v1)
   end).
Proof.
  unfold vStep. cbn [vmode vbuffer feed newView vSetBuffer app].
  rewrite fenced_fence. cbn [Nat.ltb Nat.leb].
  rewrite fenced_header, fenced_slice, fenced_rest. cbv zeta.
  by destruct (parseHeader _ _).
Qed.

Lemma vStep_rest i o :
  vStep false {| vbuffer := []; vindex := i; vmode := MIdle; vsegments := o |}
  = (false,
     {| vbuffer := []; vindex := i; vmode := MIdle; vsegments := o |}).
Proof. done. Qed.

Lemma vStep_end i o :
  vStep true {| vbuffer := []; vindex := i; vmode := MIdle; vsegments := o |}
  = (false,
     {| vbuffer := []; vindex := i; vmode := MIdle; vsegments := o |}).
Proof. done. Qed.

Lemma update_None c : updateLastNonWhitespace None c = lastNonWs c.
Proof. unfold updateLastNonWhitespace. by destruct (lastNonWs c). Qed.

(** What the consumer reads from a block with the header [info]. *)
Definition blockOf (info : BlockInfo) : Observed :=
  match info with
  | InfoAgentRun _ => ObsAgentRun 0 (code ++ terminator code)
  | InfoAgentData id => ObsAgentData 0 id code
  end.

Lemma parses_block info :
  parseHeader (trim (stripCarriageReturn hdr)) (stripCarriageReturn hdr)
    = Some info ->
  parses [fenced] newView
    {| vbuffer := []; vindex := 1; vmode := MIdle;
       vsegments := [blockOf info] |}.
Proof.
  intros Hi. pose proof vStep_fenced as H1. cbv zeta in H1.
  rewrite Hi in H1. cbn [parses].
  eexists. split; [|apply drains_stop, vStep_end].
  eapply drains_go; [exact H1|].
  eapply drains_go; [|apply drains_stop, vStep_rest].
  destruct info as [hs|id].
  - change (vOpenBlock _ _) with
      {| vbuffer := code ++ FENCE; vindex := 1; vmode := MRun None;
         vsegments := [] ++ [ObsAgentRun 0 []] |}.
    rewrite (vStep_run None) by done. unfold blockStep.
    cbn [vbuffer]. rewrite code_close. f_equal.
    unfold emit, pushRun, finishRun, vCloseRun, vSetMode, vSetBuffer, vPush.
    cbn [vbuffer vindex vmode vsegments].
    rewrite take_app_length, !drop_app_length, update_None, pushLast_snoc.
    unfold blockOf, terminator. cbn [addBody app].
    destruct (lastNonWs code) as [c|]; [destruct (negb (c =? SEMI)%N)|];
      cbn [vbuffer vindex vmode vsegments]; by rewrite ?app_nil_r.
  - change (vOpenBlock _ _) with
      {| vbuffer := code ++ FENCE; vindex := 1; vmode := MData;
         vsegments := [] ++ [ObsAgentData 0 id []] |}.
    rewrite vStep_data by done. unfold blockStep.
    cbn [vbuffer]. rewrite code_close. f_equal.
    unfold emit, finishData, vSetMode, vSetBuffer, vPush.
    cbn [vbuffer vindex vmode vsegments].
    by rewrite take_app_length, !drop_app_length, pushLast_snoc.
Qed.

Lemma parses_passthrough :
  parseHeader (trim (stripCarriageReturn hdr)) (stripCarriageReturn hdr)
    = None ->
  parses [fenced] newView
    {| vbuffer := []; vindex := 0; vmode := MIdle;
       vsegments :=
         [ObsMarkdown
            (FENCE ++ stripCarriageReturn hdr ++ [LF] ++ code ++ FENCE)] |}.
Proof.
  intros Hi. pose proof vStep_fenced as H1. cbv zeta in H1.
  rewrite Hi in H1. cbn [parses].
  set (raw := stripCarriageReturn hdr) in *.
  set (s1 := {| vbuffer := code ++ FENCE; vindex := 0; vmode := MPass;
                vsegments := [] ++ [ObsMarkdown (FENCE ++ raw ++ [LF])] |}).
  set (s2 := {| vbuffer := []; vindex := 0; vmode := MProse;
                vsegments := [ObsMarkdown
                   (FENCE ++ raw ++ [LF] ++ code ++ FENCE)] |}).
  assert (H2 : vStep false s1 = (true, s2)).
  { rewrite vStep_pass by done. unfold blockStep, s1.
    cbn [vbuffer]. rewrite code_close. f_equal.
    unfold emit, finishPass, vSetMode, vSetBuffer, vPush.
    cbn [vbuffer vindex vmode vsegments].
    rewrite take_app_length, !drop_app_length, !pushLast_snoc.
    unfold s2. cbn [addBody app]. do 3 f_equal.
    by rewrite <- !app_assoc. }
  exists s2. split; [|apply drains_stop; reflexivity].
  eapply drains_go; [exact H1|].
  eapply drains_go; [exact H2|]. apply drains_stop. reflexivity.
Qed.

End Fenced.

Lemma normalize_block obs o :
  List.map normalize obs = [o] ->
  match o with ObsMarkdown _ => False | _ => True end ->
  obs = [o].
Proof.
  destruct obs as [|o1 [|o2 obs]]; try done. cbn. intros [= <-].
  by destruct o1.
Qed.

(** A well-formed code or data block is delivered whole, whatever the
    chunks: the code with its terminator, the data under its id. *)
Theorem block_is_delivered_whole chunks hdr code info :
  concat chunks = fenced hdr code ->
  indexOf hdr [LF] 0 = None ->
  indexOf code FENCE 0 = None ->
  endsWith code [BACKTICK] = false ->
  parseHeader (trim (stripCarriageReturn hdr)) (stripCarriageReturn hdr)
    = Some info ->
  parseObserved chunks = Some [blockOf code info].
Proof.
  intros Hc Hh Hf He Hi.
  assert (Hne : chunks <> []) by (by intros ->).
  pose proof (parses_block hdr code Hh Hf He info Hi) as HR.
  rewrite <- Hc in HR.
  destruct (parse_by_view chunks _ Hne HR) as (obs & E & Hv).
  rewrite E. f_equal. apply normalize_block; [done|]. by destruct info.
Qed.

(** A fenced block with any other header is prose: the fence, the header
    line without its carriage return, the body and the closing fence. *)
Theorem unknown_block_is_prose chunks hdr code :
  concat chunks = fenced hdr code ->
  indexOf hdr [LF] 0 = None ->
  indexOf code FENCE 0 = None ->
  endsWith code [BACKTICK] = false ->
  parseHeader (trim (stripCarriageReturn hdr)) (stripCarriageReturn hdr)
    = None ->
  exists obs,
    parseObserved chunks = Some obs /\
    List.map normalize obs =
    [ObsMarkdown (FENCE ++ stripCarriageReturn hdr ++ [LF] ++ code ++ FENCE)].
Proof.
  intros Hc Hh Hf He Hi.
  assert (Hne : chunks <> []) by (by intros ->).
  pose proof (parses_passthrough hdr code Hh Hf He Hi) as HR.
  rewrite <- Hc in HR.
  destruct (parse_by_view chunks _ Hne HR) as (obs & E & Hv).
  by exists obs.
Qed.
Lemma prose_is_one_segment_witness :
  exists obs,
    parseObserved [js " a"; js "`b"; js " c"] = Some obs /\
    List.map normalize obs =
    [ObsMarkdown (dropBlank (concat [js " a"; js "`b"; js " c"]))].
Proof.
  apply (prose_is_one_segment [js " a"; js "`b"; js " c"]); by vm_compute.
Defined.

Lemma block_is_delivered_whole_witness :
  parseObserved
    [js "```tsx agent."; js "run" ++ [LF] ++ js "f(1)" ++ [LF] ++ js "``";
     js "`"]
  = Some [blockOf (js "f(1)" ++ [LF])
            (InfoAgentRun (js "```tsx agent.run" ++ [LF]))].
Proof.
  apply (block_is_delivered_whole _ (js "tsx agent.run")); by vm_compute.
Defined.

Lemma unknown_block_is_prose_witness :
  exists obs,
    parseObserved [js "```js" ++ [CR; LF] ++ js "x"; [LF] ++ js "```"]
    = Some obs /\
    List.map normalize obs =
    [ObsMarkdown
       (FENCE ++ stripCarriageReturn (js "js" ++ [CR]) ++ [LF] ++
        (js "x" ++ [LF]) ++ FENCE)].
Proof.
  apply (unknown_block_is_prose _ (js "js" ++ [CR]) (js "x" ++ [LF]));
    by vm_compute.
Defined.

End ChunkFacts.

(** ** Facts about the interaction loop *)

Module RuntimeFacts.
Import Js Runtime.

Section Loop.
Context (consume : nat -> LlmRequest -> TurnOutcome)
        (iid mid : jsstring) (rec : bool).


(** More fuel changes nothing. *)
Lemma loop_fuel_irrelevant fuel fuel' q turn transcript st :
  turn < maxTurns -> maxTurns - turn <= fuel -> maxTurns - turn <= fuel' ->
  loop consume iid mid rec fuel q turn transcript st =
  loop consume iid mid rec fuel' q turn transcript st.
Proof.
  assert (Hmax : maxTurns = 15) by reflexivity.
  revert fuel' turn transcript st.
  induction fuel as [|fuel IH]; intros [|fuel'] turn transcript st Hlt H1 H2;
    try lia.
  cbn [loop]. destruct st; [done|].
  destruct (consume turn _) as [t' sc|e]; [|done].
  destruct (negb (hasTranscript t')); [done|].
  destruct (maxTurns <=? turn + 1) eqn:Ecap; [done|].
  apply Nat.leb_gt in Ecap.
  by rewrite (IH fuel' (turn + 1) t' (false || sc)) by lia.
Qed.




End Loop.

(** The cap is reached: a model that always reports logs is asked exactly
    15 times. *)
Example chatty_model_runs_fifteen_turns :
  exists r rt',
    newInteraction chattyModel [] [] false (js "hi")
                   {| running := false; stopped := false |} = inr (r, rt') /\
    turnsRun r = 15 /\ ending r = Completed.
Proof. eexists _, _. split; [reflexivity|]. by vm_compute. Qed.

Import JsFacts.

Lemma isEmpty_trim s : isEmpty (trim s) = true <-> blank s.
Proof.
  rewrite trim_blank. by destruct (trim s).
Qed.

Lemma isEmpty_trim_app x y :
  isEmpty (trim (x ++ y)) = isEmpty (trim x) && isEmpty (trim y).
Proof.
  apply Bool.eq_iff_eq_true. rewrite andb_true_iff, !isEmpty_trim.
  apply blank_app.
Qed.

Lemma isEmpty_trim_join x y :
  isEmpty (trim (x ++ [LF] ++ y)) = isEmpty (trim x) && isEmpty (trim y).
Proof.
  rewrite !isEmpty_trim_app. change (isEmpty (trim [LF])) with true.
  done.
Qed.

Lemma present_Some s : present (Some s) = negb (isEmpty (trim s)).
Proof. by destruct s. Qed.

Lemma present_nonEmpty_trim s :
  present (nonEmpty (trim s)) = negb (isEmpty (trim s)).
Proof.
  unfold nonEmpty. destruct (isEmpty (trim s)) eqn:E; [done|].
  by rewrite present_Some, trim_idem, E.
Qed.

Lemma present_mergeField x y :
  present (mergeField x y) = present x || present y.
Proof.
  unfold mergeField. rewrite present_nonEmpty_trim.
  destruct x as [[|c x]|], y as [[|d y]|];
    unfold filterBoolean; cbn [omap list_omap];
    try change (join [LF] [c :: x; d :: y])
      with ((c :: x) ++ [LF] ++ (d :: y));
    cbn [join]; rewrite ?present_Some, ?isEmpty_trim_join, ?negb_andb;
    cbn [present]; rewrite ?orb_false_r; done.
Qed.

(** The merged transcript has something to report exactly when one of the
    two transcripts has. *)
Theorem merged_transcript_presence current next :
  hasTranscript (mergeTranscripts current next) =
  hasTranscript current || hasTranscript next.
Proof.
  unfold hasTranscript, mergeTranscripts. cbn.
  rewrite !present_mergeField.
  destruct (present (logs current)), (present (logs next)),
    (present (error current)), (present (error next)); done.
Qed.

Lemma mergeField_None_nonEmpty s :
  mergeField None (nonEmpty (trim s)) = nonEmpty (trim s).
Proof.
  unfold mergeField, nonEmpty. destruct (isEmpty (trim s)) eqn:E; [done|].
  assert (filterBoolean [None; Some (trim s)] = [trim s]) as ->
    by (destruct (trim s); done).
  cbn [join]. by rewrite trim_idem, E.
Qed.

(** Merging the result of the first code block of a turn into the empty
    transcript gives that result, normalised. *)
Theorem first_result_is_the_transcript result :
  mergeTranscripts emptyTranscript (normalizeResult result) =
  normalizeResult result.
Proof.
  unfold mergeTranscripts, normalizeResult. cbn.
  by rewrite !mergeField_None_nonEmpty.
Qed.

(** A run reports nothing to the model exactly when its logs and its error
    are blank: then the interaction ends with this turn. *)
Theorem blank_result_has_no_transcript result :
  hasTranscript (normalizeResult result) = false <->
  blank (Executor.res_logs result) /\ blank (Executor.res_error result).
Proof.
  unfold hasTranscript, normalizeResult. cbn.
  rewrite !present_nonEmpty_trim, orb_false_iff, !negb_false_iff.
  by rewrite !isEmpty_trim.
Qed.

Section Loop.
Context (consumeAssistantStream : nat -> LlmRequest -> TurnOutcome)
        (interactionUUID messageUUID : jsstring)
        (recordingPath : bool).

(** When [stop()] is called while a turn is running, that turn is the last
    one of the interaction, whatever its transcript. *)
Theorem stop_ends_the_interaction_after_the_turn fuel userQuery turn
    transcript :
  (forall req t s, consumeAssistantStream turn req = Transcript t s ->
                   s = true) ->
  turnsRun (loop consumeAssistantStream interactionUUID messageUUID
                 recordingPath fuel userQuery turn transcript false) <= 1.
Proof.
  intros Hstop. destruct fuel as [|fuel]; cbn [loop]; [cbn; lia|].
  cbn [loop]. 
  destruct (consumeAssistantStream turn _) as [t s|e] eqn:E; [|cbn; lia].
  apply Hstop in E. subst s. cbn [orb].
  destruct (negb (hasTranscript t)); [cbn; lia|].
  destruct (maxTurns <=? turn + 1); [cbn; lia|].
  destruct fuel as [|fuel]; cbn; lia.
Qed.

End Loop.

Lemma stop_ends_the_interaction_after_the_turn_witness :
  turnsRun (loop (fun _ _ => Transcript {| logs := Some (js "more");
                                           error := None |} true)
                 (js "i") (js "m") false maxTurns (js "hello") 0
                 emptyTranscript false) <= 1.
Proof.
  apply (stop_ends_the_interaction_after_the_turn
           (fun _ _ => Transcript {| logs := Some (js "more");
                                     error := None |} true)).
  intros req t s [= _ <-]. reflexivity.
Defined.

End RuntimeFacts.

(** ** Facts about the streaming interpreter *)

Module ExecutorFacts.
Import Js Executor SampleVm.

(** *** The recursion of [parsePattern]

    [parsePattern] recurses on parts of its argument; the model counts
    fuel.  The fuel it starts with is never used up: the model satisfies
    the recursive equation of the source. *)

Lemma trimStart_length s : length (trimStart s) <= length s.
Proof.
  induction s as [|c s IH]; cbn; [done|].
  destruct (isWhiteSpace c); cbn; lia.
Qed.

Lemma trim_length s : length (trim s) <= length s.
Proof.
  unfold trim, trimEnd. rewrite length_rev.
  etrans; [apply trimStart_length|]. rewrite length_rev.
  apply trimStart_length.
Qed.

Lemma slice_length s a b : length (slice s a b) <= length s.
Proof. unfold slice. rewrite length_take, length_drop. lia. Qed.

Lemma sliceFrom_length s a : length (sliceFrom s a) <= length s.
Proof. unfold sliceFrom. rewrite length_drop. lia. Qed.

Lemma splitLoop_lengths s delimiter parts current depth n :
  Forall (fun p => length p <= n) parts ->
  length current + length s <= n ->
  let '(parts', current') := splitLoop s delimiter parts current depth in
  Forall (fun p => length p <= n) parts' /\ length current' <= n.
Proof.
  revert parts current depth.
  induction s as [|c s IH]; intros parts current depth Hp Hc; cbn.
  { split; [done|lia]. }
  cbn in Hc.
  destruct (_ && _).
  - apply IH; [|cbn; lia]. apply Forall_app. split; [done|].
    constructor; [lia|constructor].
  - apply IH; [done|]. rewrite length_app. cbn. lia.
Qed.

Lemma splitAtTopLevel_lengths s delimiter :
  Forall (fun p => length p <= length s) (splitAtTopLevel s delimiter).
Proof.
  unfold splitAtTopLevel.
  pose proof (splitLoop_lengths s delimiter [] [] 0%Z (length s)) as H.
  destruct (splitLoop s delimiter [] [] 0%Z) as [parts current].
  destruct H as [Hp Hc]; [constructor|cbn; lia|].
  destruct (isEmpty current); [done|].
  apply Forall_app. split; [done|]. by constructor.
Qed.

Lemma stripDefault_length s : length (stripDefault s) <= length s.
Proof.
  unfold stripDefault. destruct (findTopLevelIndex s _); [|done].
  etrans; [apply trim_length|apply slice_length].
Qed.

Lemma parseDestructureWith_ext f g inner isObject :
  (forall p, length p <= length inner -> f p = g p) ->
  parseDestructureWith f inner isObject = parseDestructureWith g inner isObject.
Proof.
  intros Hfg. unfold parseDestructureWith. f_equal.
  pose proof (splitAtTopLevel_lengths inner (ch ","%char)) as Hparts.
  induction Hparts as [|part parts Hlen _ IH]; [done|].
  cbn [List.map]. f_equal; [|exact IH]. clear IH.
  pose proof (trim_length part) as Ht.
  destruct (isEmpty (trim part)); [done|].
  destruct (startsWith (trim part) _); [done|].
  destruct (if isObject then _ else None) as [colonIdx|].
  - apply Hfg. etrans; [apply stripDefault_length|].
    etrans; [apply trim_length|]. etrans; [apply sliceFrom_length|]. lia.
  - apply Hfg. etrans; [apply stripDefault_length|]. lia.
Qed.

Lemma startsWith_nonempty s c p :
  startsWith s (c :: p) = true -> 0 < length s.
Proof. destruct s; cbn; [done|lia]. Qed.

Lemma sliceButLast_shorter s : 0 < length s -> length (sliceButLast s 1) < length s.
Proof. intros H. unfold sliceButLast. rewrite length_take, length_drop. lia. Qed.

Lemma parsePatternF_fuel n m pattern :
  length pattern < n -> length pattern < m ->
  parsePatternF n pattern = parsePatternF m pattern.
Proof.
  revert m pattern. induction n as [|n IH]; intros [|m] pattern Hn Hm;
    try lia.
  cbn [parsePatternF]. pose proof (trim_length pattern) as Ht.
  destruct (isIdentifier _); [done|].
  destruct (startsWith (trim pattern) (js "{") && _) eqn:E1.
  { apply andb_prop in E1 as [E1 _]. apply startsWith_nonempty in E1.
    apply sliceButLast_shorter in E1.
    apply parseDestructureWith_ext. intros p Hp. apply IH; lia. }
  destruct (startsWith (trim pattern) (js "[") && _) eqn:E2; [|done].
  apply andb_prop in E2 as [E2 _]. apply startsWith_nonempty in E2.
  apply sliceButLast_shorter in E2.
  apply parseDestructureWith_ext. intros p Hp. apply IH; lia.
Qed.

(** The equation of [parsePattern] in the source. *)
Lemma parsePattern_equation pattern :
  parsePattern pattern =
  let trimmed := trim pattern in
  if isIdentifier trimmed then [trimmed]
  else if startsWith trimmed (js "{") && endsWith trimmed (js "}") then
    parseDestructureWith parsePattern (sliceButLast trimmed 1) true
  else if startsWith trimmed (js "[") && endsWith trimmed (js "]") then
    parseDestructureWith parsePattern (sliceButLast trimmed 1) false
  else [].
Proof.
  unfold parsePattern at 1. cbn [parsePatternF]. cbv zeta.
  pose proof (trim_length pattern) as Ht.
  destruct (isIdentifier _); [done|].
  destruct (startsWith (trim pattern) (js "{") && _) eqn:E1.
  { apply andb_prop in E1 as [E1 _]. apply startsWith_nonempty in E1.
    apply sliceButLast_shorter in E1.
    apply parseDestructureWith_ext. intros p Hp. unfold parsePattern.
    apply parsePatternF_fuel; lia. }
  destruct (startsWith (trim pattern) (js "[") && _) eqn:E2; [|done].
  apply andb_prop in E2 as [E2 _]. apply startsWith_nonempty in E2.
  apply sliceButLast_shorter in E2.
  apply parseDestructureWith_ext. intros p Hp. unfold parsePattern.
  apply parsePatternF_fuel; lia.
Qed.

Section Streaming.
Context {Value : Type} (vm : Vm Value).

(** *** Events and the first error *)

(** An event without an error: [error] is undefined or empty. *)
Definition quietEvent (e : ExecutionEvent) : Prop :=
  truthy (ev_error e) = false.

Definition logsOf (evs : list ExecutionEvent) : jsstring :=
  concat (List.map ev_logs evs).

(** What a piece of the generator body has yielded, starting with
    [allLogs = logs0]: while the body goes on (or hangs) no event carries
    an error; when it has returned, either no event carries an error and
    [finalError] is empty, or the last event is the only one with an
    error, which is [finalError]. *)
Definition flowOk (logs0 : jsstring) (evs : list ExecutionEvent)
    (f : Flow (Value := Value)) : Prop :=
  match f with
  | Next l _ =>
      Forall quietEvent evs /\ allLogs l = logs0 ++ logsOf evs
  | Return logs err _ =>
      logs = logs0 ++ logsOf evs /\
      ((Forall quietEvent evs /\ err = []) \/
       exists evs0 e,
         evs = evs0 ++ [e] /\ Forall quietEvent evs0 /\
         truthy (ev_error e) = true /\ err = default [] (ev_error e))
  | Stuck => Forall quietEvent evs
  end.

Lemma logsOf_app evs1 evs2 : logsOf (evs1 ++ evs2) = logsOf evs1 ++ logsOf evs2.
Proof. unfold logsOf. by rewrite map_app, concat_app. Qed.

Lemma flowOk_app logs0 evs1 l1 evs2 f :
  Forall quietEvent evs1 -> allLogs l1 = logs0 ++ logsOf evs1 ->
  flowOk (allLogs l1) evs2 f ->
  flowOk logs0 (evs1 ++ evs2) f.
Proof.
  intros Hq Hl. destruct f as [l ex|logs err ex|]; cbn.
  - intros [Hq2 ->]. split; [by apply Forall_app|].
    by rewrite Hl, logsOf_app, app_assoc.
  - intros [-> H]. split; [by rewrite Hl, logsOf_app, app_assoc|].
    destruct H as [[Hq2 ->]|(evs0 & e & -> & Hq0 & Ht & ->)].
    + left. split; [by apply Forall_app|done].
    + right. exists (evs1 ++ evs0), e. rewrite app_assoc.
      split_and!; [done|by apply Forall_app|done|done].
  - intros Hq2. by apply Forall_app.
Qed.

Lemma stepChar_ok char l ex :
  let '(evs, f) := stepChar vm char l ex in flowOk (allLogs l) evs f.
Proof.
  unfold stepChar.
  destruct (_ && _); [|by cbn; rewrite app_nil_r].
  destruct (negb _); [|by cbn; rewrite app_nil_r].
  destruct (tryTranspile vm _) as [code|err]; [|by cbn; rewrite app_nil_r].
  destruct (executeStatement vm _ code _) as [error ex'|]; [|by cbn].
  destruct (truthy error) eqn:Et; cbn.
  - split; [unfold logsOf; cbn; by rewrite app_nil_r|].
    right. eexists [], _. split_and!; [reflexivity|constructor|exact Et|done].
  - split; [by repeat constructor|].
    unfold logsOf; cbn; by rewrite app_nil_r.
Qed.

Lemma stepChars_ok chars l ex :
  let '(evs, f) := stepChars vm chars l ex in flowOk (allLogs l) evs f.
Proof.
  revert l ex. induction chars as [|char rest IH]; intros l ex; cbn [stepChars].
  { cbn. by rewrite app_nil_r. }
  pose proof (stepChar_ok char l ex) as H1.
  destruct (stepChar vm char l ex) as [evs1 [l1 ex1|logs err ex1|]];
    [|exact H1|exact H1].
  pose proof (IH l1 ex1) as H2.
  destruct (stepChars vm rest l1 ex1) as [evs2 f]. destruct H1 as [Hq Hl].
  by eapply flowOk_app.
Qed.

Lemma stepChunks_ok chunks l ex :
  let '(evs, f) := stepChunks vm chunks l ex in flowOk (allLogs l) evs f.
Proof.
  revert l ex. induction chunks as [|chunk rest IH]; intros l ex;
    cbn [stepChunks].
  { cbn. by rewrite app_nil_r. }
  pose proof (stepChars_ok chunk l ex) as H1.
  destruct (stepChars vm chunk l ex) as [evs1 [l1 ex1|logs err ex1|]];
    [|exact H1|exact H1].
  pose proof (IH l1 ex1) as H2.
  destruct (stepChunks vm rest l1 ex1) as [evs2 f]. destruct H1 as [Hq Hl].
  by eapply flowOk_app.
Qed.

Lemma flushTail_ok l ex :
  let '(evs, f) := flushTail vm l ex in
  flowOk (allLogs l) evs f /\ forall l' ex', f <> Next l' ex'.
Proof.
  unfold flushTail.
  destruct (negb _); [|split; [cbn; rewrite app_nil_r; auto|done]].
  destruct (tryTranspile vm _) as [code|err].
  - destruct (executeStatement vm _ code _) as [error ex'|];
      [|split; [constructor|done]].
    split; [|done]. cbn.
    split; [unfold logsOf; cbn; by rewrite app_nil_r|].
    destruct (truthy error) eqn:Et.
    + right. eexists [], _. split_and!; [reflexivity|constructor|exact Et|done].
    + left. split; [by repeat constructor|done].
  - split; [|done]. cbn. split; [by rewrite app_nil_r|].
    right. eexists [], _. split_and!; [reflexivity|constructor|done|done].
Qed.

(** The events of a run and its result. *)
Lemma runBody_ok chunks ex :
  exists evs f,
    runBody vm chunks ex = finish evs f /\
    flowOk [] evs f /\ forall l' ex', f <> Next l' ex'.
Proof.
  unfold runBody.
  pose proof (stepChunks_ok chunks initialLocals ex) as H1.
  destruct (stepChunks vm chunks initialLocals ex)
    as [evs1 [l1 ex1|logs err ex1|]].
  - pose proof (flushTail_ok l1 ex1) as H2.
    destruct (flushTail vm l1 ex1) as [evs2 f]. destruct H2 as [H2 Hn].
    exists (evs1 ++ evs2), f. destruct H1 as [Hq Hl].
    split_and!; [done| |done]. by eapply flowOk_app.
  - by exists evs1, (Return logs err ex1).
  - by exists evs1, Stuck.
Qed.



(** *** Runs without a ceiling *)






End Streaming.


(** *** Which names a statement hoists *)

Section Hoisting.
Context {Value : Type} (vm : Vm Value).

Lemma hoist_lookup result varNames ctx name :
  name ∈ varNames ->
  hoist vm result varNames ctx !! name = Some (getField vm result name).
Proof.
  unfold hoist. revert ctx.
  induction varNames as [|n rest IH] using rev_ind; intros ctx Hin.
  - by apply elem_of_nil in Hin.
  - rewrite foldl_app. cbn. destruct (decide (n = name)) as [->|Hne].
    + by rewrite lookup_insert_eq.
    + rewrite lookup_insert_ne by done. apply IH.
      apply elem_of_app in Hin as [Hin|Hin]; [done|].
      apply list_elem_of_singleton in Hin. congruence.
Qed.

Lemma hoist_other result varNames ctx name :
  name ∉ varNames ->
  hoist vm result varNames ctx !! name = ctx !! name.
Proof.
  unfold hoist. revert ctx.
  induction varNames as [|n rest IH] using rev_ind; intros ctx Hin; [done|].
  rewrite foldl_app. cbn. rewrite not_elem_of_app in Hin.
  destruct Hin as [H1 H2]. rewrite lookup_insert_ne; [by apply IH|].
  intros ->. apply H2. apply list_elem_of_here.
Qed.

(** A statement that starts with [var] is executed by the plain wrapper:
    no name is extracted from it. *)
Lemma var_statement_is_plain source rest code ex :
  trim source = js "var" ++ rest ->
  extractVariableNames source = [] /\
  extractFunctionName source = None /\
  executeStatement vm source code ex =
    afterScript ex (runInContext vm (wrapPlain code) (context ex))
                (fun _ ctx => ctx).
Proof.
  intros Htrim.
  assert (Hv : extractVariableNames source = []).
  { unfold extractVariableNames. rewrite Htrim. reflexivity. }
  assert (Hf : extractFunctionName source = None).
  { unfold extractFunctionName. rewrite Htrim. reflexivity. }
  split_and!; [done|done|].
  unfold executeStatement. by rewrite Hv, Hf.
Qed.

(** The context after a plain statement is the one its script left. *)
Lemma afterScript_plain ex o :
  match afterScript (Value := Value) ex o (fun _ ctx => ctx) with
  | Returned _ ex' =>
      exists result_or_error ctx written,
        (o = Fulfilled result_or_error ctx written \/
         exists e, o = Rejected e ctx written) /\
        context ex' = ctx
  | Never => o = Pending
  end.
Proof.
  destruct o as [result ctx written|e ctx written|]; cbn; [| |done].
  - exists result, ctx, written. eauto.
  - exists (consoleValue vm), ctx, written. eauto.
Qed.

End Hoisting.

(** C10: a statement that starts with [var] yields no variable name and no
    function name, so [executeStatement] runs it in the plain wrapper and
    writes nothing to the context; and there is a run, [var x = 1; x;],
    whose second statement fails with [x is not defined], where the same
    run with [const] succeeds. *)
Theorem var_is_not_hoisted :
  (forall (Value : Type) (vm : Vm Value) source rest code ex,
     trim source = js "var" ++ rest ->
     extractVariableNames source = [] /\
     extractFunctionName source = None /\
     executeStatement vm source code ex =
       afterScript ex (runInContext vm (wrapPlain code) (context ex))
                   (fun _ ctx => ctx)) /\
  (exists o ex',
     run sampleVm [js "var x = 1; x;"] freshExecutor = inr o /\
     List.map ev_statement (events o) = [js "var x = 1;"; js "x;"] /\
     List.map ev_error (events o) = [None; Some (js "x is not defined")] /\
     after o = Some ex' /\ context ex' !! js "x" = None) /\
  (exists o ex',
     run sampleVm [js "const x = 1; x;"] freshExecutor = inr o /\
     List.map ev_error (events o) = [None; None] /\
     after o = Some ex' /\ context ex' !! js "x" = Some (SNumber 1)).
Proof.
  split_and!.
  - intros Value vm source rest code ex. apply var_statement_is_plain.
  - eexists _, _. split; [reflexivity|]. by vm_compute.
  - eexists _, _. split; [reflexivity|]. by vm_compute.
Qed.

(** C4, evaluated at [const a = 1, b = 2;]: the pattern is cut at the first
    top-level [=], so only [a] is extracted; [executeStatement] returns and
    hoists [a] alone, and in the run [const a = 1, b = 2; a; b;] the read of
    [b] fails with [b is not defined].  A [let] without initialiser yields
    no name at all. *)
Theorem second_declarator_is_not_hoisted :
  extractVariableNames (js "const a = 1, b = 2;") = [js "a"] /\
  extractVariableNames (js "let x;") = [] /\
  (forall (Value : Type) (vm : Vm Value) code ex,
     executeStatement vm (js "const a = 1, b = 2;") code ex =
       afterScript ex
         (runInContext vm (wrapDeclaration code [js "a"]) (context ex))
         (fun result ctx => <[js "a" := getField vm result (js "a")]> ctx)) /\
  (exists o ex',
     run sampleVm [js "const a = 1, b = 2; a; b;"] freshExecutor = inr o /\
     List.map ev_error (events o) = [None; None; Some (js "b is not defined")] /\
     after o = Some ex' /\
     context ex' !! js "a" = Some (SNumber 1) /\
     context ex' !! js "b" = None).
Proof.
  split_and!.
  - by vm_compute.
  - by vm_compute.
  - intros Value vm code ex. reflexivity.
  - eexists _, _. split; [reflexivity|]. by vm_compute.
Qed.

(** The names that are extracted do persist: when the script of a
    declaration fulfils, every extracted name is a global of the context
    afterwards, bound to the field of the returned object. *)
Lemma extracted_names_are_hoisted {Value : Type} (vm : Vm Value)
    source code ex name result ctx written :
  name ∈ extractVariableNames source ->
  runInContext vm (wrapDeclaration code (extractVariableNames source))
               (context ex) = Fulfilled result ctx written ->
  exists ex',
    executeStatement vm source code ex = Returned None ex' /\
    context ex' !! name = Some (getField vm result name).
Proof.
  intros Hin Hrun. unfold executeStatement.
  destruct (extractVariableNames source) as [|n rest] eqn:E.
  { by apply elem_of_nil in Hin. }
  cbn [length Nat.ltb Nat.leb]. rewrite Hrun. cbn [afterScript].
  eexists. split; [reflexivity|]. cbn [context setContext].
  by apply hoist_lookup.
Qed.

(** A [const] declaration of the sample machine: [x] is hoisted with the
    value the script returned. *)
Lemma extracted_names_are_hoisted_witness :
  exists ex',
    executeStatement sampleVm (js "const x = 1;") (js "const x = 1;")
                     freshExecutor = Returned None ex' /\
    context ex' !! js "x" = Some (SNumber 1).
Proof.
  refine (extracted_names_are_hoisted sampleVm (js "const x = 1;")
            (js "const x = 1;") freshExecutor (js "x")
            (SObject [(js "x", 1%Z)]) _ _ _ _).
  - vm_compute. constructor.
  - vm_compute. reflexivity.
Defined.

(** The binding patterns that the extractor reads: shorthand, renamed and
    defaulted object properties, arrays, nested arrays, a rest element,
    a type annotation on the identifier form, and a nested mix. *)
Example destructuring_coverage :
  List.map extractVariableNames
    [js "const {a} = o;"; js "const {a: b} = o;"; js "const {a = 1} = o;";
     js "const [a, b] = o;"; js "const [a, [b, c]] = o;";
     js "const [head, ...tail] = o;"; js "const a: T = o;";
     js "let {a: {b, c: [d, ...e]}, ...f} = o;"]
  = [[js "a"]; [js "b"]; [js "a"];
     [js "a"; js "b"]; [js "a"; js "b"; js "c"];
     [js "head"; js "tail"]; [js "a"];
     [js "b"; js "d"; js "e"; js "f"]].
Proof. by vm_compute. Qed.

(** Starting the next run keeps every global but [console]. *)
Lemma startRun_keeps_globals {Value : Type} (vm : Vm Value) ex ex' name :
  startRun vm ex = inr ex' -> name <> js "console" ->
  context ex' !! name = context ex !! name.
Proof.
  unfold startRun. destruct (running ex); [done|]. intros [= <-] Hne.
  cbn. by rewrite lookup_insert_ne.
Qed.

Import JsFacts.

(** *** The helpers of the name extractor *)

Lemma join_snoc (d : jsstring) ps p c :
  join d ((p :: ps) ++ [c]) = join d (p :: ps) ++ d ++ c.
Proof.
  revert p. induction ps as [|q ps IH]; intros p; [done|].
  change (join d ((p :: q :: ps) ++ [c]))
    with (p ++ d ++ join d ((q :: ps) ++ [c])).
  rewrite IH. cbn [join]. by rewrite <- !app_assoc.
Qed.

Lemma join_last_app (d : jsstring) ps c x :
  join d (ps ++ [c ++ x]) = join d (ps ++ [c]) ++ x.
Proof.
  destruct ps as [|p ps]; [done|].
  rewrite !join_snoc. by rewrite <- !app_assoc.
Qed.

Lemma join_last_nil (d : jsstring) ps c :
  join d ((ps ++ [c]) ++ [[]]) = join d (ps ++ [c]) ++ d.
Proof.
  destruct ps as [|p ps].
  - cbn. by rewrite app_nil_r.
  - change ((p :: ps) ++ [c]) with (p :: (ps ++ [c])).
    rewrite join_snoc. by rewrite app_nil_r.
Qed.

(** The loop of [splitAtTopLevel] loses no character: the parts joined by
    the delimiter, then [current], spell what has been read. *)
Lemma splitLoop_join s delimiter parts current depth :
  let '(parts', current') := splitLoop s delimiter parts current depth in
  join [delimiter] (parts' ++ [current']) =
  join [delimiter] (parts ++ [current]) ++ s.
Proof.
  revert parts current depth.
  induction s as [|c s IH]; intros parts current depth; cbn [splitLoop].
  { by rewrite app_nil_r. }
  set (depth' := if isOpen c then _ else _).
  destruct ((c =? delimiter)%N && (depth' =? 0)%Z) eqn:E.
  - apply andb_prop in E as [E _]. apply N.eqb_eq in E. subst c.
    specialize (IH (parts ++ [current]) [] depth').
    destruct (splitLoop s delimiter (parts ++ [current]) [] depth').
    rewrite IH, join_last_nil. by rewrite <- app_assoc.
  - specialize (IH parts (current ++ [c]) depth').
    destruct (splitLoop s delimiter parts (current ++ [c]) depth').
    rewrite IH, join_last_app. by rewrite <- app_assoc.
Qed.

Lemma splitAtTopLevel_join_cases s delimiter :
  s = join [delimiter] (splitAtTopLevel s delimiter) \/
  s = join [delimiter] (splitAtTopLevel s delimiter) ++ [delimiter].
Proof.
  unfold splitAtTopLevel.
  pose proof (splitLoop_join s delimiter [] [] 0%Z) as H.
  destruct (splitLoop s delimiter [] [] 0%Z) as [parts current].
  cbn in H. destruct current as [|c current]; cbn [isEmpty].
  - destruct parts as [|p parts]; [left; by rewrite <- H|].
    right. rewrite <- H. rewrite join_snoc. by rewrite app_nil_r.
  - left. by rewrite <- H.
Qed.

(** [findTopLevelIndex] returns the place of an occurrence of the
    character; for [=], one that is not followed by [>]. *)
Lemma findLoop_sound s char i depth k :
  findLoop s char i depth = Some k ->
  i <= k /\ s !! (k - i) = Some char /\
  (char = ch "="%char -> s !! S (k - i) <> Some (ch ">"%char)).
Proof.
  revert i depth. induction s as [|c s IH]; intros i depth; cbn [findLoop];
    [done|].
  assert (Hrec : forall d, findLoop s char (S i) d = Some k ->
            i <= k /\ (c :: s) !! (k - i) = Some char /\
            (char = ch "="%char ->
             (c :: s) !! S (k - i) <> Some (ch ">"%char))).
  { intros d H. apply IH in H as (Hle & Hk & Hn).
    replace (k - i) with (S (k - S i)) by lia. split; [lia|]. by cbn. }
  destruct (isOpen c); [apply Hrec|].
  destruct (isClose c); [apply Hrec|].
  destruct ((c =? char)%N && (depth =? 0)%Z) eqn:E; [|apply Hrec].
  apply andb_prop in E as [E _]. apply N.eqb_eq in E. subst c.
  destruct ((char =? ch "="%char)%N && _) eqn:E2; [apply Hrec|].
  intros [= <-]. rewrite Nat.sub_diag. split; [lia|]. split; [done|].
  intros ->. cbn in E2. cbn. destruct s as [|n s]; [done|]. cbn.
  intros [= ->]. done.
Qed.

Definition identifiers (names : list jsstring) : Prop :=
  Forall (fun name => isIdentifier name = true) names.

Lemma parseDestructureWith_identifiers f inner isObject :
  (forall pattern, identifiers (f pattern)) ->
  identifiers (parseDestructureWith f inner isObject).
Proof.
  intros Hf. unfold parseDestructureWith, identifiers.
  apply Forall_concat, Forall_forall. intros names Hin.
  apply list_elem_of_fmap in Hin as (part & -> & _).
  destruct (isEmpty (trim part)); [constructor|].
  destruct (startsWith (trim part) (js "...")).
  { destruct (isIdentifier _) eqn:E; [|constructor]. by repeat constructor. }
  destruct (if isObject then _ else _); apply Hf.
Qed.

Lemma parsePatternF_identifiers fuel pattern :
  identifiers (parsePatternF fuel pattern).
Proof.
  revert pattern. induction fuel as [|fuel IH]; intros pattern;
    cbn [parsePatternF]; [constructor|]. cbv zeta.
  destruct (isIdentifier (trim pattern)) eqn:E; [by repeat constructor|].
  destruct (_ && _); [by apply parseDestructureWith_identifiers|].
  destruct (_ && _); [by apply parseDestructureWith_identifiers|].
  constructor.
Qed.

Lemma extractVariableNames_identifiers source :
  identifiers (extractVariableNames source).
Proof.
  unfold extractVariableNames.
  destruct (matchDeclaration _); [|constructor].
  destruct (findTopLevelIndex _ _); [|constructor].
  apply parsePatternF_identifiers.
Qed.

Section Chunking.
Context {Value : Type} (vm : Vm Value).

Lemma stepChars_app a b l ex :
  stepChars vm (a ++ b) l ex =
  match stepChars vm a l ex with
  | (evs, Next l' ex') =>
      let '(evs', f) := stepChars vm b l' ex' in (evs ++ evs', f)
  | r => r
  end.
Proof.
  revert l ex. induction a as [|c a IH]; intros l ex; cbn [app stepChars].
  - by destruct (stepChars vm b l ex).
  - destruct (stepChar vm c l ex) as [evs1 [l1 ex1|logs err ex1|]];
      [|done|done].
    rewrite IH.
    destruct (stepChars vm a l1 ex1) as [evs2 [l2 ex2|logs err ex2|]];
      [|done|done].
    destruct (stepChars vm b l2 ex2) as [evs3 f]. by rewrite app_assoc.
Qed.

Lemma stepChunks_concat chunks l ex :
  stepChunks vm chunks l ex = stepChars vm (concat chunks) l ex.
Proof.
  revert l ex. induction chunks as [|chunk rest IH]; intros l ex;
    cbn [stepChunks concat]; [done|].
  rewrite stepChars_app.
  destruct (stepChars vm chunk l ex) as [evs [l1 ex1|logs err ex1|]];
    [|done|done].
  by rewrite IH.
Qed.

Lemma runBody_concat chunks ex :
  runBody vm chunks ex = runBody vm [concat chunks] ex.
Proof.
  unfold runBody. rewrite !stepChunks_concat. cbn [concat].
  by rewrite app_nil_r.
Qed.

(** *** Text without a semicolon *)

Lemma stepChar_no_semicolon char l ex :
  char <> ch ";"%char ->
  exists c,
    stepChar vm char l ex =
    ([], Next {| buffer := buffer l ++ [char]; prevChar := Some char;
                 inLineComment := c; allLogs := allLogs l |} ex).
Proof.
  intros Hne. unfold stepChar.
  assert (E : (char =? ch ";"%char)%N = false) by by apply N.eqb_neq.
  rewrite E. cbn [andb]. by eexists.
Qed.

Lemma stepChars_no_semicolon chars l ex :
  Forall (fun c => c <> ch ";"%char) chars ->
  exists l',
    stepChars vm chars l ex = ([], Next l' ex) /\
    buffer l' = buffer l ++ chars /\ allLogs l' = allLogs l.
Proof.
  intros H. revert l. induction H as [|c chars Hc _ IH]; intros l.
  - exists l. cbn. by rewrite app_nil_r.
  - cbn [stepChars].
    destruct (stepChar_no_semicolon c l ex Hc) as (b & ->).
    destruct (IH {| buffer := buffer l ++ [c]; prevChar := Some c;
                    inLineComment := b; allLogs := allLogs l |})
      as (l' & -> & Hb & Hl).
    exists l'. cbn in *. split; [done|]. by rewrite Hb, <- app_assoc.
Qed.

Lemma runBody_no_semicolon chunks ex :
  Forall (fun c => c <> ch ";"%char) (concat chunks) ->
  exists l,
    buffer l = concat chunks /\ allLogs l = [] /\
    runBody vm chunks ex =
      (let '(evs, f) := flushTail vm l ex in finish evs f).
Proof.
  intros H. unfold runBody. rewrite stepChunks_concat.
  destruct (stepChars_no_semicolon _ initialLocals ex H)
    as (l & -> & Hb & Hl).
  exists l. cbn in Hb, Hl. split_and!; [done|done|].
  by destruct (flushTail vm l ex).
Qed.

Lemma flushTail_events l ex :
  forall e, e ∈ (flushTail vm l ex).1 ->
    (flushTail vm l ex).1 = [e] /\ ev_statement e = trim (buffer l).
Proof.
  unfold flushTail. intros e.
  destruct (negb _); [|cbn; by intros ?%elem_of_nil].
  destruct (tryTranspile vm _) as [code|err].
  - destruct (executeStatement vm _ code _) as [error ex'|];
      [|cbn; by intros ?%elem_of_nil].
    cbn. by intros ->%list_elem_of_singleton.
  - cbn. by intros ->%list_elem_of_singleton.
Qed.

Lemma events_finish evs (f : Flow (Value := Value)) :
  events (finish evs f) = evs.
Proof. by destruct f. Qed.

End Chunking.

Section Events.
Context {Value : Type} (vm : Vm Value).

(** A statement as the events report it: not empty, and trimmed. *)
Definition trimmedStatement (e : ExecutionEvent) : Prop :=
  ev_statement e <> [] /\ trim (ev_statement e) = ev_statement e.

Lemma trimmedStatement_trim s logs error :
  isEmpty (trim s) = false ->
  trimmedStatement {| ev_statement := trim s; ev_logs := logs;
                      ev_error := error |}.
Proof.
  intros E. split; cbn; [by destruct (trim s)|apply trim_idem].
Qed.

Lemma stepChar_trimmed char l ex :
  Forall trimmedStatement (stepChar vm char l ex).1.
Proof.
  unfold stepChar.
  destruct (_ && _); [|constructor].
  destruct (isEmpty (trim _)) eqn:E; cbn [negb]; [constructor|].
  destruct (tryTranspile vm _) as [code|err]; [|constructor].
  destruct (executeStatement vm _ code _) as [error ex'|]; [|constructor].
  cbn. repeat constructor; try done; cbn.
  - by destruct (trim _).
  - apply trim_idem.
Qed.

Lemma stepChars_trimmed chars l ex :
  Forall trimmedStatement (stepChars vm chars l ex).1.
Proof.
  revert l ex. induction chars as [|c chars IH]; intros l ex;
    cbn [stepChars]; [constructor|].
  pose proof (stepChar_trimmed c l ex) as H1.
  destruct (stepChar vm c l ex) as [evs1 [l1 ex1|logs err ex1|]];
    [|exact H1|exact H1].
  specialize (IH l1 ex1).
  destruct (stepChars vm chars l1 ex1) as [evs2 f]. by apply Forall_app.
Qed.

Lemma flushTail_trimmed l ex :
  Forall trimmedStatement (flushTail vm l ex).1.
Proof.
  unfold flushTail.
  destruct (isEmpty (trim _)) eqn:E; cbn [negb]; [constructor|].
  destruct (tryTranspile vm _) as [code|err].
  - destruct (executeStatement vm _ code _) as [error ex'|]; [|constructor].
    cbn. repeat constructor; cbn; [by destruct (trim _)|apply trim_idem].
  - cbn. repeat constructor; cbn; [by destruct (trim _)|apply trim_idem].
Qed.

Lemma runBody_trimmed chunks ex :
  Forall trimmedStatement (events (runBody vm chunks ex)).
Proof.
  unfold runBody. rewrite stepChunks_concat.
  pose proof (stepChars_trimmed (concat chunks) initialLocals ex) as H1.
  destruct (stepChars vm _ _ _) as [evs1 [l1 ex1|logs err ex1|]];
    [|by rewrite events_finish..].
  pose proof (flushTail_trimmed l1 ex1) as H2.
  destruct (flushTail vm l1 ex1) as [evs2 f]. rewrite events_finish.
  by apply Forall_app.
Qed.

(** The events of a run report every statement trimmed, and never an empty
    one. *)
Theorem statements_are_trimmed chunks ex :
  Forall (fun e => ev_statement e <> [] /\
                   trim (ev_statement e) = ev_statement e)
         (events (runBody vm chunks ex)).
Proof. exact (runBody_trimmed chunks ex). Qed.

(** The events and the result of a run depend on the text of the source
    stream only, not on how it is cut into chunks. *)
Theorem run_ignores_chunk_boundaries chunks ex :
  run vm chunks ex = run vm [concat chunks] ex.
Proof.
  unfold run. destruct (startRun vm ex) as [e|ex']; [done|].
  by rewrite runBody_concat.
Qed.

(** A source without any [;]: nothing is executed while the stream runs;
    when it ends the whole text, trimmed, is the one statement of the
    run. *)
Theorem unterminated_source_is_one_statement chunks ex e :
  Forall (fun c => c <> ch ";"%char) (concat chunks) ->
  e ∈ events (runBody vm chunks ex) ->
  events (runBody vm chunks ex) = [e] /\
  ev_statement e = trim (concat chunks).
Proof.
  intros H Hin.
  destruct (runBody_no_semicolon vm chunks ex H) as (l & Hb & _ & E).
  rewrite E in *. clear E.
  pose proof (flushTail_events vm l ex e) as Hf.
  destruct (flushTail vm l ex) as [evs f]. rewrite events_finish in *.
  rewrite <- Hb. by apply Hf.
Qed.

(** An empty or blank source: no statement is executed, and the run
    resolves with empty logs and no error, leaving the executor idle. *)
Theorem blank_source_runs_nothing chunks ex :
  Forall (fun c => isWhiteSpace c = true) (concat chunks) ->
  runBody vm chunks ex =
    {| events := [];
       result := Some {| res_logs := []; res_error := [] |};
       after := Some (setLogBuffer [] (setRunning false ex)) |}.
Proof.
  intros B.
  assert (H : Forall (fun c => c <> ch ";"%char) (concat chunks)).
  { eapply Forall_impl; [exact B|]. intros c Hc ->. done. }
  destruct (runBody_no_semicolon vm chunks ex H) as (l & Hb & Hl & ->).
  unfold flushTail. rewrite Hb.
  assert (E : trim (concat chunks) = []) by by apply trim_blank.
  rewrite E. cbn. by rewrite Hl.
Qed.

(** When the [result] promise of a run resolves, its logs are the logs of
    all events in order, and its error is empty exactly when no event
    carries an error. *)
Theorem result_summarises_events chunks ex r :
  result (runBody vm chunks ex) = Some r ->
  res_logs r = logsOf (events (runBody vm chunks ex)) /\
  (res_error r = [] <-> Forall quietEvent (events (runBody vm chunks ex))).
Proof.
  destruct (runBody_ok vm chunks ex) as (evs & f & -> & Hok & _).
  rewrite events_finish.
  destruct f as [l ex'|logs err ex'|]; cbn; [done| |done].
  intros [= <-]. cbn. destruct Hok as [-> Hcase]. split; [done|].
  destruct Hcase as [[Hq ->]|(evs0 & e & -> & Hq0 & Ht & ->)]; [done|].
  split.
  - intros E. destruct (ev_error e) as [[|c m]|]; done.
  - intros Hq. apply Forall_app in Hq as [_ Hq].
    apply Forall_cons in Hq as [Hq _]. unfold quietEvent in Hq. congruence.
Qed.

(** A run that has resolved leaves the executor idle, with an empty log
    buffer: the next run is accepted. *)
Theorem resolved_run_leaves_executor_ready chunks ex o :
  run vm chunks ex = inr o -> is_Some (result o) ->
  exists ex',
    after o = Some ex' /\ running ex' = false /\ logBuffer ex' = [] /\
    forall chunks', exists o', run vm chunks' ex' = inr o'.
Proof.
  unfold run. destruct (startRun vm ex) as [e|ex0]; [done|].
  intros [= <-].
  destruct (runBody_ok vm chunks ex0) as (evs & f & -> & _ & _).
  destruct f as [l ex'|logs err ex'|]; cbn; intros [r Hr]; try done.
  eexists. split; [reflexivity|]. split_and!; [done|done|].
  intros chunks'. by eexists.
Qed.

End Events.

Lemma unterminated_source_is_one_statement_witness :
  exists e,
    events (runBody sampleVm [js "let "; js "x"] freshExecutor) = [e] /\
    ev_statement e = js "let x".
Proof.
  eexists.
  refine (unterminated_source_is_one_statement sampleVm
            [js "let "; js "x"] freshExecutor _ _ _).
  - vm_compute. repeat constructor; discriminate.
  - vm_compute. constructor.
Defined.

Lemma blank_source_runs_nothing_witness :
  runBody sampleVm [[SPACE]; [LF; TAB]] freshExecutor =
    {| events := [];
       result := Some {| res_logs := []; res_error := [] |};
       after := Some (setLogBuffer [] (setRunning false freshExecutor)) |}.
Proof.
  apply (blank_source_runs_nothing sampleVm [[SPACE]; [LF; TAB]]).
  vm_compute. by repeat constructor.
Defined.

Lemma result_summarises_events_witness :
  res_logs {| res_logs := []; res_error := js "x is not defined" |} =
    logsOf (events (runBody sampleVm [js "x; var x = 1;"] freshExecutor)) /\
  (res_error {| res_logs := []; res_error := js "x is not defined" |} = [] <->
   Forall quietEvent
     (events (runBody sampleVm [js "x; var x = 1;"] freshExecutor))).
Proof.
  apply (result_summarises_events sampleVm [js "x; var x = 1;"]).
  vm_compute. reflexivity.
Defined.

Lemma resolved_run_leaves_executor_ready_witness :
  exists ex',
    after (runBody sampleVm [js "const x = 1;"]
             (ensureConsoleBinding sampleVm
                (setLogBuffer [] (setRunning true freshExecutor))))
      = Some ex' /\
    running ex' = false /\ logBuffer ex' = [] /\
    forall chunks', exists o', run sampleVm chunks' ex' = inr o'.
Proof.
  apply (resolved_run_leaves_executor_ready sampleVm [js "const x = 1;"]
           freshExecutor).
  - reflexivity.
  - vm_compute. by eexists.
Defined.

(** The names the extractor returns are identifiers, so the object
    literal of the declaration wrapper is well formed. *)
Theorem extracted_names_are_identifiers source :
  Forall (fun name => isIdentifier name = true) (extractVariableNames source).
Proof. exact (extractVariableNames_identifiers source). Qed.

(** [splitAtTopLevel] loses no character: joining its parts with the
    delimiter gives the input back, up to one delimiter at the very end
    (an empty last part is not kept). *)
Theorem splitAtTopLevel_join s delimiter :
  s = join [delimiter] (splitAtTopLevel s delimiter) \/
  s = join [delimiter] (splitAtTopLevel s delimiter) ++ [delimiter].
Proof. exact (splitAtTopLevel_join_cases s delimiter). Qed.

(** The index [findTopLevelIndex] returns is the place of an occurrence
    of the character; for [=], of one that [>] does not follow. *)
Theorem findTopLevelIndex_sound s char k :
  findTopLevelIndex s char = Some k ->
  s !! k = Some char /\
  (char = ch "="%char -> s !! S k <> Some (ch ">"%char)).
Proof.
  unfold findTopLevelIndex. intros H.
  apply findLoop_sound in H as (_ & H1 & H2).
  rewrite Nat.sub_0_r in *. by split.
Qed.

Lemma findTopLevelIndex_sound_witness :
  js "f => x = (a = 1)" !! 7 = Some (ch "="%char) /\
  (ch "="%char = ch "="%char ->
   js "f => x = (a = 1)" !! 8 <> Some (ch ">"%char)).
Proof.
  apply (findTopLevelIndex_sound (js "f => x = (a = 1)") (ch "="%char) 7).
  by vm_compute.
Defined.

End ExecutorFacts.

(** ** Facts about [VmExecutor] and cancellation *)

Module CancellationFacts.
Import Js Executor SampleVm.

(** *** The race of [VmExecutor.run] *)

Lemma race_after_writes pre rest v timer l :
  Forall (fun e => VmExecutor.isWritten e = true) pre ->
  VmExecutor.logBuffer v = Some l ->
  VmExecutor.race (pre ++ rest) {| VmExecutor.ex := v; VmExecutor.timer := timer |} =
  VmExecutor.race rest
    {| VmExecutor.ex :=
         {| VmExecutor.logBuffer := Some (l ++ VmExecutor.writtenTexts pre);
            VmExecutor.running := VmExecutor.running v;
            VmExecutor.hasStopReject := VmExecutor.hasStopReject v |};
       VmExecutor.timer := timer |}.
Proof.
  revert v l. induction pre as [|e pre IH]; intros v l Hw Hl.
  - cbn. rewrite app_nil_r. destruct v; cbn in *. by subst.
  - apply Forall_cons in Hw as [He Hw]. destruct e; try done.
    cbn [app VmExecutor.race VmExecutor.ex VmExecutor.timer].
    unfold VmExecutor.write. rewrite Hl.
    rewrite (IH _ (l ++ [text])) by done.
    cbn. by rewrite <- app_assoc.
Qed.


(** A run that is stopped while it awaits resolves with the reason, which
    is [Execution stopped] when none is given. *)
Lemma stop_called_first options pre reason rest :
  Forall (fun e => VmExecutor.isWritten e = true) pre ->
  VmExecutor.run None options
                 (pre ++ VmExecutor.StopCalled reason :: rest) VmExecutor.idle =
  inr (Some ({| VmExecutor.logs := concat (VmExecutor.writtenTexts pre);
                VmExecutor.error :=
                  formatError
                    (default VmExecutor.VmExecutionStoppedError reason) |},
             VmExecutor.idle)).
Proof.
  intros Hw. unfold VmExecutor.run. cbn [VmExecutor.running VmExecutor.idle].
  rewrite (race_after_writes pre _ _ _ []) by done.
  reflexivity.
Qed.

(** However a run ends, the executor is idle afterwards. *)
Lemma race_leaves_idle events f r v' :
  VmExecutor.race events f = Some (r, v') -> v' = VmExecutor.idle.
Proof.
  revert f. induction events as [|e events IH]; intros f; cbn; [done|].
  destruct e as [text|e| |reason].
  - apply IH.
  - by intros [= _ <-].
  - destruct (VmExecutor.timer f); [by intros [= _ <-]|apply IH].
  - unfold VmExecutor.stop. destruct (negb _); [apply IH|by intros [= _ <-]].
Qed.

Lemma run_leaves_idle compiled options events v r v' :
  VmExecutor.run compiled options events v = inr (Some (r, v')) ->
  v' = VmExecutor.idle.
Proof.
  unfold VmExecutor.run. destruct (VmExecutor.running v); [done|].
  destruct compiled; [by intros [= _ <-]|].
  intros [= H]. by eapply race_leaves_idle.
Qed.

(** *** [stop()] and the streaming run *)

Section Manager.
Context {Value : Type} (vm : Vm Value).

Lemma stepArrivals_chunks arrivals l m :
  ExecutionManager.stepArrivals vm arrivals l m =
  stepChunks vm (ExecutionManager.chunksOf arrivals) l
             (ExecutionManager.executor m).
Proof.
  revert l m. induction arrivals as [|[text|] rest IH]; intros l m;
    cbn [ExecutionManager.stepArrivals ExecutionManager.chunksOf omap
         list_omap stepChunks].
  - done.
  - destruct (stepChars vm text l (ExecutionManager.executor m))
      as [evs [l' ex'|logs err ex'|]]; [|done|done].
    by rewrite IH.
  - by rewrite IH.
Qed.

(** A streaming run is the same with and without calls of [stop()]. *)
Lemma stops_change_nothing arrivals m :
  ExecutionManager.runBodyWithStops vm arrivals m =
  runBody vm (ExecutionManager.chunksOf arrivals) (ExecutionManager.executor m).
Proof.
  unfold ExecutionManager.runBodyWithStops, runBody.
  by rewrite stepArrivals_chunks.
Qed.

End Manager.




(** C7 as the spec states it fails: [stop()] does not make a streaming run
    resolve with [Execution stopped]. *)
Lemma stop_does_not_abort_streaming_run :
  ~ (forall (vm : Vm SampleValue) arrivals m,
       ExecutionManager.StopCalled ∈ arrivals ->
       exists r,
         result (ExecutionManager.runBodyWithStops vm arrivals m) = Some r /\
         res_error r = js "Execution stopped").
Proof.
  intros H.
  destruct (H sampleVm
              [ExecutionManager.Chunk (js "var x = 1;");
               ExecutionManager.StopCalled;
               ExecutionManager.Chunk (js " x;")]
              {| ExecutionManager.executor := freshExecutor |})
    as (r & Hr & He).
  - apply list_elem_of_further, list_elem_of_here.
  - vm_compute in Hr. injection Hr as <-. discriminate He.
Qed.

(** C7, amended: the session-level [stop()] sets the [stopped] flag and
    calls [ExecutionManager.stop()], whose body is empty: the executor is
    untouched, and a streaming run in progress yields the same events and
    result as without the call.  Only [VmExecutor] has a working [stop]:
    called while a run awaits, the run resolves with the reason as its
    error, [Execution stopped] by default; when no run is in flight, as
    after a run has completed, it does nothing. *)
Theorem stop_only_sets_the_flag :
  (forall (Value : Type) rt (m : ExecutionManager.ExecutionManager (Value := Value)),
     Runtime.stop rt m =
     ({| Runtime.running := Runtime.running rt; Runtime.stopped := true |}, m)) /\
  (forall (Value : Type) (vm : Vm Value) arrivals m,
     ExecutionManager.runBodyWithStops vm arrivals m =
     runBody vm (ExecutionManager.chunksOf arrivals)
             (ExecutionManager.executor m)) /\
  (forall options pre rest,
     Forall (fun e => VmExecutor.isWritten e = true) pre ->
     VmExecutor.run None options
                    (pre ++ VmExecutor.StopCalled None :: rest) VmExecutor.idle =
     inr (Some ({| VmExecutor.logs := concat (VmExecutor.writtenTexts pre);
                   VmExecutor.error := js "Execution stopped" |},
                VmExecutor.idle))) /\
  (forall compiled options events v r v' reason,
     VmExecutor.run compiled options events v = inr (Some (r, v')) ->
     VmExecutor.stop reason v' = (None, v')).
Proof.
  split_and!.
  - reflexivity.
  - intros Value vm arrivals m. apply stops_change_nothing.
  - intros options pre rest Hw.
    by rewrite (stop_called_first options pre None rest Hw).
  - intros compiled options events v r v' reason Hrun.
    by rewrite (run_leaves_idle _ _ _ _ _ _ Hrun).
Qed.

(** The conditions of [stop_only_sets_the_flag] met: a module run that is
    stopped after one line of output, and [stop] after it has completed. *)
Lemma stop_only_sets_the_flag_witness :
  VmExecutor.run None {| VmExecutor.timeoutMs := None |}
                 ([VmExecutor.Written (js "a")] ++
                  VmExecutor.StopCalled None :: [VmExecutor.Settled None])
                 VmExecutor.idle =
  inr (Some ({| VmExecutor.logs := js "a";
                VmExecutor.error := js "Execution stopped" |},
             VmExecutor.idle)) /\
  VmExecutor.stop None VmExecutor.idle = (None, VmExecutor.idle).
Proof.
  split.
  - apply (proj1 (proj2 (proj2 stop_only_sets_the_flag))
             {| VmExecutor.timeoutMs := None |}
             [VmExecutor.Written (js "a")] [VmExecutor.Settled None]).
    by repeat constructor.
  - apply (proj2 (proj2 (proj2 stop_only_sets_the_flag))
             None {| VmExecutor.timeoutMs := None |}
             [VmExecutor.Settled None] VmExecutor.idle
             {| VmExecutor.logs := []; VmExecutor.error := [] |}
             VmExecutor.idle None).
    reflexivity.
Defined.







End CancellationFacts.

(** ** Facts about reactive records *)

Module DataFacts.
Import Js DataManager.



Section Valtio.
Context (proxy : Obj -> Obj) (snapshot : Obj -> Obj).






End Valtio.





End DataFacts.

(** ** Facts about [StreamedData] *)

Module StreamedDataFacts.
Import Js DataManager StreamedData.

Section Prototype.
Context (inherited : jsstring -> option Value).

(** A new instance is registered under its identifier, reads that
    identifier as [id], and holds no data: every other key reads what an
    empty object reads. *)
Theorem new_streamed_data_is_empty id w prop :
  prop <> js "id" ->
  let made := construct id w in
  getById (snd made) id = Some (fst made) /\
  hasId (snd made) id = true /\
  getId (snd made) (fst made) = Some id /\
  getTrap inherited (snd made) (fst made) (js "id") = Some (VString id) /\
  getTrap inherited (snd made) (fst made) prop
    = Some (default VUndefined (inherited prop)) /\
  hasTrap inherited (snd made) (fst made) prop
    = bool_decide (is_Some (inherited prop)).
Proof.
  intros Hp. cbn.
  assert (Hi : (instances w ++ [{| sdId := id; sdValue := length (objects w) |}])
               !! length (instances w)
               = Some {| sdId := id; sdValue := length (objects w) |}).
  { by rewrite lookup_app_r, Nat.sub_diag by lia. }
  assert (Ho : (objects w ++ [∅ : DataObject]) !! length (objects w) = Some ∅).
  { by rewrite lookup_app_r, Nat.sub_diag by lia. }
  unfold getById, hasId, getId, getTrap, hasTrap, dataOf, readProperty. cbn.
  rewrite Hi. cbn. rewrite Ho. cbn.
  rewrite lookup_insert_eq, lookup_empty.
  rewrite (bool_decide_eq_false_2 _ Hp). cbn.
  split_and!; try done;
    first [ apply bool_decide_eq_true_2; by eexists
          | rewrite (bool_decide_eq_false_2 (is_Some None));
            [done|by intros [? ?]] ].
Qed.

(** [setData] replaces the data and merges nothing: afterwards every key
    other than [id] reads what the new object reads for it, whatever the
    instance held before; [id] still reads the identifier, even when the
    new object has a field of that name. *)
Theorem setData_replaces w streamed inst data fields prop :
  instances w !! streamed = Some inst ->
  objects w !! data = Some fields ->
  let w' := setData streamed data w in
  getId w' streamed = Some (sdId inst) /\
  getTrap inherited w' streamed (js "id") = Some (VString (sdId inst)) /\
  (prop <> js "id" ->
   getTrap inherited w' streamed prop
     = Some (readProperty inherited fields prop)).
Proof.
  intros Hi Ho. unfold setData, getId, getTrap. cbn.
  rewrite list_lookup_alter_eq, Hi. cbn. rewrite Ho. cbn.
  split_and!; [done|done|].
  intros Hp. by rewrite (bool_decide_eq_false_2 _ Hp).
Qed.

(** Writing a property through the proxy and reading it back: the value
    written is read, except for [id], which keeps reading the identifier
    (the write lands in the data object, where the [get] trap never looks
    for [id]). *)
Theorem streamed_property_round_trip w streamed inst fields prop value :
  instances w !! streamed = Some inst ->
  objects w !! sdValue inst = Some fields ->
  prop <> js "__proto__" ->
  getTrap inherited (setTrap streamed prop value w) streamed prop =
    Some (if bool_decide (prop = js "id") then VString (sdId inst)
          else value) /\
  dataOf (setTrap streamed prop value w) streamed
    = Some (<[prop := value]> fields).
Proof.
  intros Hi Ho _. unfold setTrap, getTrap, dataOf, readProperty.
  rewrite Hi. cbn. rewrite Hi. cbn. rewrite list_lookup_alter_eq, Ho. cbn.
  split; [|done]. case_bool_decide; [done|].
  by rewrite lookup_insert_eq.
Qed.

End Prototype.

(** What objects inherit, as far as the examples below go. *)
Definition sampleInherited (prop : jsstring) : option Value :=
  if bool_decide (prop = js "toString") then Some (VRef 0) else None.

Definition sampleWorld : World :=
  snd (allocate {[ js "id" := VString (js "other"); js "n" := VNumber 1 ]}
         (setTrap 0 (js "old") (VBool true)
            (snd (construct (js "form") emptyWorld)))).

Lemma new_streamed_data_is_empty_witness :
  let made := construct (js "form") emptyWorld in
  getById (snd made) (js "form") = Some 0 /\
  getTrap sampleInherited (snd made) 0 (js "name") = Some VUndefined.
Proof.
  destruct (new_streamed_data_is_empty sampleInherited (js "form") emptyWorld
              (js "name"))
    as (H1 & _ & _ & _ & H2 & _); [by vm_compute|].
  split; [exact H1|exact H2].
Defined.

Lemma setData_replaces_witness :
  getTrap sampleInherited (setData 0 1 sampleWorld) 0 (js "id")
    = Some (VString (js "form")) /\
  getTrap sampleInherited (setData 0 1 sampleWorld) 0 (js "n")
    = Some (VNumber 1) /\
  getTrap sampleInherited (setData 0 1 sampleWorld) 0 (js "old")
    = Some VUndefined.
Proof.
  pose proof (setData_replaces sampleInherited sampleWorld 0
                {| sdId := js "form"; sdValue := 0 |} 1
                {[ js "id" := VString (js "other"); js "n" := VNumber 1 ]})
    as H.
  destruct (H (js "n") eq_refl eq_refl) as (_ & Hid & Hn).
  destruct (H (js "old") eq_refl eq_refl) as (_ & _ & Hold).
  split; [exact Hid|]. split.
  - rewrite Hn by by vm_compute. by vm_compute.
  - rewrite Hold by by vm_compute. by vm_compute.
Defined.

Lemma streamed_property_round_trip_witness :
  getTrap sampleInherited (setTrap 0 (js "id") (VNumber 7) sampleWorld) 0
          (js "id")
    = Some (VString (js "form")) /\
  getTrap sampleInherited (setTrap 0 (js "n") (VNumber 7) sampleWorld) 0
          (js "n")
    = Some (VNumber 7).
Proof.
  split.
  - refine (proj1 (streamed_property_round_trip sampleInherited sampleWorld 0
                    {| sdId := js "form"; sdValue := 0 |}
                    {[ js "old" := VBool true ]} (js "id") (VNumber 7)
                    eq_refl eq_refl _)).
    by vm_compute.
  - pose proof (proj1 (streamed_property_round_trip sampleInherited
                    sampleWorld 0
                    {| sdId := js "form"; sdValue := 0 |}
                    {[ js "old" := VBool true ]} (js "n") (VNumber 7)
                    eq_refl eq_refl ltac:(by vm_compute))) as H.
    rewrite H. by vm_compute.
Defined.

End StreamedDataFacts.

(** ** Facts about the channel *)

Module ChannelFacts.
Import Js Channel.

Section Socket.
Context (socketSend : ServerToClientEnvelope -> bool) (now : jsstring).

Abbreviation send := (Channel.send socketSend).
Abbreviation log := (Channel.log socketSend now).
Abbreviation sendMount := (Channel.sendMount socketSend).
Abbreviation resolveUiSubmit := (Channel.resolveUiSubmit socketSend now).
Abbreviation apply := (Channel.apply socketSend now).
Abbreviation applyAll := (Channel.applyAll socketSend now).

(** [send] only touches the socket and the [closed] flag. *)
Lemma send_frame envelope c :
  pendingResults (send envelope c) = pendingResults c /\
  resolutions (send envelope c) = resolutions c /\
  nextPromise (send envelope c) = nextPromise c.
Proof.
  unfold Channel.send. destruct (closed c); [done|].
  by destruct (socketSend envelope).
Qed.

Lemma log_frame line c :
  pendingResults (log line c) = pendingResults c /\
  resolutions (log line c) = resolutions c /\
  nextPromise (log line c) = nextPromise c.
Proof. apply send_frame. Qed.

(** Promises are allocated in order: every stored resolver and every
    resolution belongs to a promise made earlier. *)
Definition allocated (c : WebSocketChannel) : Prop :=
  (forall k p, pendingResults c !! k = Some p -> p < nextPromise c) /\
  (forall p v, (p, v) ∈ resolutions c -> p < nextPromise c).

Lemma allocated_new : allocated newChannel.
Proof.
  split.
  - intros k p H. cbn in H. by rewrite lookup_empty in H.
  - intros p v H. cbn in H. by apply elem_of_nil in H.
Qed.

Lemma allocated_apply c op : allocated c -> allocated (apply c op).
Proof.
  intros [Hp Hr]. destruct op as [event|payload|line|envelope|]; cbn.
  - destruct (send_frame (EnvMount event) c) as (Ep & Er & En).
    split; cbn; rewrite ?Ep, ?Er, ?En.
    + intros k p. rewrite lookup_insert. case_decide; [intros [= <-]; lia|].
      intros Hk. apply Hp in Hk. lia.
    + intros p v H. apply Hr in H. lia.
  - unfold Channel.resolveUiSubmit.
    destruct (pendingResults c !! submitMountId payload) as [resolver|] eqn:E.
    + split; cbn.
      * intros k p. rewrite lookup_delete. case_decide; [done|]. apply Hp.
      * intros p v H. apply elem_of_app in H as [H|H]; [by eapply Hr|].
        apply list_elem_of_singleton in H. injection H as -> ->.
        by eapply Hp.
    + destruct (log_frame (unknownUiSubmit (submitMountId payload)) c)
        as (Ep & Er & En).
      split; rewrite ?Ep, ?Er, ?En; [apply Hp|apply Hr].
  - destruct (log_frame line c) as (Ep & Er & En).
    split; rewrite ?Ep, ?Er, ?En; [apply Hp|apply Hr].
  - destruct (send_frame envelope c) as (Ep & Er & En).
    split; rewrite ?Ep, ?Er, ?En; [apply Hp|apply Hr].
  - by split.
Qed.

Lemma allocated_applyAll c ops : allocated c -> allocated (applyAll c ops).
Proof.
  unfold Channel.applyAll. revert c.
  induction ops as [|op ops IH]; intros c H; [done|].
  cbn. apply IH. by apply allocated_apply.
Qed.

Lemma resolvedWith_none c p :
  (forall q v, (q, v) ∈ resolutions c -> q <> p) -> resolvedWith c p = [].
Proof.
  unfold resolvedWith. generalize (resolutions c). intros l.
  induction l as [|[q v] l IH]; intros Hne; [done|].
  cbn. destruct (q =? p) eqn:E.
  - apply Nat.eqb_eq in E. destruct (Hne q v); [apply list_elem_of_here|done].
  - apply IH. intros q' v' Hin. apply (Hne q' v').
    by apply list_elem_of_further.
Qed.







End Socket.

(** A mount and two steps used below. *)
Definition panel : MountPayload :=
  {| mountId := js "m1"; uiSource := js "() => null"; initialData := None;
     streamedDataId := None; outputSchema := JNull; callbackNames := None |}.

Definition otherPanel : MountPayload :=
  {| mountId := js "m2"; uiSource := js "() => null"; initialData := None;
     streamedDataId := None; outputSchema := JNull; callbackNames := None |}.


Section Socket.
Context (socketSend : ServerToClientEnvelope -> bool) (now : jsstring).

Abbreviation send := (Channel.send socketSend).
Abbreviation log := (Channel.log socketSend now).
Abbreviation sendMount := (Channel.sendMount socketSend).
Abbreviation resolveUiSubmit := (Channel.resolveUiSubmit socketSend now).
Abbreviation apply := (Channel.apply socketSend now).
Abbreviation applyAll := (Channel.applyAll socketSend now).

(** *** A closed channel *)

Lemma send_closed envelope c : closed c = true -> send envelope c = c.
Proof. unfold Channel.send. by intros ->. Qed.

Lemma apply_closed c op :
  closed c = true ->
  closed (apply c op) = true /\ sent (apply c op) = sent c.
Proof.
  intros Hc. destruct op as [event|payload|line|envelope|]; cbn.
  - unfold Channel.sendMount. rewrite send_closed by done. by cbn.
  - unfold Channel.resolveUiSubmit.
    destruct (pendingResults c !! submitMountId payload); [done|].
    unfold Channel.log. by rewrite send_closed.
  - unfold Channel.log. by rewrite send_closed.
  - by rewrite send_closed.
  - done.
Qed.

Lemma applyAll_closed c ops :
  closed c = true ->
  closed (applyAll c ops) = true /\ sent (applyAll c ops) = sent c.
Proof.
  unfold Channel.applyAll. revert c.
  induction ops as [|op ops IH]; intros c Hc; [done|]. cbn.
  destruct (apply_closed c op Hc) as [Hc' Hs].
  destruct (IH _ Hc') as [H1 H2]. split; [done|]. by rewrite H2.
Qed.

(** *** Promises are resolved at most once *)

(** Every promise has at most one resolver, which is either still stored
    or has been called. *)
Definition resolversOk (c : WebSocketChannel) : Prop :=
  allocated c /\
  (forall k1 k2 p, pendingResults c !! k1 = Some p ->
                   pendingResults c !! k2 = Some p -> k1 = k2) /\
  (forall k p, pendingResults c !! k = Some p ->
               p ∉ (resolutions c).*1) /\
  NoDup (resolutions c).*1.

Lemma resolversOk_new : resolversOk newChannel.
Proof.
  split; [apply allocated_new|]. cbn. split_and!.
  - intros k1 k2 p H. by rewrite lookup_empty in H.
  - intros k p H. by rewrite lookup_empty in H.
  - constructor.
Qed.

Lemma resolversOk_frame c c' :
  pendingResults c' = pendingResults c -> resolutions c' = resolutions c ->
  nextPromise c' = nextPromise c -> resolversOk c -> resolversOk c'.
Proof.
  intros Ep Er En ([Ha1 Ha2] & Hi & Hd & Hn).
  unfold resolversOk, allocated. rewrite Ep, Er, En. done.
Qed.

Lemma resolversOk_apply c op : resolversOk c -> resolversOk (apply c op).
Proof.
  intros H. destruct op as [event|payload|line|envelope|]; cbn.
  - destruct (send_frame socketSend (EnvMount event) c) as (Ep & Er & En).
    destruct H as ([Ha1 Ha2] & Hi & Hd & Hn).
    unfold resolversOk, allocated. cbn. rewrite Ep, Er, En. split_and!.
    + intros k p. rewrite lookup_insert. case_decide; [intros [= <-]; lia|].
      intros Hk. apply Ha1 in Hk. lia.
    + intros p v Hin. apply Ha2 in Hin. lia.
    + intros k1 k2 p. rewrite !lookup_insert.
      repeat case_decide; subst; try done.
      * intros [= <-] Hk. apply Ha1 in Hk. lia.
      * intros Hk [= <-]. apply Ha1 in Hk. lia.
      * apply Hi.
    + intros k p. rewrite lookup_insert. case_decide.
      * intros [= <-] Hin. apply list_elem_of_fmap in Hin as ([q v] & Eq & Hin).
        cbn in Eq. subst q. apply Ha2 in Hin. lia.
      * apply Hd.
    + done.
  - unfold Channel.resolveUiSubmit.
    destruct (pendingResults c !! submitMountId payload) as [resolver|] eqn:E.
    + destruct H as ([Ha1 Ha2] & Hi & Hd & Hn).
      unfold resolversOk, allocated. cbn. split_and!.
      * intros k p. rewrite lookup_delete. case_decide; [done|]. apply Ha1.
      * intros p v Hin. apply elem_of_app in Hin as [Hin|Hin];
          [by eapply Ha2|].
        apply list_elem_of_singleton in Hin. injection Hin as -> ->.
        by eapply Ha1.
      * intros k1 k2 p. rewrite !lookup_delete.
        repeat case_decide; try done. apply Hi.
      * intros k p. rewrite lookup_delete. case_decide; [done|].
        intros Hk. rewrite fmap_app, not_elem_of_app. split; [by eapply Hd|].
        cbn. intros Hin. apply list_elem_of_singleton in Hin. subst p.
        by specialize (Hi _ _ _ Hk E).
      * rewrite fmap_app. apply NoDup_app. split_and!; [done| |].
        -- intros p Hin Hin'. cbn in Hin'.
           apply list_elem_of_singleton in Hin'. subst p.
           by apply (Hd _ _ E).
        -- cbn. apply NoDup_singleton.
    + destruct (log_frame socketSend now
                  (unknownUiSubmit (submitMountId payload)) c)
        as (Ep & Er & En).
      by eapply resolversOk_frame.
  - destruct (log_frame socketSend now line c) as (Ep & Er & En).
    by eapply resolversOk_frame.
  - destruct (send_frame socketSend envelope c) as (Ep & Er & En).
    by eapply resolversOk_frame.
  - by eapply resolversOk_frame.
Qed.

Lemma resolversOk_applyAll c ops : resolversOk c -> resolversOk (applyAll c ops).
Proof.
  unfold Channel.applyAll. revert c.
  induction ops as [|op ops IH]; intros c H; [done|].
  cbn. apply IH. by apply resolversOk_apply.
Qed.

Lemma resolved_once (l : list (PromiseRef * Json)) p :
  NoDup l.*1 ->
  length (omap (fun r => if fst r =? p then Some (snd r) else None) l) <= 1.
Proof.
  induction l as [|[q v] l IH]; cbn; [lia|].
  intros Hn. apply NoDup_cons in Hn as [Hq Hn]. specialize (IH Hn).
  destruct (q =? p) eqn:E; [|done]. apply Nat.eqb_eq in E. subst q.
  cbn. assert (omap (fun r => if fst r =? p then Some (snd r) else None) l = [])
    as ->; [|cbn; lia].
  clear IH Hn. induction l as [|[q v'] l IH]; [done|]. cbn in *.
  apply not_elem_of_cons in Hq as [Hne Hq].
  destruct (q =? p) eqn:E; [apply Nat.eqb_eq in E; congruence|].
  by apply IH.
Qed.

Lemma sendMount_fields event c :
  fst (sendMount event c) = nextPromise c /\
  pendingResults (snd (sendMount event c)) =
    <[mountId event := nextPromise c]> (pendingResults c) /\
  resolutions (snd (sendMount event c)) = resolutions c /\
  nextPromise (snd (sendMount event c)) = S (nextPromise c).
Proof.
  destruct (send_frame socketSend (EnvMount event) c) as (Ep & Er & En).
  unfold Channel.sendMount. cbn. by rewrite Ep, Er, En.
Qed.

(** *** A mount identifier used twice *)

(** The promise [p] has lost its resolver without having been resolved. *)
Definition orphan (p : PromiseRef) (c : WebSocketChannel) : Prop :=
  p < nextPromise c /\
  (forall k q, pendingResults c !! k = Some q -> q <> p) /\
  resolvedWith c p = [].

Lemma orphan_frame p c c' :
  pendingResults c' = pendingResults c -> resolutions c' = resolutions c ->
  nextPromise c' = nextPromise c -> orphan p c -> orphan p c'.
Proof.
  intros Ep Er En (H1 & H2 & H3). unfold orphan, resolvedWith in *.
  by rewrite Ep, Er, En.
Qed.

Lemma orphan_apply p c op : orphan p c -> orphan p (apply c op).
Proof.
  intros H. destruct op as [event|payload|line|envelope|]; cbn.
  - destruct (send_frame socketSend (EnvMount event) c) as (Ep & Er & En).
    destruct H as (H1 & H2 & H3).
    unfold orphan, resolvedWith in *. cbn. rewrite Ep, Er, En.
    split_and!; [lia| |done].
    intros k q. rewrite lookup_insert. case_decide; [intros [= <-]; lia|].
    apply H2.
  - unfold Channel.resolveUiSubmit.
    destruct (pendingResults c !! submitMountId payload) as [resolver|] eqn:E.
    + destruct H as (H1 & H2 & H3).
      unfold orphan, resolvedWith in *. cbn. split_and!; [done| |].
      * intros k q. rewrite lookup_delete. case_decide; [done|]. apply H2.
      * rewrite omap_app, H3. cbn.
        destruct (resolver =? p) eqn:Eq; [|done].
        apply Nat.eqb_eq in Eq. by destruct (H2 _ _ E).
    + destruct (log_frame socketSend now
                  (unknownUiSubmit (submitMountId payload)) c)
        as (Ep & Er & En).
      by eapply orphan_frame.
  - destruct (log_frame socketSend now line c) as (Ep & Er & En).
    by eapply orphan_frame.
  - destruct (send_frame socketSend envelope c) as (Ep & Er & En).
    by eapply orphan_frame.
  - by eapply orphan_frame.
Qed.

Lemma orphan_applyAll p c ops : orphan p c -> orphan p (applyAll c ops).
Proof.
  unfold Channel.applyAll. revert c.
  induction ops as [|op ops IH]; intros c H; [done|].
  cbn. apply IH. by apply orphan_apply.
Qed.

(** Once the channel is closed (by [notifyClosed], [shutdown] or a failed
    send), it stays closed and hands no further frame to the socket,
    whatever is called on it. *)
Theorem closed_channel_sends_nothing c ops :
  closed c = true ->
  closed (applyAll c ops) = true /\ sent (applyAll c ops) = sent c.
Proof. exact (applyAll_closed c ops). Qed.

(** Whatever happens on a channel, no promise made by [sendMount] is
    resolved more than once. *)
Theorem promise_resolves_at_most_once ops p :
  length (resolvedWith (applyAll newChannel ops) p) <= 1.
Proof.
  destruct (resolversOk_applyAll newChannel ops resolversOk_new)
    as (_ & _ & _ & Hn).
  by apply resolved_once.
Qed.

(** Mounting twice under the same identifier orphans the first result:
    the second [sendMount] overwrites the stored resolver, and nothing
    that happens later resolves the first promise. *)
Theorem remounting_orphans_first_result before first second later :
  mountId second = mountId first ->
  let m1 := sendMount first (applyAll newChannel before) in
  let m2 := sendMount second (snd m1) in
  fst m2 <> fst m1 /\
  resolvedWith (applyAll (snd m2) later) (fst m1) = [].
Proof.
  intros Hid m1 m2.
  set (c0 := applyAll newChannel before) in *.
  destruct (allocated_applyAll socketSend now newChannel before allocated_new)
    as [Hpend Hres]. fold c0 in Hpend, Hres.
  destruct (sendMount_fields first c0) as (F1 & P1 & R1 & N1).
  fold m1 in F1, P1, R1, N1.
  destruct (sendMount_fields second (snd m1)) as (F2 & P2 & R2 & N2).
  fold m2 in F2, P2, R2, N2. clearbody m1 m2.
  rewrite N1 in F2. rewrite P1, Hid in P2. rewrite R1 in R2.
  rewrite N1 in N2. split; [lia|].
  assert (Ho : orphan (fst m1) (snd m2)).
  { unfold orphan. rewrite F1, P2, N2. split_and!.
    - lia.
    - intros k q. rewrite insert_insert_eq, lookup_insert.
      case_decide; [intros [= <-]; lia|]. intros Hk. apply Hpend in Hk. lia.
    - apply resolvedWith_none. rewrite R2. intros q v Hin.
      apply Hres in Hin. lia. }
  destruct (orphan_applyAll _ _ later Ho) as (_ & _ & H). exact H.
Qed.

End Socket.

Lemma closed_channel_sends_nothing_witness :
  let socketSend := fun _ : ServerToClientEnvelope => true in
  let now := js "2026-01-01T00:00:00.000Z" in
  let c := Channel.applyAll socketSend now newChannel
             [SendMount panel; NotifyClosed] in
  let ops := [SendMount otherPanel;
              UiSubmit {| submitMountId := js "zz"; submitValue := JNull |}] in
  closed (Channel.applyAll socketSend now c ops) = true /\
  sent (Channel.applyAll socketSend now c ops) = [EnvMount panel].
Proof.
  intros socketSend now c ops.
  apply (closed_channel_sends_nothing socketSend now c ops). reflexivity.
Defined.

Lemma remounting_orphans_first_result_witness :
  let socketSend := fun _ : ServerToClientEnvelope => true in
  let now := js "2026-01-01T00:00:00.000Z" in
  let m1 := Channel.sendMount socketSend panel newChannel in
  let m2 := Channel.sendMount socketSend panel (snd m1) in
  let later := [UiSubmit {| submitMountId := js "m1"; submitValue := JNull |};
                UiSubmit {| submitMountId := js "m1"; submitValue := JNull |}] in
  fst m2 <> fst m1 /\
  resolvedWith (Channel.applyAll socketSend now (snd m2) later) (fst m1) = [] /\
  resolvedWith (Channel.applyAll socketSend now (snd m2) later) (fst m2) = [JNull].
Proof.
  intros socketSend now m1 m2 later.
  destruct (remounting_orphans_first_result socketSend now [] panel panel later
              eq_refl) as [H1 H2].
  split; [exact H1|]. split; [exact H2|]. reflexivity.
Defined.

End ChannelFacts.
